(** * Icelandic lemmatizer for full-text search: the dictionary engine

    A shallow embedding of [src/postgres/icelandic_fts.c]: the binary
    dictionary loader, the entry codec, the two binary-search indices, the
    candidate resolver, the bigram disambiguator, the stopword filter, the
    tokenizer and the query builder, with the properties the specification
    states about them.

    Conventions of the embedding.
    - The file image is a [list byte]; a C pointer into it is the offset of
      its target from the start of the buffer ([None] is the NULL pointer).
    - A read outside the buffer is undefined behaviour in C; here every read
      returns an [option] and [None] stands for such a read.
    - [uint32], [int] and [Size] arithmetic is written on [Z] with the
      wrap-around spelled out ([u32], [int32], [SizeT]); [Size] is taken to
      be 64 bits wide.
    - A C string is the [list byte] of its characters before the NUL; the
      strings the host passes are shorter than [2 ^ 31] bytes.
    - [palloc] and [repalloc] return; the memory they give is not modelled
      beyond the buffer of the file.
    - A loop runs on a number of iterations that is enough for it; the
      properties show that the result does not depend on it.
    - [double] is an interface ([DoubleOps]) with the two laws of its
      comparison that are used; [lowerstr], [u_isalpha] and the generated
      tables of [icelandic_fts_data.h] are parameters. *)

From Stdlib Require Import String Strings.Byte.
From Stdlib Require Import ZArith List Bool Lia Reals Lra.
Import ListNotations.

Local Open Scope Z_scope.

(** ** Machine integers *)

Definition u32 (z : Z) : Z := z mod 2 ^ 32.
Definition u16 (z : Z) : Z := z mod 2 ^ 16.
Definition u8 (z : Z) : Z := z mod 2 ^ 8.
Definition SizeT (z : Z) : Z := z mod 2 ^ 64.

(** The conversion of an unsigned 32-bit value to [int] (two's complement). *)
Definition int32 (z : Z) : Z :=
  let r := z mod 2 ^ 32 in if r <? 2 ^ 31 then r else r - 2 ^ 32.

(** [(offset + 3) & ~3] at type [Size]. *)
Definition align4 (offset : Z) : Z :=
  Z.land (SizeT (offset + 3)) (2 ^ 64 - 4).

(** ** The buffer and its reads *)

Definition byte_val (b : byte) : Z := Z.of_N (Byte.to_N b).

Definition byte_of_Z (z : Z) : byte :=
  match Byte.of_N (Z.to_N (z mod 256)) with
  | Some b => b
  | None => x00
  end.

(** The four bytes of a [uint32], least significant first. *)
Definition le32 (z : Z) : list byte :=
  [byte_of_Z z; byte_of_Z (z / 2 ^ 8); byte_of_Z (z / 2 ^ 16); byte_of_Z (z / 2 ^ 24)].

(** A small option monad for the code that reads the buffer. *)
Definition bind {A B : Type} (m : option A) (k : A -> option B) : option B :=
  match m with Some a => k a | None => None end.

Notation "x <- m ;; k" := (bind m (fun x => k))
  (at level 61, m at next level, right associativity).

Definition load_byte (data : list byte) (off : Z) : option byte :=
  if off <? 0 then None else nth_error data (Z.to_nat off).

Definition load8 (data : list byte) (off : Z) : option Z :=
  option_map byte_val (load_byte data off).

(** The [uint32] whose bytes are [b0] to [b3], least significant first. *)
Definition le_value (b0 b1 b2 b3 : Z) : Z :=
  b0 + 2 ^ 8 * b1 + 2 ^ 16 * b2 + 2 ^ 24 * b3.

(** [LEMMA_IS_LE32( *(uint32 * ) (data + off))]: a little-endian 32-bit read. *)
Definition load32 (data : list byte) (off : Z) : option Z :=
  b0 <- load8 data off ;;
  b1 <- load8 data (off + 1) ;;
  b2 <- load8 data (off + 2) ;;
  b3 <- load8 data (off + 3) ;;
  Some (le_value b0 b1 b2 b3).

(** [len] consecutive bytes starting at [off]. *)
Fixpoint load_bytes (data : list byte) (off : Z) (len : nat) : option (list byte) :=
  match len with
  | O => Some []
  | S n =>
      b <- load_byte data off ;;
      bs <- load_bytes data (off + 1) n ;;
      Some (b :: bs)
  end.

Definition ptr : Type := option Z.

Definition ptr_add (p : ptr) (n : Z) : ptr := option_map (fun base => base + n) p.

Definition deref32 (data : list byte) (p : ptr) : option Z :=
  match p with Some a => load32 data a | None => None end.

Definition deref8 (data : list byte) (p : ptr) : option Z :=
  match p with Some a => load8 data a | None => None end.

Definition deref_bytes (data : list byte) (p : ptr) (len : nat) : option (list byte) :=
  match p with Some a => load_bytes data a len | None => None end.

(** ** The loaded dictionary *)

Record LemmaIsBinary : Type := mkBinary {
  data : list byte;
  size : Z;
  version : Z;
  stringPoolSize : Z;
  lemmaCount : Z;
  wordCount : Z;
  entryCount : Z;
  bigramCount : Z;
  stringPool : ptr;
  lemmaOffsets : ptr;
  lemmaLengths : ptr;
  wordOffsets : ptr;
  wordLengths : ptr;
  entryOffsets : ptr;
  entries : ptr;
  bigramW1Offsets : ptr;
  bigramW1Lengths : ptr;
  bigramW2Offsets : ptr;
  bigramW2Lengths : ptr;
  bigramFreqs : ptr
}.

(** [lemma_is_u32(ptr, idx)] *)
Definition lemma_is_u32 (d : list byte) (p : ptr) (idx : Z) : option Z :=
  deref32 d (ptr_add p (4 * idx)).

(** ** The loader *)

Inductive LoadError : Type :=
| CouldNotRead
| BadMagic
| UnsupportedVersion (v : Z)
| StringPoolOutOfBounds
| EntriesOutOfBounds
| BigramsOutOfBounds.

(** What a call of the loader does: it returns a dictionary, raises an error
    with [ereport(ERROR, ...)], or dereferences a pointer outside the buffer
    it allocated (at byte offset [off]). *)
Inductive LoadResult : Type :=
| Loaded (bin : LemmaIsBinary)
| Raised (e : LoadError)
| OutOfBoundsRead (off : Z).

Definition header32 (d : list byte) (off : Z) (k : Z -> LoadResult) : LoadResult :=
  match load32 d off with
  | Some v => k v
  | None => OutOfBoundsRead off
  end.

Definition MAGIC : Z := 0x4C454D41.

(** The second half of [lemma_is_load_binary]: the header fields have been
    read, the regions are laid out one after the other and checked against
    [size]. *)
Definition lemma_is_load_regions (d : list byte) (size version stringPoolSize
    lemmaCount wordCount entryCount bigramCount : Z) : LoadResult :=
  let offset := 32 in
  if SizeT (offset + stringPoolSize) >? size then Raised StringPoolOutOfBounds else
  let p_stringPool := offset in
  let offset := SizeT (offset + stringPoolSize) in
  let p_lemmaOffsets := offset in
  let offset := SizeT (offset + SizeT (lemmaCount * 4)) in
  let p_lemmaLengths := offset in
  let offset := SizeT (offset + lemmaCount) in
  let offset := align4 offset in
  let p_wordOffsets := offset in
  let offset := SizeT (offset + SizeT (wordCount * 4)) in
  let p_wordLengths := offset in
  let offset := SizeT (offset + wordCount) in
  let offset := align4 offset in
  let p_entryOffsets := offset in
  let offset := SizeT (offset + SizeT (u32 (wordCount + 1) * 4)) in
  let p_entries := offset in
  if SizeT (offset + SizeT (entryCount * 4)) >? size then Raised EntriesOutOfBounds else
  let offset := SizeT (offset + SizeT (entryCount * 4)) in
  let offset := align4 offset in
  let common :=
    mkBinary d size version stringPoolSize lemmaCount wordCount entryCount bigramCount
             (Some p_stringPool) (Some p_lemmaOffsets) (Some p_lemmaLengths)
             (Some p_wordOffsets) (Some p_wordLengths)
             (Some p_entryOffsets) (Some p_entries) in
  if bigramCount >? 0 then
    let p_bigramW1Offsets := offset in
    let offset := SizeT (offset + SizeT (bigramCount * 4)) in
    let p_bigramW1Lengths := offset in
    let offset := SizeT (offset + bigramCount) in
    let offset := align4 offset in
    let p_bigramW2Offsets := offset in
    let offset := SizeT (offset + SizeT (bigramCount * 4)) in
    let p_bigramW2Lengths := offset in
    let offset := SizeT (offset + bigramCount) in
    let offset := align4 offset in
    let p_bigramFreqs := offset in
    let offset := SizeT (offset + SizeT (bigramCount * 4)) in
    if offset >? size then Raised BigramsOutOfBounds else
    Loaded (common (Some p_bigramW1Offsets) (Some p_bigramW1Lengths)
                   (Some p_bigramW2Offsets) (Some p_bigramW2Lengths)
                   (Some p_bigramFreqs))
  else
    Loaded (common None None None None None).

(** [lemma_is_load_binary] from the point where the file has been read: [d]
    is the content of the file and [Z.of_nat (length d)] what [ftell]
    returned.  The checks on the path and on the file come before and belong
    to the host. *)
Definition lemma_is_load_binary (d : list byte) : LoadResult :=
  let size := Z.of_nat (length d) in
  if size <=? 0 then Raised CouldNotRead else
  header32 d 0 (fun magic =>
  if negb (magic =? MAGIC) then Raised BadMagic else
  header32 d 4 (fun version =>
  if negb (version =? 1) && negb (version =? 2)
  then Raised (UnsupportedVersion version) else
  header32 d 8 (fun stringPoolSize =>
  header32 d 12 (fun lemmaCount =>
  header32 d 16 (fun wordCount =>
  header32 d 20 (fun entryCount =>
  header32 d 24 (fun bigramCount =>
  lemma_is_load_regions d size version stringPoolSize lemmaCount wordCount
                        entryCount bigramCount))))))).

(** *** The layout as the format describes it

    The error classes of the loader, and the regions a header declares,
    computed in unbounded arithmetic: the fixed 32-byte header is followed by
    the string pool, the lemma table (offsets then lengths), the word table
    (offsets then lengths), the entry ranges and the entries, and, when there
    are bigrams, the two bigram word tables and the frequencies; a table
    starts at the next multiple of four after the lengths before it. *)

Inductive ErrorClass : Type :=
| NotFoundError
| FormatError
| UnsupportedVersionError
| CorruptionError.

Definition classify (e : LoadError) : ErrorClass :=
  match e with
  | CouldNotRead => NotFoundError
  | BadMagic => FormatError
  | UnsupportedVersion _ => UnsupportedVersionError
  | StringPoolOutOfBounds | EntriesOutOfBounds | BigramsOutOfBounds => CorruptionError
  end.

Definition load_error (d : list byte) : option ErrorClass :=
  match lemma_is_load_binary d with
  | Raised e => Some (classify e)
  | _ => None
  end.

Record Header : Type := mkHeader {
  h_magic : Z;
  h_version : Z;
  h_stringPoolSize : Z;
  h_lemmaCount : Z;
  h_wordCount : Z;
  h_entryCount : Z;
  h_bigramCount : Z
}.

Definition read_header (d : list byte) : option Header :=
  magic <- load32 d 0 ;;
  version <- load32 d 4 ;;
  sps <- load32 d 8 ;;
  lc <- load32 d 12 ;;
  wc <- load32 d 16 ;;
  ec <- load32 d 20 ;;
  bc <- load32 d 24 ;;
  Some (mkHeader magic version sps lc wc ec bc).

Definition pad4 (z : Z) : Z := 4 * ((z + 3) / 4).

(** Each region as the pair of its first offset and the offset after its
    last byte. *)
Definition declared_regions (h : Header) : list (Z * Z) :=
  let pool := 32 in
  let lemOff := pool + h_stringPoolSize h in
  let lemLen := lemOff + 4 * h_lemmaCount h in
  let wordOff := pad4 (lemLen + h_lemmaCount h) in
  let wordLen := wordOff + 4 * h_wordCount h in
  let rangeOff := pad4 (wordLen + h_wordCount h) in
  let ents := rangeOff + 4 * (h_wordCount h + 1) in
  let b1Off := pad4 (ents + 4 * h_entryCount h) in
  let b1Len := b1Off + 4 * h_bigramCount h in
  let b2Off := pad4 (b1Len + h_bigramCount h) in
  let b2Len := b2Off + 4 * h_bigramCount h in
  let freqs := pad4 (b2Len + h_bigramCount h) in
  [ (pool, lemOff); (lemOff, lemLen); (lemLen, lemLen + h_lemmaCount h);
    (wordOff, wordLen); (wordLen, wordLen + h_wordCount h);
    (rangeOff, ents); (ents, ents + 4 * h_entryCount h) ]
  ++ (if h_bigramCount h >? 0
      then [ (b1Off, b1Len); (b1Len, b1Len + h_bigramCount h);
             (b2Off, b2Len); (b2Len, b2Len + h_bigramCount h);
             (freqs, freqs + 4 * h_bigramCount h) ]
      else []).

Definition past_end (size : Z) (r : Z * Z) : Prop := size < snd r.

(** ** The entry codec *)

Record LemmaIsEntry : Type := mkEntry {
  lemmaIdx : Z;
  posCode : Z;
  caseCode : Z;
  genderCode : Z;
  numberCode : Z
}.

(** [lemma_is_unpack_entry]: [lemmaIdx] is a [uint32], the other fields are
    [uint8] and the assignment truncates to eight bits. *)
Definition lemma_is_unpack_entry (bin : LemmaIsBinary) (packed : Z) : LemmaIsEntry :=
  if version bin =? 1 then
    mkEntry (Z.shiftr packed 4) (u8 (Z.land packed 0xF)) 0 0 0
  else
    mkEntry (Z.shiftr packed 10)
            (u8 (Z.land packed 0xF))
            (u8 (Z.land (Z.shiftr packed 4) 0x7))
            (u8 (Z.land (Z.shiftr packed 7) 0x3))
            (u8 (Z.land (Z.shiftr packed 9) 0x1)).

(** Modelled from the spec: the enumeration [IcelandicPos] is declared in
    [icelandic_fts_data.h], which is not part of the sources at hand; the
    specification calls it a closed enumeration of ten tags, and these are the
    ten enumerators [lemma_is_pos_from_code] names. *)
Inductive IcelandicPos : Type :=
| POS_NO | POS_SO | POS_LO | POS_AO | POS_FS
| POS_FN | POS_ST | POS_TO | POS_GR | POS_UH.

Definition IcelandicPos_eqb (a b : IcelandicPos) : bool :=
  match a, b with
  | POS_NO, POS_NO | POS_SO, POS_SO | POS_LO, POS_LO | POS_AO, POS_AO
  | POS_FS, POS_FS | POS_FN, POS_FN | POS_ST, POS_ST | POS_TO, POS_TO
  | POS_GR, POS_GR | POS_UH, POS_UH => true
  | _, _ => false
  end.

Definition lemma_is_pos_from_code (code : Z) : IcelandicPos :=
  match code with
  | 0 => POS_NO
  | 1 => POS_SO
  | 2 => POS_LO
  | 3 => POS_AO
  | 4 => POS_FS
  | 5 => POS_FN
  | 6 => POS_ST
  | 7 => POS_TO
  | 8 => POS_GR
  | 9 => POS_UH
  | _ => POS_NO
  end.

(** The table of the ten tags, in the order of their codes. *)
Definition pos_table : list IcelandicPos :=
  [POS_NO; POS_SO; POS_LO; POS_AO; POS_FS; POS_FN; POS_ST; POS_TO; POS_GR; POS_UH].

(** ** Comparison of byte strings *)

(** [memcmp] over two buffers of the same length: the difference of the first
    pair of bytes that differ, as unsigned values; only its sign is used. *)
Fixpoint memcmp (a b : list byte) : Z :=
  match a, b with
  | x :: a', y :: b' =>
      if byte_val x =? byte_val y then memcmp a' b' else byte_val x - byte_val y
  | _, _ => 0
  end.

(** [strcmp] on two C strings given by their characters.  Only the sign of
    the result is specified: a proper prefix of a string is less than the
    string, and otherwise the first pair of characters that differ decides,
    as unsigned values. *)
Fixpoint strcmp (a b : list byte) : Z :=
  match a, b with
  | [], [] => 0
  | [], _ :: _ => -1
  | _ :: _, [] => 1
  | x :: a', y :: b' =>
      if byte_val x =? byte_val y then strcmp a' b' else byte_val x - byte_val y
  end.

(** [pnstrdup(in, len)]: the bytes from [off] up to, and without, the first
    NUL among the first [len] ones ([strnlen] followed by [memcpy]). *)
Fixpoint pnstrdup_at (d : list byte) (off : Z) (len : nat) : option (list byte) :=
  match len with
  | O => Some []
  | S n =>
      c <- load_byte d off ;;
      if byte_val c =? 0 then Some []
      else
        rest <- pnstrdup_at d (off + 1) n ;;
        Some (c :: rest)
  end.

Definition pnstrdup (d : list byte) (p : ptr) (len : Z) : option (list byte) :=
  match p with
  | Some a => pnstrdup_at d a (Z.to_nat len)
  | None => None
  end.

(** [lemma_is_get_lemma] *)
Definition lemma_is_get_lemma (bin : LemmaIsBinary) (idx : Z) : option (list byte) :=
  offset <- lemma_is_u32 (data bin) (lemmaOffsets bin) idx ;;
  len <- deref8 (data bin) (ptr_add (lemmaLengths bin) idx) ;;
  pnstrdup (data bin) (ptr_add (stringPool bin) offset) len.

(** The comparison both indices share: [memcmp] over the shorter length, then
    the difference of the lengths. *)
Definition compare_view (d : list byte) (entry : ptr) (len : Z)
    (word : list byte) (word_len : Z) : option Z :=
  let minlen := if word_len <? len then word_len else len in
  stored <- deref_bytes d entry (Z.to_nat minlen) ;;
  let cmp := memcmp stored (firstn (Z.to_nat minlen) word) in
  if cmp =? 0 then Some (len - word_len) else Some cmp.

(** [lemma_is_compare_word] *)
Definition lemma_is_compare_word (bin : LemmaIsBinary) (idx : Z)
    (word : list byte) (word_len : Z) : option Z :=
  offset <- lemma_is_u32 (data bin) (wordOffsets bin) idx ;;
  len <- deref8 (data bin) (ptr_add (wordLengths bin) idx) ;;
  compare_view (data bin) (ptr_add (stringPool bin) offset) len word word_len.

(** The [while (left <= right)] loop of [lemma_is_find_word] and of
    [lemma_is_find_bigram], over the comparison [cmp] of the entry at an
    index with the key.  [left], [right] and [mid] are [int]s.  The loop
    halves a range of [right - left + 1] indices, and that many iterations
    are provided. *)
Fixpoint search_loop (cmp : Z -> option Z) (fuel : nat) (left right : Z) : option Z :=
  if right <? left then Some (-1)
  else
    match fuel with
    | O => Some (-1)
    | S fuel' =>
        let mid := Z.shiftr (int32 (left + right)) 1 in
        c <- cmp (u32 mid) ;;
        if c =? 0 then Some mid
        else if c <? 0 then search_loop cmp fuel' (int32 (mid + 1)) right
        else search_loop cmp fuel' left (int32 (mid - 1))
    end.

(** The length of a C string as an [int]; the strings the host passes are
    shorter than [2 ^ 31] bytes. *)
Definition strlen (s : list byte) : Z := Z.of_nat (length s).

(** [lemma_is_find_word] *)
Definition lemma_is_find_word (bin : LemmaIsBinary) (word : list byte) : option Z :=
  let left := 0 in
  let right := int32 (int32 (wordCount bin) - 1) in
  let word_len := strlen word in
  search_loop (fun mid => lemma_is_compare_word bin mid word word_len)
              (Z.to_nat (right - left + 1)) left right.

(** [lemma_is_compare_bigram] *)
Definition lemma_is_compare_bigram (bin : LemmaIsBinary) (idx : Z)
    (word1 : list byte) (word1_len : Z) (word2 : list byte) (word2_len : Z) : option Z :=
  w1_offset <- lemma_is_u32 (data bin) (bigramW1Offsets bin) idx ;;
  w1_len <- deref8 (data bin) (ptr_add (bigramW1Lengths bin) idx) ;;
  let minlen1 := if word1_len <? w1_len then word1_len else w1_len in
  w1 <- deref_bytes (data bin) (ptr_add (stringPool bin) w1_offset) (Z.to_nat minlen1) ;;
  let cmp := memcmp w1 (firstn (Z.to_nat minlen1) word1) in
  if cmp =? 0 then
    let cmp := w1_len - word1_len in
    if cmp =? 0 then
      w2_offset <- lemma_is_u32 (data bin) (bigramW2Offsets bin) idx ;;
      w2_len <- deref8 (data bin) (ptr_add (bigramW2Lengths bin) idx) ;;
      compare_view (data bin) (ptr_add (stringPool bin) w2_offset) w2_len word2 word2_len
    else Some cmp
  else Some cmp.

(** [lemma_is_find_bigram] *)
Definition lemma_is_find_bigram (bin : LemmaIsBinary) (word1 word2 : list byte) : option Z :=
  let left := 0 in
  let right := int32 (int32 (bigramCount bin) - 1) in
  let w1_len := strlen word1 in
  let w2_len := strlen word2 in
  if bigramCount bin =? 0 then Some (-1)
  else
    search_loop (fun mid => lemma_is_compare_bigram bin mid word1 w1_len word2 w2_len)
                (Z.to_nat (right - left + 1)) left right.

(** [lemma_is_bigram_freq] *)
Definition lemma_is_bigram_freq (bin : LemmaIsBinary) (word1 word2 : list byte) : option Z :=
  idx <- lemma_is_find_bigram bin word1 word2 ;;
  if idx <? 0 then Some 0
  else lemma_is_u32 (data bin) (bigramFreqs bin) (u32 idx).

(** ** The candidate resolver *)

Record LemmaCandidate : Type := mkCandidate {
  lemma : list byte;
  pos : IcelandicPos;
  cand_caseCode : Z;
  cand_genderCode : Z;
  cand_numberCode : Z
}.

(** The candidate both fallback branches of [lemma_is_get_candidates] build. *)
Definition fallback_candidate (lower : list byte) : LemmaCandidate :=
  mkCandidate lower POS_NO 0 0 0.

(** The inner loop over [candidates[0 .. count)] looking for the pair
    [(lemma, pos)]. *)
Definition candidate_seen (candidates : list LemmaCandidate)
    (p : IcelandicPos) (l : list byte) : bool :=
  existsb (fun c => IcelandicPos_eqb (pos c) p && (strcmp (lemma c) l =? 0)) candidates.

(** The loop [for (i = (int) start; i < (int) end; i++)] of
    [lemma_is_get_candidates], [n] iterations from [i]; [candidates] holds
    the [count] candidates kept so far. *)
Fixpoint candidates_loop (bin : LemmaIsBinary) (n : nat) (i : Z)
    (candidates : list LemmaCandidate) : option (list LemmaCandidate) :=
  match n with
  | O => Some candidates
  | S n' =>
      packed <- lemma_is_u32 (data bin) (entries bin) (u32 i) ;;
      let entry := lemma_is_unpack_entry bin packed in
      let p := lemma_is_pos_from_code (posCode entry) in
      l <- lemma_is_get_lemma bin (lemmaIdx entry) ;;
      let candidates' :=
        if candidate_seen candidates p l then candidates
        else candidates ++ [mkCandidate l p (caseCode entry) (genderCode entry)
                                        (numberCode entry)] in
      candidates_loop bin n' (i + 1) candidates'
  end.

(** The loop of [icelandic_lexize]: the distinct lemma ids of the range, in
    the order of their first occurrence. *)
Fixpoint lemma_ids_loop (bin : LemmaIsBinary) (n : nat) (i : Z)
    (lemmaIds : list Z) : option (list Z) :=
  match n with
  | O => Some lemmaIds
  | S n' =>
      packed <- lemma_is_u32 (data bin) (entries bin) (u32 i) ;;
      let entry := lemma_is_unpack_entry bin packed in
      let lemmaIds' :=
        if existsb (fun id => id =? lemmaIdx entry) lemmaIds then lemmaIds
        else lemmaIds ++ [lemmaIdx entry] in
      lemma_ids_loop bin n' (i + 1) lemmaIds'
  end.

(** The second loop of [icelandic_lexize]: the lemma string of each id. *)
Fixpoint lemmas_of_ids (bin : LemmaIsBinary) (ids : list Z) : option (list (list byte)) :=
  match ids with
  | [] => Some []
  | id :: ids' =>
      l <- lemma_is_get_lemma bin id ;;
      ls <- lemmas_of_ids bin ids' ;;
      Some (l :: ls)
  end.

Section Resolver.

(** [lowerstr] of PostgreSQL's text search: the lower-case form of a
    string in the locale of the database. *)
Variable lowerstr : list byte -> list byte.

(** [lemma_is_get_candidates]: the array it returns with [*out_count] as
    its length; [NULL] with a count of zero is the empty list. *)
Definition lemma_is_get_candidates (bin : LemmaIsBinary) (word : list byte)
    : option (list LemmaCandidate) :=
  let lower := lowerstr word in
  idx <- lemma_is_find_word bin lower ;;
  if idx <? 0 then Some [fallback_candidate lower]
  else
    start <- lemma_is_u32 (data bin) (entryOffsets bin) (u32 idx) ;;
    end_ <- lemma_is_u32 (data bin) (entryOffsets bin) (u32 (u32 idx + 1)) ;;
    if end_ <? start then Some []
    else
      candidates <- candidates_loop bin (Z.to_nat (int32 end_ - int32 start))
                                    (int32 start) [] ;;
      if Z.of_nat (length candidates) =? 0 then Some [fallback_candidate lower]
      else Some candidates.

(** [icelandic_lexize] after the dictionary has been loaded: [Some None]
    is the SQL NULL of [PG_RETURN_NULL()], [Some (Some a)] the text
    array [a]. *)
Definition icelandic_lexize (bin : LemmaIsBinary) (input : list byte)
    : option (option (list (list byte))) :=
  let txt := lowerstr input in
  idx <- lemma_is_find_word bin txt ;;
  if idx <? 0 then Some (Some [txt])
  else
    start <- lemma_is_u32 (data bin) (entryOffsets bin) (u32 idx) ;;
    end_ <- lemma_is_u32 (data bin) (entryOffsets bin) (u32 (u32 idx + 1)) ;;
    if end_ <? start then Some None
    else
      lemmaIds <- lemma_ids_loop bin (Z.to_nat (int32 end_ - int32 start))
                                 (int32 start) [] ;;
      if Z.of_nat (length lemmaIds) =? 0 then Some (Some [txt])
      else
        elems <- lemmas_of_ids bin lemmaIds ;;
        Some (Some elems).

End Resolver.

(** ** The bigram disambiguator *)

(** The operations of C's [double] the disambiguator uses.  [d_gt] is [>];
    [d_log] and [d_exp] are [log] and [exp] of the C library. *)
Class DoubleOps : Type := {
  double : Type;
  d_zero : double;
  d_half : double;
  d_one : double;
  d_of_uint32 : Z -> double;
  d_add : double -> double -> double;
  d_div : double -> double -> double;
  d_gt : double -> double -> bool;
  d_log : double -> double;
  d_exp : double -> double
}.

Section Disambiguator.

Context {D : DoubleOps}.

(** What the four output parameters hold when the function returns
    [true]. *)
Record Disambiguation : Type := mkDisambiguation {
  out_lemma : list byte;
  out_pos : IcelandicPos;
  out_confidence : double;
  out_by_bigram : bool
}.

(** [score += log((double) freq + 1.0)] when [freq > 0]. *)
Definition add_freq (score : double) (freq : Z) : double :=
  if freq >? 0 then d_add score (d_log (d_add (d_of_uint32 freq) d_one))
  else score.

(** The loop over [prev_candidates] for the candidate [c]. *)
Fixpoint score_prev (bin : LemmaIsBinary) (prev : list LemmaCandidate)
    (c : LemmaCandidate) (score : double) : option double :=
  match prev with
  | [] => Some score
  | p :: prev' =>
      freq <- lemma_is_bigram_freq bin (lemma p) (lemma c) ;;
      score_prev bin prev' c (add_freq score freq)
  end.

(** The loop over [next_candidates] for the candidate [c]. *)
Fixpoint score_next (bin : LemmaIsBinary) (next : list LemmaCandidate)
    (c : LemmaCandidate) (score : double) : option double :=
  match next with
  | [] => Some score
  | n :: next' =>
      freq <- lemma_is_bigram_freq bin (lemma c) (lemma n) ;;
      score_next bin next' c (add_freq score freq)
  end.

(** The score of one candidate: the body of the outer loop up to
    [scores[i] = score]. *)
Definition candidate_score (bin : LemmaIsBinary) (prev next : list LemmaCandidate)
    (c : LemmaCandidate) : option double :=
  score <- score_prev bin prev c d_zero ;;
  score_next bin next c score.

(** The state of the outer loop: [scores[0 .. i)], [best_score] and
    [best_idx]. *)
Record ScoreState : Type := mkScoreState {
  scores : list double;
  best_score : double;
  best_idx : nat
}.

Definition score_step (st : ScoreState) (i : nat) (score : double) : ScoreState :=
  if d_gt score (best_score st)
  then mkScoreState (scores st ++ [score]) score i
  else mkScoreState (scores st ++ [score]) (best_score st) (best_idx st).

Fixpoint score_loop (bin : LemmaIsBinary) (prev next : list LemmaCandidate)
    (cs : list LemmaCandidate) (i : nat) (st : ScoreState) : option ScoreState :=
  match cs with
  | [] => Some st
  | c :: cs' =>
      score <- candidate_score bin prev next c ;;
      score_loop bin prev next cs' (S i) (score_step st i score)
  end.

(** [total += exp(scores[i])] over all candidates. *)
Definition exp_total (ss : list double) : double :=
  fold_left (fun total s => d_add total (d_exp s)) ss d_zero.

(** [lemma_is_disambiguate_bigram] with every output pointer given:
    [Some None] is the return value [false], [Some (Some r)] the return
    value [true] with the outputs [r].  A neighbour that is [NULL] or has
    a count of zero is the empty list. *)
Definition lemma_is_disambiguate_bigram (bin : LemmaIsBinary)
    (candidates prev_candidates next_candidates : list LemmaCandidate)
    : option (option Disambiguation) :=
  match candidates with
  | [] => Some None
  | first :: _ =>
      st <- score_loop bin prev_candidates next_candidates candidates 0%nat
                       (mkScoreState [] d_zero 0%nat) ;;
      let best := nth (best_idx st) candidates first in
      if d_gt (best_score st) d_zero then
        let total := exp_total (scores st) in
        let confidence :=
          if d_gt total d_zero then d_div (d_exp (best_score st)) total
          else d_half in
        Some (Some (mkDisambiguation (lemma best) (pos best) confidence true))
      else
        Some (Some (mkDisambiguation (lemma best) (pos best) d_zero false))
  end.

End Disambiguator.

(** ** The stopword filter *)

(** [bsearch] of the C library over a table of [n] elements, with the
    comparison [compar key elem] of the key with the element at an index:
    the index of a matching element, or [None] for [NULL]. *)
Fixpoint bsearch_loop (compar : nat -> Z) (fuel : nat) (l u : nat) : option nat :=
  match fuel with
  | O => None
  | S fuel' =>
      if (l <? u)%nat then
        let idx := ((l + u) / 2)%nat in
        let c := compar idx in
        if c <? 0 then bsearch_loop compar fuel' l idx
        else if c >? 0 then bsearch_loop compar fuel' (S idx) u
        else Some idx
      else None
  end.

Definition bsearch {E : Type} (compar : list byte -> E -> Z) (key : list byte)
    (base : list E) : option E :=
  match base with
  | [] => None
  | e0 :: _ =>
      match bsearch_loop (fun i => compar key (nth i base e0))
                         (S (length base)) 0%nat (length base) with
      | Some i => nth_error base i
      | None => None
      end
  end.

Section Stopwords.

(** The generated tables of [icelandic_fts_data.h], which is not part of
    the sources at hand: the words of [ICELANDIC_STOPWORDS], the pairs of a
    word and its [pos_mask] of [ICELANDIC_CONTEXTUAL_STOPWORDS] (their
    [_COUNT] macros are the lengths), and the integer value of each
    enumerator of [IcelandicPos]. *)
Variable ICELANDIC_STOPWORDS : list (list byte).
Variable ICELANDIC_CONTEXTUAL_STOPWORDS : list (list byte * Z).
Variable pos_value : IcelandicPos -> Z.

Definition compare_stopword (key : list byte) (elem : list byte) : Z :=
  strcmp key elem.

Definition compare_contextual_stopword (key : list byte) (elem : list byte * Z) : Z :=
  strcmp key (fst elem).

(** [lemma_is_stopword_simple] *)
Definition lemma_is_stopword_simple (l : list byte) : bool :=
  if Z.of_nat (length ICELANDIC_STOPWORDS) =? 0 then false
  else
    match bsearch compare_stopword l ICELANDIC_STOPWORDS with
    | Some _ => true
    | None => false
    end.

(** [lemma_is_contextual_stopword] *)
Definition lemma_is_contextual_stopword (l : list byte) (p : IcelandicPos) : bool :=
  if Z.of_nat (length ICELANDIC_CONTEXTUAL_STOPWORDS) =? 0
  then lemma_is_stopword_simple l
  else
    match bsearch compare_contextual_stopword l ICELANDIC_CONTEXTUAL_STOPWORDS with
    | None => lemma_is_stopword_simple l
    | Some entry =>
        let pos_mask := u16 (snd entry) in
        negb (Z.land pos_mask (Z.shiftl 1 (pos_value p)) =? 0)
    end.

End Stopwords.

(** ** The tokenizer *)

(** The input of the tokenizer is a C string of [len] bytes; its offsets are
    [int]s between [0] and [len + 3] and are written as [nat].  The byte at
    [len] is the terminating NUL; a text value is valid UTF-8, so that no
    sequence is cut short by the end and nothing after the NUL is read. *)
Definition byte_at (input : list byte) (off : nat) : Z :=
  byte_val (nth off input x00).

(** [pg_mblen] in a UTF-8 database ([pg_utf_mblen] of PostgreSQL). *)
Definition pg_mblen (input : list byte) (off : nat) : nat :=
  let s := byte_at input off in
  if Z.land s 0x80 =? 0 then 1%nat
  else if Z.land s 0xe0 =? 0xc0 then 2%nat
  else if Z.land s 0xf0 =? 0xe0 then 3%nat
  else if Z.land s 0xf8 =? 0xf0 then 4%nat
  else 1%nat.

(** [utf8_to_unicode] of PostgreSQL. *)
Definition utf8_to_unicode (input : list byte) (off : nat) : Z :=
  let c0 := byte_at input off in
  let c1 := byte_at input (off + 1) in
  let c2 := byte_at input (off + 2) in
  let c3 := byte_at input (off + 3) in
  if Z.land c0 0x80 =? 0 then c0
  else if Z.land c0 0xe0 =? 0xc0 then
    Z.lor (Z.shiftl (Z.land c0 0x1f) 6) (Z.land c1 0x3f)
  else if Z.land c0 0xf0 =? 0xe0 then
    Z.lor (Z.lor (Z.shiftl (Z.land c0 0x0f) 12) (Z.shiftl (Z.land c1 0x3f) 6))
          (Z.land c2 0x3f)
  else if Z.land c0 0xf8 =? 0xf0 then
    Z.lor (Z.lor (Z.lor (Z.shiftl (Z.land c0 0x07) 18) (Z.shiftl (Z.land c1 0x3f) 12))
                 (Z.shiftl (Z.land c2 0x3f) 6))
          (Z.land c3 0x3f)
  else 0xffffffff.

(** [icelandic_is_word_joiner] *)
Definition icelandic_is_word_joiner (wc : Z) : bool :=
  (wc =? 0x27) || (wc =? 0x2019) || (wc =? 0x2D) || (wc =? 0x2013) || (wc =? 0x2014).

(** [pnstrdup(s, n)] on a C string given by its characters. *)
Fixpoint pnstrdup_str (s : list byte) (n : nat) : list byte :=
  match n, s with
  | S n', c :: s' => if byte_val c =? 0 then [] else c :: pnstrdup_str s' n'
  | _, _ => []
  end.

Section Tokenizer.

(** [u_isalpha] of ICU, through [icelandic_is_alpha]. *)
Variable u_isalpha : Z -> bool.

Definition icelandic_is_alpha (wc : Z) : bool := u_isalpha wc.

(** The inner [while (offset < len)] loop of [icelandic_tokenize_words]:
    the offset at which the token that has been entered ends.  Every
    iteration that does not leave the loop moves [offset] forward, so
    [len] iterations are enough. *)
Fixpoint token_end (input : list byte) (len : nat) (fuel : nat) (offset : nat) : nat :=
  match fuel with
  | O => offset
  | S fuel' =>
      if (offset <? len)%nat then
        let next_len := pg_mblen input offset in
        let next_wc := utf8_to_unicode input offset in
        if icelandic_is_alpha next_wc then token_end input len fuel' (offset + next_len)
        else if icelandic_is_word_joiner next_wc then
          let after_offset := (offset + next_len)%nat in
          if (after_offset <? len)%nat then
            let after_wc := utf8_to_unicode input after_offset in
            if icelandic_is_alpha after_wc
            then token_end input len fuel' (offset + next_len)
            else offset
          else offset
        else offset
      else offset
  end.

(** The outer loop, from [offset], with the tokens found so far. *)
Fixpoint tokenize_loop (input : list byte) (len : nat) (fuel : nat) (offset : nat)
    (tokens : list (list byte)) : list (list byte) :=
  match fuel with
  | O => tokens
  | S fuel' =>
      if (offset <? len)%nat then
        let mblen := pg_mblen input offset in
        let wc := utf8_to_unicode input offset in
        if icelandic_is_alpha wc then
          let start := offset in
          let offset' := token_end input len len (offset + mblen) in
          tokenize_loop input len fuel' offset'
            (tokens ++ [pnstrdup_str (skipn start input) (offset' - start)])
        else tokenize_loop input len fuel' (offset + mblen) tokens
      else tokens
  end.

(** [icelandic_tokenize_words(input, strlen(input), &count)] *)
Definition icelandic_tokenize_words (input : list byte) : list (list byte) :=
  tokenize_loop input (length input) (length input) 0%nat [].

End Tokenizer.

(** ** Lemmas of a text and the query builder *)

(** The loop over the candidates of one token that both
    [icelandic_fts_lemmas] and [icelandic_fts_query] run: the distinct lemmas
    in the order of their first occurrence, without the disambiguated lemma
    when it is to be filtered. *)
Definition token_lemmas_step (filter_disambiguated : bool)
    (disambig_lemma : option (list byte))
    (token_lemmas : list (list byte)) (c : LemmaCandidate) : list (list byte) :=
  if existsb (fun t => strcmp t (lemma c) =? 0) token_lemmas then token_lemmas
  else if filter_disambiguated
          && match disambig_lemma with
             | Some dl => strcmp (lemma c) dl =? 0
             | None => false
             end
  then token_lemmas
  else token_lemmas ++ [lemma c].

Definition token_lemmas_of (filter_disambiguated : bool)
    (disambig_lemma : option (list byte))
    (candidates : list LemmaCandidate) : list (list byte) :=
  fold_left (token_lemmas_step filter_disambiguated disambig_lemma) candidates [].

(** The bytes of a literal of the C source. *)
Definition lit (s : string) : list byte := list_byte_of_string s.

(** The loop [for (j = 0; j < token_lemma_count; j++)] that writes one
    group. *)
Fixpoint append_lemmas (query : list byte) (j : nat) (token_lemmas : list (list byte))
    : list byte :=
  match token_lemmas with
  | [] => query
  | l :: rest =>
      let query := if (0 <? j)%nat then query ++ lit " | " else query in
      append_lemmas (query ++ l) (S j) rest
  end.

(** The end of the body of the token loop of [icelandic_fts_query], from
    [if (token_lemma_count == 0) continue;]: the state is the buffer [query]
    and the flag [first_group]. *)
Definition append_group (st : list byte * bool) (token_lemmas : list (list byte))
    : list byte * bool :=
  let (query, first_group) := st in
  let token_lemma_count := length token_lemmas in
  if (token_lemma_count =? 0)%nat then st
  else
    let query := if negb first_group then query ++ lit " & " else query in
    let query := if (1 <? token_lemma_count)%nat then query ++ lit "(" else query in
    let query := append_lemmas query 0%nat token_lemmas in
    let query := if (1 <? token_lemma_count)%nat then query ++ lit ")" else query in
    (query, false).

(** The query text for the lemma groups of the tokens, in token order. *)
Definition build_query (groups : list (list (list byte))) : list byte :=
  fst (fold_left append_group groups ([], true)).

(** The loop [for (k = 0; k < lemma_count; k++)] of [icelandic_fts_lemmas]
    that adds the lemmas of a token to those of the text. *)
Definition collect_lemmas (lemmas token_lemmas : list (list byte)) : list (list byte) :=
  fold_left (fun acc l => if existsb (fun k => strcmp k l =? 0) acc then acc else acc ++ [l])
            token_lemmas lemmas.

Section FullText.

Context {D : DoubleOps}.
Variable lowerstr : list byte -> list byte.
Variable u_isalpha : Z -> bool.
Variable ICELANDIC_STOPWORDS : list (list byte).
Variable ICELANDIC_CONTEXTUAL_STOPWORDS : list (list byte * Z).
Variable pos_value : IcelandicPos -> Z.

(** The first loop of both functions: the candidates of every token. *)
Fixpoint token_candidates (bin : LemmaIsBinary) (tokens : list (list byte))
    : option (list (list LemmaCandidate)) :=
  match tokens with
  | [] => Some []
  | t :: tokens' =>
      candidates <- lemma_is_get_candidates lowerstr bin t ;;
      rest <- token_candidates bin tokens' ;;
      Some (candidates :: rest)
  end.

(** The body of the second loop up to the end of the loop over the
    candidates: disambiguate the token against the candidates of its
    neighbours, ask the stopword filter about the result when it rests on
    bigrams, and collect the lemmas of the token. *)
Definition surviving_lemmas (bin : LemmaIsBinary)
    (prev candidates next : list LemmaCandidate) : option (list (list byte)) :=
  r <- lemma_is_disambiguate_bigram bin candidates prev next ;;
  let disambig_lemma := option_map out_lemma r in
  let disambig_pos := match r with Some o => out_pos o | None => POS_NO end in
  let disambig_by_bigram := match r with Some o => out_by_bigram o | None => false end in
  let filter_disambiguated :=
    match disambig_by_bigram, disambig_lemma with
    | true, Some dl =>
        lemma_is_contextual_stopword ICELANDIC_STOPWORDS
          ICELANDIC_CONTEXTUAL_STOPWORDS pos_value dl disambig_pos
    | _, _ => false
    end in
  Some (token_lemmas_of filter_disambiguated disambig_lemma candidates).

(** The second loop: [prev] holds the candidates of the token before the
    first of [token_data] (none for the first token of the text). *)
Fixpoint token_groups (bin : LemmaIsBinary) (prev : list LemmaCandidate)
    (token_data : list (list LemmaCandidate)) : option (list (list (list byte))) :=
  match token_data with
  | [] => Some []
  | candidates :: rest =>
      let next := match rest with n :: _ => n | [] => [] end in
      g <- surviving_lemmas bin prev candidates next ;;
      gs <- token_groups bin candidates rest ;;
      Some (g :: gs)
  end.

(** [icelandic_fts_query] after the dictionary has been loaded. *)
Definition icelandic_fts_query (bin : LemmaIsBinary) (txt : list byte)
    : option (list byte) :=
  let tokens := icelandic_tokenize_words u_isalpha txt in
  token_data <- token_candidates bin tokens ;;
  groups <- token_groups bin [] token_data ;;
  Some (build_query groups).

(** [icelandic_fts_lemmas] after the dictionary has been loaded; [Some
    None] is the SQL NULL. *)
Definition icelandic_fts_lemmas (bin : LemmaIsBinary) (txt : list byte)
    : option (option (list (list byte))) :=
  let tokens := icelandic_tokenize_words u_isalpha txt in
  token_data <- token_candidates bin tokens ;;
  groups <- token_groups bin [] token_data ;;
  let lemmas := fold_left collect_lemmas groups [] in
  if (length lemmas =? 0)%nat then Some None else Some (Some lemmas).

End FullText.

(** ** Dictionary images

    [build_image] writes a file in the format the loader reads: the header,
    the string pool, the lemma table, the word table, the entry ranges and
    the entries, and the bigram tables when there are bigrams.  A view is the
    pair of its offset in the pool and its length. *)

Definition pad_image (img : list byte) : list byte :=
  img ++ repeat x00 (Z.to_nat (pad4 (Z.of_nat (length img)) - Z.of_nat (length img))).

Definition view_table (views : list (Z * Z)) : list byte :=
  flat_map (fun v => le32 (fst v)) views ++ map (fun v => byte_of_Z (snd v)) views.

Definition count_of {A : Type} (l : list A) : Z := Z.of_nat (length l).

Definition build_image (version : Z) (pool : list byte)
    (lemmas words : list (Z * Z)) (ranges ents : list Z)
    (bigrams : list ((Z * Z) * (Z * Z) * Z)) : list byte :=
  let img :=
    le32 MAGIC ++ le32 version ++ le32 (count_of pool) ++ le32 (count_of lemmas)
    ++ le32 (count_of words) ++ le32 (count_of ents) ++ le32 (count_of bigrams)
    ++ le32 0 ++ pool in
  let img := pad_image (img ++ view_table lemmas) in
  let img := pad_image (img ++ view_table words) in
  let img := pad_image (img ++ flat_map le32 ranges ++ flat_map le32 ents) in
  match bigrams with
  | [] => img
  | _ =>
      let img := pad_image (img ++ view_table (map (fun b => fst (fst b)) bigrams)) in
      let img := pad_image (img ++ view_table (map (fun b => snd (fst b)) bigrams)) in
      img ++ flat_map le32 (map snd bigrams)
  end.

(** A packed entry of version 2. *)
Definition pack2 (lemmaId number gender case_ pos_ : Z) : Z :=
  lemmaId * 2 ^ 10 + number * 2 ^ 9 + gender * 2 ^ 7 + case_ * 2 ^ 4 + pos_.

(** A dictionary of version 2 of which only the version matters. *)
Definition version2_bin : LemmaIsBinary :=
  mkBinary [] 0 2 0 0 0 0 0 None None None None None None None None None None None None.

(** A small dictionary of version 2.  The pool is ["farafershesturvera"]
    without the ["s"]: the lemmas are [fara], [far], [hestur] and [vera];
    the words are [er], [far], [fer], [hest] and [hestur], in byte order;
    the bigrams are [(far, vera)], [(hestur, fara)] and [(hestur, vera)]. *)
Definition sample_pool : list byte := lit "faraferhesturvera".

Definition sample_image : list byte :=
  build_image 2 sample_pool
    [(0, 4); (0, 3); (7, 6); (13, 4)]
    [(5, 2); (0, 3); (4, 3); (7, 4); (7, 6)]
    [0; 1; 3; 6; 7; 8]
    [ pack2 3 0 0 0 1;
      pack2 1 0 2 1 0; pack2 0 0 0 0 1;
      pack2 0 0 0 0 1; pack2 0 1 0 0 1; pack2 1 0 2 2 0;
      pack2 2 0 1 2 0;
      pack2 2 0 1 1 0 ]
    [ ((0, 3), (13, 4), 2); ((7, 6), (0, 4), 7); ((7, 6), (13, 4), 3) ].

(** The dictionary without words: the header and the single entry-range
    offset. *)
Definition empty_image : list byte := build_image 1 [] [] [] [0] [] [].

(** One word, ["a"], whose entry range runs backwards, from 1 to 0. *)
Definition reversed_range_image : list byte :=
  build_image 1 (lit "a") [] [(0, 1)] [1; 0] [] [].

(** One word, ["a"], with one entry, whose lemma id 5 has no row in the
    empty lemma table. *)
Definition stray_lemma_image : list byte :=
  build_image 1 (lit "a") [] [(0, 1)] [0; 1] [5 * 2 ^ 4] [].

(** One word whose view starts at offset 1000 of a pool of one byte. *)
Definition stray_view_image : list byte :=
  build_image 1 (lit "a") [] [(1000, 1)] [0; 0] [] [].

(** One word, ["a"], whose entry range ends at 3 in a table of one entry. *)
Definition stray_range_image : list byte :=
  build_image 1 (lit "a") [(0, 1)] [(0, 1)] [0; 3] [0] [].

(** The file that stops after the magic and the version. *)
Definition truncated_header : list byte := le32 MAGIC ++ le32 1.

(** A header of thirty-two zero bytes: the version field is 0 and the
    magic is wrong. *)
Definition zero_header : list byte := repeat x00 32.

(** What is left of [Loaded bin]. *)
Definition loaded (d : list byte) : option LemmaIsBinary :=
  match lemma_is_load_binary d with
  | Loaded bin => Some bin
  | _ => None
  end.

(** ** What the loader establishes, and what it does not *)

(** The regions of a loaded dictionary lie inside the buffer; the bigram
    tables are present when there are bigrams. *)
Definition region_inside (d : list byte) (p : ptr) (bytes : Z) : Prop :=
  exists a, p = Some a /\ 0 <= a /\ a + bytes <= Z.of_nat (length d).

Record laid_out (bin : LemmaIsBinary) : Prop := mkLaidOut {
  lo_size : size bin = Z.of_nat (length (data bin));
  lo_version : version bin = 1 \/ version bin = 2;
  lo_stringPoolSize : 0 <= stringPoolSize bin < 2 ^ 32;
  lo_lemmaCount : 0 <= lemmaCount bin < 2 ^ 32;
  lo_wordCount : 0 <= wordCount bin < 2 ^ 32;
  lo_entryCount : 0 <= entryCount bin < 2 ^ 32;
  lo_bigramCount : 0 <= bigramCount bin < 2 ^ 32;
  lo_stringPool : region_inside (data bin) (stringPool bin) (stringPoolSize bin);
  lo_lemmaOffsets : region_inside (data bin) (lemmaOffsets bin) (4 * lemmaCount bin);
  lo_lemmaLengths : region_inside (data bin) (lemmaLengths bin) (lemmaCount bin);
  lo_wordOffsets : region_inside (data bin) (wordOffsets bin) (4 * wordCount bin);
  lo_wordLengths : region_inside (data bin) (wordLengths bin) (wordCount bin);
  lo_entryOffsets : region_inside (data bin) (entryOffsets bin) (4 * (wordCount bin + 1));
  lo_entries : region_inside (data bin) (entries bin) (4 * entryCount bin);
  lo_bigrams :
    0 < bigramCount bin ->
    region_inside (data bin) (bigramW1Offsets bin) (4 * bigramCount bin)
    /\ region_inside (data bin) (bigramW1Lengths bin) (bigramCount bin)
    /\ region_inside (data bin) (bigramW2Offsets bin) (4 * bigramCount bin)
    /\ region_inside (data bin) (bigramW2Lengths bin) (bigramCount bin)
    /\ region_inside (data bin) (bigramFreqs bin) (4 * bigramCount bin)
}.

(** The precondition the loader does not establish: every value stored in
    the tables is in bounds. *)
Record values_in_bounds (bin : LemmaIsBinary) : Prop := mkValuesInBounds {
  vb_words : forall i off len, 0 <= i < wordCount bin ->
    lemma_is_u32 (data bin) (wordOffsets bin) i = Some off ->
    deref8 (data bin) (ptr_add (wordLengths bin) i) = Some len ->
    off + len <= stringPoolSize bin;
  vb_lemmas : forall i off len, 0 <= i < lemmaCount bin ->
    lemma_is_u32 (data bin) (lemmaOffsets bin) i = Some off ->
    deref8 (data bin) (ptr_add (lemmaLengths bin) i) = Some len ->
    off + len <= stringPoolSize bin;
  vb_ranges : forall i v, 0 <= i <= wordCount bin ->
    lemma_is_u32 (data bin) (entryOffsets bin) i = Some v ->
    v <= entryCount bin;
  vb_lemma_ids : forall k packed, 0 <= k < entryCount bin ->
    lemma_is_u32 (data bin) (entries bin) k = Some packed ->
    lemmaIdx (lemma_is_unpack_entry bin packed) < lemmaCount bin
}.

(** ** The indices as the format describes them *)

(** The order of both indices: byte by byte, a proper prefix first. *)
Fixpoint lex (a b : list byte) : comparison :=
  match a, b with
  | [], [] => Eq
  | [], _ :: _ => Lt
  | _ :: _, [] => Gt
  | x :: a', y :: b' =>
      match byte_val x ?= byte_val y with
      | Eq => lex a' b'
      | c => c
      end
  end.

(** The comparator in the words of the format: [memcmp] over the shorter
    length, and the difference of the lengths when that is zero. *)
Definition view_compare (stored query : list byte) : Z :=
  let m := Nat.min (length stored) (length query) in
  let c := memcmp (firstn m stored) (firstn m query) in
  if c =? 0 then Z.of_nat (length stored) - Z.of_nat (length query) else c.

(** The same on the two-level key of the bigram index. *)
Definition pair_compare (stored query : list byte * list byte) : Z :=
  let c := view_compare (fst stored) (fst query) in
  if c =? 0 then view_compare (snd stored) (snd query) else c.

(** [f i], [f (i + 1)], ... for [n] indices, when every one is there. *)
Fixpoint read_all {A : Type} (f : Z -> option A) (n : nat) (i : Z) : option (list A) :=
  match n with
  | O => Some []
  | S n' =>
      x <- f i ;;
      xs <- read_all f n' (i + 1) ;;
      Some (x :: xs)
  end.

(** The byte string a view of the pool refers to. *)
Definition view_bytes (bin : LemmaIsBinary) (offsets lengths : ptr) (i : Z)
    : option (list byte) :=
  offset <- lemma_is_u32 (data bin) offsets i ;;
  len <- deref8 (data bin) (ptr_add lengths i) ;;
  deref_bytes (data bin) (ptr_add (stringPool bin) offset) (Z.to_nat len).

Definition stored_word (bin : LemmaIsBinary) (i : Z) : option (list byte) :=
  view_bytes bin (wordOffsets bin) (wordLengths bin) i.

Definition stored_bigram (bin : LemmaIsBinary) (i : Z)
    : option (list byte * list byte * Z) :=
  w1 <- view_bytes bin (bigramW1Offsets bin) (bigramW1Lengths bin) i ;;
  w2 <- view_bytes bin (bigramW2Offsets bin) (bigramW2Lengths bin) i ;;
  freq <- lemma_is_u32 (data bin) (bigramFreqs bin) i ;;
  Some (w1, w2, freq).

(** The word index and the bigram index of a dictionary, read in full. *)
Definition word_index (bin : LemmaIsBinary) : option (list (list byte)) :=
  read_all (stored_word bin) (Z.to_nat (wordCount bin)) 0.

Definition bigram_index (bin : LemmaIsBinary)
    : option (list (list byte * list byte * Z)) :=
  read_all (stored_bigram bin) (Z.to_nat (bigramCount bin)) 0.

(** An index is sorted when the comparator never puts a later entry before
    an earlier one. *)
Definition sorted_by {A : Type} (cmp : A -> A -> Z) (l : list A) : Prop :=
  forall i j a b, (i < j)%nat -> nth_error l i = Some a -> nth_error l j = Some b ->
                  cmp a b <= 0.

(** A test for [sorted_by]. *)
Fixpoint sortedb {A : Type} (cmp : A -> A -> Z) (l : list A) : bool :=
  match l with
  | [] => true
  | a :: l' => forallb (fun b => cmp a b <=? 0) l' && sortedb cmp l'
  end.

(** The dictionary of [sample_image]. *)
Definition sample_bin : LemmaIsBinary :=
  match loaded sample_image with
  | Some bin => bin
  | None => version2_bin
  end.

Definition sample_words : list (list byte) :=
  [lit "er"; lit "far"; lit "fer"; lit "hest"; lit "hestur"].

Definition sample_bigrams : list (list byte * list byte * Z) :=
  [ (lit "far", lit "vera", 2); (lit "hestur", lit "fara", 7);
    (lit "hestur", lit "vera", 3) ].

(** A table of C strings sorted the way [bsearch] with [strcmp] needs it,
    without repeated keys. *)
Definition strictly_sorted (keys : list (list byte)) : Prop :=
  forall i j a b, (i < j)%nat -> nth_error keys i = Some a -> nth_error keys j = Some b ->
                  strcmp a b < 0.

Fixpoint strictly_sortedb (keys : list (list byte)) : bool :=
  match keys with
  | [] => true
  | a :: keys' => forallb (fun b => strcmp a b <? 0) keys' && strictly_sortedb keys'
  end.

(** The integer values of the enumerators, in the order of the codes. *)
Definition pos_ordinal (p : IcelandicPos) : Z :=
  match p with
  | POS_NO => 0 | POS_SO => 1 | POS_LO => 2 | POS_AO => 3 | POS_FS => 4
  | POS_FN => 5 | POS_ST => 6 | POS_TO => 7 | POS_GR => 8 | POS_UH => 9
  end.

(** Two small stopword tables: [og] and [sem] are stopwords in every role,
    [vera] only as a verb (bit 1 of its mask). *)
Definition sample_stopwords : list (list byte) := [lit "og"; lit "sem"].

Definition sample_contextual : list (list byte * Z) := [(lit "fara", 0); (lit "vera", 2)].

(** ** The order of [double]

    The comparison [>] of IEEE 754 doubles is irreflexive and transitive,
    also in the presence of NaN (which compares false with everything) and of
    the two zeros; the disambiguator relies on nothing else. *)
Class DoubleOrder (D : DoubleOps) : Prop := {
  d_gt_irrefl : forall x : double, d_gt x x = false;
  d_gt_trans : forall x y z : double, d_gt x y = true -> d_gt y z = true -> d_gt x z = true
}.

(** The selection of the best score alone: the outer loop of the
    disambiguator once the scores are known. *)
Fixpoint select_loop {D : DoubleOps} (ss : list double) (i : nat) (st : ScoreState)
    : ScoreState :=
  match ss with
  | [] => st
  | s :: ss' => select_loop ss' (S i) (score_step st i s)
  end.

(** What the selection maintains: no score seen is above the best one; the
    best one is the initial zero with index 0, or it is above zero and sits
    at the best index, before which no score equals it. *)
Record selected {D : DoubleOps} (st : ScoreState) : Prop := mkSelected {
  sel_max : forall k s, nth_error (scores st) k = Some s -> d_gt s (best_score st) = false;
  sel_first :
    (best_score st = d_zero /\ best_idx st = 0%nat)
    \/ (nth_error (scores st) (best_idx st) = Some (best_score st)
        /\ d_gt (best_score st) d_zero = true
        /\ forall k s, (k < best_idx st)%nat -> nth_error (scores st) k = Some s ->
                       s <> best_score st)
}.

(** The state in which the outer loop starts. *)
Definition initial_state {D : DoubleOps} : ScoreState := mkScoreState [] d_zero 0%nat.

(** The real numbers as an idealised [double]. *)
Definition real_double : DoubleOps := {|
  double := R;
  d_zero := 0%R;
  d_half := (1 / 2)%R;
  d_one := 1%R;
  d_of_uint32 := IZR;
  d_add := Rplus;
  d_div := Rdiv;
  d_gt := fun x y => if Rgt_dec x y then true else false;
  d_log := ln;
  d_exp := exp
|}.

Definition cand_fara : LemmaCandidate := mkCandidate (lit "fara") POS_SO 0 0 0.
Definition cand_far : LemmaCandidate := mkCandidate (lit "far") POS_NO 2 2 0.
Definition cand_hestur : LemmaCandidate := mkCandidate (lit "hestur") POS_NO 1 1 0.

(** ** The tokenizer and the query as the specification describes them *)

(** The code points of a text from [offset] on, each with the number of
    bytes it takes, as [utf8_to_unicode] and [pg_mblen] give them. *)
Fixpoint code_points_from (input : list byte) (len fuel offset : nat) : list (Z * nat) :=
  match fuel with
  | O => []
  | S fuel' =>
      if (offset <? len)%nat then
        (utf8_to_unicode input offset, pg_mblen input offset)
        :: code_points_from input len fuel' (offset + pg_mblen input offset)
      else []
  end.

Definition code_points (input : list byte) : list (Z * nat) :=
  code_points_from input (length input) (length input) 0.

(** The code points from [off] to the end. *)
Definition rest_from (input : list byte) (off : nat) : list (Z * nat) :=
  code_points_from input (length input) (length input - off) off.

Definition next_is_alpha (alpha : Z -> bool) (cps : list (Z * nat)) : bool :=
  match cps with
  | (c, _) :: _ => alpha c
  | [] => false
  end.

(** One pass over the code points with one code point of lookahead.  Outside
    a token, a letter opens one and anything else is passed over.  Inside a
    token, a letter extends it, a joiner extends it when a letter follows,
    and anything else closes it.  The result is the start and the length in
    bytes of every token; [open] is the start of the token being read. *)
Fixpoint scan (alpha : Z -> bool) (cps : list (Z * nat)) (offset : nat)
    (open : option nat) : list (nat * nat) :=
  match cps with
  | [] =>
      match open with
      | Some start => [(start, offset - start)%nat]
      | None => []
      end
  | (c, n) :: rest =>
      match open with
      | None =>
          if alpha c then scan alpha rest (offset + n) (Some offset)
          else scan alpha rest (offset + n) None
      | Some start =>
          if alpha c then scan alpha rest (offset + n) (Some start)
          else if icelandic_is_word_joiner c && next_is_alpha alpha rest
          then scan alpha rest (offset + n) (Some start)
          else (start, offset - start)%nat :: scan alpha rest (offset + n) None
      end
  end.

Definition span_text (input : list byte) (span : nat * nat) : list byte :=
  pnstrdup_str (skipn (fst span) input) (snd span).

(** The letters among the code points below U+0100. *)
Definition latin1_alpha (c : Z) : bool :=
  ((0x41 <=? c) && (c <=? 0x5A)) || ((0x61 <=? c) && (c <=? 0x7A))
  || (c =? 0xAA) || (c =? 0xB5) || (c =? 0xBA)
  || ((0xC0 <=? c) && (c <=? 0xD6)) || ((0xD8 <=? c) && (c <=? 0xF6))
  || ((0xF8 <=? c) && (c <=? 0xFF)).

(** [parts] with [sep] between them. *)
Definition join (sep : list byte) (parts : list (list byte)) : list byte :=
  match parts with
  | [] => []
  | p :: rest => p ++ concat (map (fun x => sep ++ x) rest)
  end.

(** One conjunct of the query: a single lemma bare, several in parentheses
    with [" | "] between them. *)
Definition conjunct (lemmas : list (list byte)) : list byte :=
  match lemmas with
  | [l] => l
  | _ => lit "(" ++ join (lit " | ") lemmas ++ lit ")"
  end.

Definition nonempty {A : Type} (l : list A) : bool :=
  match l with [] => false | _ :: _ => true end.

(** The query: the conjuncts of the tokens that have lemmas, in token order,
    with [" & "] between them. *)
Definition query_text (groups : list (list (list byte))) : list byte :=
  join (lit " & ") (map conjunct (filter nonempty groups)).

(** ** The entries of a word as the format describes them *)

(** The candidate the entry at index [k] of the entry table stands for. *)
Definition entry_candidate (bin : LemmaIsBinary) (k : Z) : option LemmaCandidate :=
  packed <- lemma_is_u32 (data bin) (entries bin) k ;;
  let entry := lemma_is_unpack_entry bin packed in
  l <- lemma_is_get_lemma bin (lemmaIdx entry) ;;
  Some (mkCandidate l (lemma_is_pos_from_code (posCode entry))
                    (caseCode entry) (genderCode entry) (numberCode entry)).

(** The lemma id of the entry at index [k]. *)
Definition entry_lemma_id (bin : LemmaIsBinary) (k : Z) : option Z :=
  option_map (fun packed => lemmaIdx (lemma_is_unpack_entry bin packed))
             (lemma_is_u32 (data bin) (entries bin) k).

(** Two candidates are the same reading of a word when they have the same
    lemma and the same tag; the morphology does not count. *)
Definition same_reading (a b : LemmaCandidate) : Prop :=
  lemma a = lemma b /\ pos a = pos b.

(** Keeping a candidate unless its reading has been seen. *)
Definition keep_candidate (kept : list LemmaCandidate) (c : LemmaCandidate)
    : list LemmaCandidate :=
  if candidate_seen kept (pos c) (lemma c) then kept else kept ++ [c].

Definition keep_id (kept : list Z) (id : Z) : list Z :=
  if existsb (fun x => x =? id) kept then kept else kept ++ [id].

(** No two elements of a list are related. *)
Definition pairwise_unrelated {A : Type} (R : A -> A -> Prop) (l : list A) : Prop :=
  forall i j a b, (i < j)%nat -> nth_error l i = Some a -> nth_error l j = Some b ->
                  ~ R a b.

(** ** Token spans *)

(** The code point that ends at [stop], and starts at [start] or after it,
    is a letter. *)
Definition letter_before (alpha : Z -> bool) (input : list byte) (start stop : nat)
    : Prop :=
  exists o, (start <= o)%nat /\ (o + pg_mblen input o = stop)%nat
            /\ alpha (utf8_to_unicode input o) = true.

(** Spans of a text in order, each of at least one byte, starting at a
    letter inside the text and ending after a letter, none before [from] and
    none overlapping the one before it. *)
Fixpoint spans_from (alpha : Z -> bool) (input : list byte) (from : nat)
    (spans : list (nat * nat)) : Prop :=
  match spans with
  | [] => True
  | (start, n) :: rest =>
      (from <= start)%nat /\ (1 <= n)%nat /\ (start < length input)%nat
      /\ alpha (utf8_to_unicode input start) = true
      /\ letter_before alpha input start (start + n)
      /\ spans_from alpha input (start + n) rest
  end.

(** ** A dictionary without bigrams *)

(** The tables of [sample_image] without the bigram tables. *)
Definition plain_image : list byte :=
  build_image 2 sample_pool
    [(0, 4); (0, 3); (7, 6); (13, 4)]
    [(5, 2); (0, 3); (4, 3); (7, 4); (7, 6)]
    [0; 1; 3; 6; 7; 8]
    [ pack2 3 0 0 0 1;
      pack2 1 0 2 1 0; pack2 0 0 0 0 1;
      pack2 0 0 0 0 1; pack2 0 1 0 0 1; pack2 1 0 2 2 0;
      pack2 2 0 1 2 0;
      pack2 2 0 1 1 0 ]
    [].

Definition plain_bin : LemmaIsBinary :=
  match loaded plain_image with
  | Some bin => bin
  | None => version2_bin
  end.

(** ** The bigram views *)

(** The part of the precondition on the stored values that concerns the
    bigram tables: the two words of every bigram lie in the string pool. *)
Record bigrams_in_bounds (bin : LemmaIsBinary) : Prop := mkBigramsInBounds {
  bb_first : forall i off len, 0 <= i < bigramCount bin ->
    lemma_is_u32 (data bin) (bigramW1Offsets bin) i = Some off ->
    deref8 (data bin) (ptr_add (bigramW1Lengths bin) i) = Some len ->
    off + len <= stringPoolSize bin;
  bb_second : forall i off len, 0 <= i < bigramCount bin ->
    lemma_is_u32 (data bin) (bigramW2Offsets bin) i = Some off ->
    deref8 (data bin) (ptr_add (bigramW2Lengths bin) i) = Some len ->
    off + len <= stringPoolSize bin
}.

(** ** The same dictionary over another buffer *)

(** The dictionary [bin] with the buffer [d] in place of its own: the
    header values and the table pointers stay. *)
Definition with_data (bin : LemmaIsBinary) (d : list byte) : LemmaIsBinary :=
  mkBinary d (Z.of_nat (length d)) (version bin) (stringPoolSize bin) (lemmaCount bin)
           (wordCount bin) (entryCount bin) (bigramCount bin)
           (stringPool bin) (lemmaOffsets bin) (lemmaLengths bin)
           (wordOffsets bin) (wordLengths bin) (entryOffsets bin) (entries bin)
           (bigramW1Offsets bin) (bigramW1Lengths bin) (bigramW2Offsets bin)
           (bigramW2Lengths bin) (bigramFreqs bin).

(** * Properties *)

(** ** Reads *)

Lemma byte_val_range (b : byte) : 0 <= byte_val b < 256.
Proof.
  unfold byte_val. pose proof (Byte.to_N_bounded b). lia.
Qed.

Lemma load_byte_Some (d : list byte) (off : Z) :
  0 <= off < Z.of_nat (length d) -> exists b, load_byte d off = Some b.
Proof.
  intros H. unfold load_byte.
  destruct (off <? 0) eqn:E; [lia|].
  destruct (nth_error d (Z.to_nat off)) eqn:N; [eauto|].
  apply nth_error_None in N. lia.
Qed.

Lemma load_byte_bounds (d : list byte) (off : Z) (b : byte) :
  load_byte d off = Some b -> 0 <= off < Z.of_nat (length d).
Proof.
  unfold load_byte. destruct (off <? 0) eqn:E; [discriminate|].
  intros N. assert (nth_error d (Z.to_nat off) <> None) as Hn by congruence.
  apply nth_error_Some in Hn. lia.
Qed.

Lemma load8_Some (d : list byte) (off : Z) :
  0 <= off < Z.of_nat (length d) -> exists v, load8 d off = Some v /\ 0 <= v < 256.
Proof.
  intros H. destruct (load_byte_Some d off H) as [b Hb].
  exists (byte_val b). unfold load8. rewrite Hb. split; [reflexivity|apply byte_val_range].
Qed.

Lemma load8_bounds (d : list byte) (off v : Z) :
  load8 d off = Some v -> 0 <= off < Z.of_nat (length d) /\ 0 <= v < 256.
Proof.
  unfold load8. destruct (load_byte d off) eqn:E; [|discriminate].
  intros [= <-]. split; [eapply load_byte_bounds; eauto|apply byte_val_range].
Qed.

Lemma load32_Some (d : list byte) (off : Z) :
  0 <= off -> off + 4 <= Z.of_nat (length d) ->
  exists v, load32 d off = Some v /\ 0 <= v < 2 ^ 32.
Proof.
  intros H0 H4. unfold load32.
  destruct (load8_Some d off) as (b0 & -> & R0); [lia|].
  destruct (load8_Some d (off + 1)) as (b1 & -> & R1); [lia|].
  destruct (load8_Some d (off + 2)) as (b2 & -> & R2); [lia|].
  destruct (load8_Some d (off + 3)) as (b3 & -> & R3); [lia|].
  cbn [bind]. eexists. split; [reflexivity|]. unfold le_value. lia.
Qed.

Lemma load32_bounds (d : list byte) (off v : Z) :
  load32 d off = Some v ->
  0 <= off /\ off + 4 <= Z.of_nat (length d) /\ 0 <= v < 2 ^ 32.
Proof.
  unfold load32.
  destruct (load8 d off) as [b0|] eqn:E0; [|discriminate].
  destruct (load8 d (off + 1)) as [b1|] eqn:E1; [|discriminate].
  destruct (load8 d (off + 2)) as [b2|] eqn:E2; [|discriminate].
  destruct (load8 d (off + 3)) as [b3|] eqn:E3; [|discriminate].
  cbn [bind]. intros [= <-].
  apply load8_bounds in E0. apply load8_bounds in E1.
  apply load8_bounds in E2. apply load8_bounds in E3. unfold le_value. lia.
Qed.

Lemma load32_None (d : list byte) (off : Z) :
  0 <= off -> Z.of_nat (length d) < off + 4 -> load32 d off = None.
Proof.
  intros H0 H4. destruct (load32 d off) eqn:E; [|reflexivity].
  apply load32_bounds in E. lia.
Qed.

(** ** Machine arithmetic *)

Lemma SizeT_small (z : Z) : 0 <= z < 2 ^ 64 -> SizeT z = z.
Proof. intros H. unfold SizeT. apply Z.mod_small. exact H. Qed.

Lemma u32_small (z : Z) : 0 <= z < 2 ^ 32 -> u32 z = z.
Proof. intros H. unfold u32. apply Z.mod_small. exact H. Qed.

Lemma land_clear_low2 (y : Z) : 0 <= y < 2 ^ 64 -> Z.land y (2 ^ 64 - 4) = 4 * (y / 4).
Proof.
  intros Hy.
  replace (2 ^ 64 - 4) with (Z.shiftl (Z.ones 62) 2) by reflexivity.
  replace (4 * (y / 4)) with (Z.shiftl (Z.shiftr y 2) 2)
    by (rewrite Z.shiftl_mul_pow2, Z.shiftr_div_pow2 by lia; change (2 ^ 2) with 4; lia).
  apply Z.bits_inj'. intros n Hn.
  rewrite Z.land_spec.
  destruct (Z.ltb_spec n 2) as [Hlt|Hge].
  - rewrite !Z.shiftl_spec_low by lia. apply andb_false_r.
  - rewrite !Z.shiftl_spec by lia. rewrite Z.shiftr_spec by lia.
    replace (n - 2 + 2) with n by lia.
    destruct (Z.ltb_spec n 64) as [Hlt|Hhi].
    + rewrite Z.ones_spec_low by lia. apply andb_true_r.
    + rewrite Z.ones_spec_high by lia. rewrite andb_false_r. symmetry.
      destruct (Z.eq_dec y 0) as [->|Hnz]; [apply Z.bits_0|].
      apply Z.bits_above_log2; [lia|].
      assert (Z.log2 y < 64) by (apply Z.log2_lt_pow2; lia). lia.
Qed.

Lemma align4_pad4 (x : Z) : 0 <= x < 2 ^ 63 -> align4 x = pad4 x.
Proof.
  intros H. unfold align4, pad4.
  rewrite SizeT_small by lia. apply land_clear_low2. lia.
Qed.

Lemma pad4_bounds (x : Z) : x <= pad4 x < x + 4.
Proof. unfold pad4. Z.div_mod_to_equations. lia. Qed.

(** ** The loader *)

Lemma read_header_Some (d : list byte) :
  28 <= Z.of_nat (length d) ->
  exists h, read_header d = Some h
    /\ 0 <= h_magic h < 2 ^ 32 /\ 0 <= h_version h < 2 ^ 32
    /\ 0 <= h_stringPoolSize h < 2 ^ 32 /\ 0 <= h_lemmaCount h < 2 ^ 32
    /\ 0 <= h_wordCount h < 2 ^ 32 /\ 0 <= h_entryCount h < 2 ^ 32
    /\ 0 <= h_bigramCount h < 2 ^ 32.
Proof.
  intros H. unfold read_header.
  destruct (load32_Some d 0) as (m & -> & ?); [lia|lia|].
  destruct (load32_Some d 4) as (v & -> & ?); [lia|lia|].
  destruct (load32_Some d 8) as (s & -> & ?); [lia|lia|].
  destruct (load32_Some d 12) as (l & -> & ?); [lia|lia|].
  destruct (load32_Some d 16) as (w & -> & ?); [lia|lia|].
  destruct (load32_Some d 20) as (e & -> & ?); [lia|lia|].
  destruct (load32_Some d 24) as (b & -> & ?); [lia|lia|].
  cbn [bind]. eexists. split; [reflexivity|]. cbn. repeat split; lia.
Qed.

(** With the header read, the loader is its two tests followed by the layout
    of the regions. *)
Lemma load_binary_with_header (d : list byte) (h : Header) :
  0 < Z.of_nat (length d) ->
  read_header d = Some h ->
  lemma_is_load_binary d =
    if negb (h_magic h =? MAGIC) then Raised BadMagic
    else if negb (h_version h =? 1) && negb (h_version h =? 2)
         then Raised (UnsupportedVersion (h_version h))
         else lemma_is_load_regions d (Z.of_nat (length d)) (h_version h)
                (h_stringPoolSize h) (h_lemmaCount h) (h_wordCount h)
                (h_entryCount h) (h_bigramCount h).
Proof.
  intros Hlen Hh. unfold read_header in Hh. unfold lemma_is_load_binary, header32.
  destruct (Z.of_nat (length d) <=? 0) eqn:E; [lia|].
  destruct (load32 d 0) as [m|]; [|discriminate].
  destruct (load32 d 4) as [v|]; [|discriminate].
  destruct (load32 d 8) as [s|]; [|discriminate].
  destruct (load32 d 12) as [l|]; [|discriminate].
  destruct (load32 d 16) as [w|]; [|discriminate].
  destruct (load32 d 20) as [e|]; [|discriminate].
  destruct (load32 d 24) as [b|]; [|discriminate].
  cbn [bind] in Hh. injection Hh as <-. cbn.
  destruct (m =? MAGIC); cbn; [|reflexivity].
  destruct (negb (v =? 1) && negb (v =? 2)); reflexivity.
Qed.

(** The regions a header declares end one after the other, so that one of
    them passes the end of the buffer exactly when one of the three tests of
    the loader says so. *)
Lemma declared_regions_past_end (h : Header) (size : Z) :
  0 <= h_stringPoolSize h -> 0 <= h_lemmaCount h -> 0 <= h_wordCount h ->
  0 <= h_entryCount h -> 0 <= h_bigramCount h ->
  let lemLen := 32 + h_stringPoolSize h + 4 * h_lemmaCount h in
  let wordLen := pad4 (lemLen + h_lemmaCount h) + 4 * h_wordCount h in
  let ents := pad4 (wordLen + h_wordCount h) + 4 * (h_wordCount h + 1) in
  let b1Len := pad4 (ents + 4 * h_entryCount h) + 4 * h_bigramCount h in
  let b2Len := pad4 (b1Len + h_bigramCount h) + 4 * h_bigramCount h in
  let freqs := pad4 (b2Len + h_bigramCount h) in
  Exists (past_end size) (declared_regions h) <->
  (size < 32 + h_stringPoolSize h
   \/ size < ents + 4 * h_entryCount h
   \/ (0 < h_bigramCount h /\ size < freqs + 4 * h_bigramCount h)).
Proof.
  intros Hs Hl Hw He Hb. cbv zeta. unfold declared_regions. cbv zeta.
  repeat match goal with
         | |- context [pad4 ?z] =>
             lazymatch z with
             | context [pad4 _] => fail
             | _ => let P := fresh "P" in
                    pose proof (pad4_bounds z); set (P := pad4 z) in *
             end
         end.
  rewrite Exists_app. rewrite !Exists_cons, Exists_nil. unfold past_end. cbn [snd].
  destruct (h_bigramCount h >? 0) eqn:E.
  - rewrite !Exists_cons, Exists_nil. cbn [snd]. lia.
  - rewrite Exists_nil. lia.
Qed.

Ltac unwrap_offsets :=
  repeat match goal with
         | |- context [SizeT ?z] => rewrite (SizeT_small z) by lia
         | |- context [u32 ?z] => rewrite (u32_small z) by lia
         | |- context [align4 ?z] =>
             pose proof (pad4_bounds z); rewrite (align4_pad4 z) by lia
         end.

Ltac layout_lia := unfold pad4 in *; Z.div_mod_to_equations; lia.

Lemma load_regions_spec (d : list byte) (v sps lc wc ec bc : Z) :
  let sz := Z.of_nat (length d) in
  let h := mkHeader MAGIC v sps lc wc ec bc in
  sz < 2 ^ 32 -> v = 1 \/ v = 2 ->
  0 <= sps < 2 ^ 32 -> 0 <= lc < 2 ^ 32 -> 0 <= wc < 2 ^ 32 ->
  0 <= ec < 2 ^ 32 -> 0 <= bc < 2 ^ 32 ->
  match lemma_is_load_regions d sz v sps lc wc ec bc with
  | Loaded bin =>
      Forall (fun r => snd r <= sz) (declared_regions h)
      /\ laid_out bin /\ data bin = d
  | Raised e =>
      classify e = CorruptionError /\ Exists (past_end sz) (declared_regions h)
  | OutOfBoundsRead _ => False
  end.
Proof.
  intros sz h Hsize Hv Hs Hl Hw He Hb.
  assert (Hcorrupt : forall e, classify e = CorruptionError ->
            (sz < 32 + sps
             \/ sz < pad4 (pad4 (32 + sps + 4 * lc + lc) + 4 * wc + wc)
                       + 4 * (wc + 1) + 4 * ec
             \/ (0 < bc /\ sz <
                   pad4 (pad4 (pad4 (pad4 (pad4 (32 + sps + 4 * lc + lc) + 4 * wc + wc)
                     + 4 * (wc + 1) + 4 * ec) + 4 * bc + bc) + 4 * bc + bc) + 4 * bc)) ->
            classify e = CorruptionError /\ Exists (past_end sz) (declared_regions h)).
  { intros e Hc Hpast. split; [exact Hc|].
    apply declared_regions_past_end; subst h; cbn [h_stringPoolSize h_lemmaCount h_wordCount h_entryCount h_bigramCount]; lia. }
  assert (Hinside : ~ (sz < 32 + sps
             \/ sz < pad4 (pad4 (32 + sps + 4 * lc + lc) + 4 * wc + wc)
                       + 4 * (wc + 1) + 4 * ec
             \/ (0 < bc /\ sz <
                   pad4 (pad4 (pad4 (pad4 (pad4 (32 + sps + 4 * lc + lc) + 4 * wc + wc)
                     + 4 * (wc + 1) + 4 * ec) + 4 * bc + bc) + 4 * bc + bc) + 4 * bc)) ->
            Forall (fun r => snd r <= sz) (declared_regions h)).
  { intros Hn. apply Forall_forall. intros r Hr.
    destruct (Z.le_gt_cases (snd r) sz) as [Hle|Hgt]; [exact Hle|].
    exfalso. apply Hn.
    assert (Exists (past_end sz) (declared_regions h)) as Hex
      by (apply Exists_exists; exists r; split; [exact Hr|exact Hgt]).
    apply declared_regions_past_end in Hex; subst h; cbn [h_stringPoolSize h_lemmaCount h_wordCount h_entryCount h_bigramCount] in *; lia. }
  clearbody h. revert Hcorrupt Hinside.
  pose proof (Zle_0_nat (length d)) as Hsz0. fold sz in Hsz0.
  assert (Hszeq : sz = Z.of_nat (length d)) by reflexivity.
  clearbody sz.
  destruct (Z.eq_dec wc (2 ^ 32 - 1)) as [Hwc|Hwc].
  - (* 2^32 - 1 words cannot fit: the word table alone is too large *)
    intros Hcorrupt _. unfold lemma_is_load_regions. cbv zeta.
    destruct (SizeT (32 + sps) >? sz) eqn:E1.
    + apply Hcorrupt; [reflexivity|]. rewrite SizeT_small in E1 by lia. lia.
    + replace (u32 (wc + 1)) with 0 by (subst wc; reflexivity).
      unwrap_offsets.
      match goal with |- context [if ?c then _ else _] => destruct c eqn:E2 end.
      * apply Hcorrupt; [reflexivity|]. right. left. layout_lia.
      * exfalso. layout_lia.
  - intros Hcorrupt Hinside. unfold lemma_is_load_regions. cbv zeta.
    unwrap_offsets.
    destruct (32 + sps >? sz) eqn:E1.
    { apply Hcorrupt; [reflexivity|]. lia. }
    match goal with |- context [if ?c then _ else _] => destruct c eqn:E2 end.
    { apply Hcorrupt; [reflexivity|]. right. left. layout_lia. }
    destruct (bc >? 0) eqn:E3.
    + match goal with |- context [if ?c then _ else _] => destruct c eqn:E4 end.
      { apply Hcorrupt; [reflexivity|]. right. right. split; [lia|]. layout_lia. }
      split; [apply Hinside; layout_lia|]. split; [|reflexivity].
      constructor; cbn [data size version stringPoolSize lemmaCount wordCount
                        entryCount bigramCount stringPool lemmaOffsets lemmaLengths
                        wordOffsets wordLengths entryOffsets entries bigramW1Offsets
                        bigramW1Lengths bigramW2Offsets bigramW2Lengths bigramFreqs];
        unfold region_inside; try lia;
        try (eexists; split; [reflexivity|]; lia).
      intros _. repeat split; eexists; (split; [reflexivity|]); lia.
    + split; [apply Hinside; layout_lia|]. split; [|reflexivity].
      constructor; cbn [data size version stringPoolSize lemmaCount wordCount
                        entryCount bigramCount stringPool lemmaOffsets lemmaLengths
                        wordOffsets wordLengths entryOffsets entries bigramW1Offsets
                        bigramW1Lengths bigramW2Offsets bigramW2Lengths bigramFreqs];
        unfold region_inside; try lia;
        try (eexists; split; [reflexivity|]; lia).
Qed.

(** The layout code itself reads nothing: once the header is in, the loader
    returns or raises. *)
Lemma load_regions_reads_nothing (d : list byte) (sz v sps lc wc ec bc off : Z) :
  lemma_is_load_regions d sz v sps lc wc ec bc <> OutOfBoundsRead off.
Proof.
  unfold lemma_is_load_regions. cbv zeta.
  repeat match goal with
         | |- context [if ?c then _ else _] => destruct c
         end; discriminate.
Qed.

(** A buffer that holds the 28 bytes of the header fields is read in
    bounds. *)
Lemma load_binary_in_bounds (d : list byte) (off : Z) :
  28 <= Z.of_nat (length d) -> lemma_is_load_binary d <> OutOfBoundsRead off.
Proof.
  intros H. destruct (read_header_Some d H) as (h & Hh & _).
  rewrite (load_binary_with_header d h) by (lia || exact Hh).
  destruct (negb (h_magic h =? MAGIC)); [discriminate|].
  destruct (negb (h_version h =? 1) && negb (h_version h =? 2)); [discriminate|].
  apply load_regions_reads_nothing.
Qed.

(** What the loader returns from a buffer of less than 4 GiB has its
    regions inside the buffer. *)
Lemma load_binary_laid_out (d : list byte) (bin : LemmaIsBinary) :
  Z.of_nat (length d) < 2 ^ 32 ->
  lemma_is_load_binary d = Loaded bin ->
  laid_out bin /\ data bin = d /\ size bin = Z.of_nat (length d).
Proof.
  intros Hsize Hload.
  destruct (Z.lt_ge_cases (Z.of_nat (length d)) 28) as [Hshort|Hlong].
  - exfalso. revert Hload. unfold lemma_is_load_binary, header32.
    destruct (Z.of_nat (length d) <=? 0); [discriminate|].
    repeat match goal with
           | |- context [load32 d ?o] =>
               let E := fresh "E" in
               destruct (load32 d o) eqn:E; [apply load32_bounds in E|discriminate]
           | |- context [if ?c then Raised _ else _] => destruct c; [discriminate|]
           end.
    lia.
  - destruct (read_header_Some d) as (h & Hh & Hm & Hv & Hs & Hl & Hw & He & Hb); [lia|].
    rewrite (load_binary_with_header d h) in Hload by (lia || exact Hh).
    destruct (negb (h_magic h =? MAGIC)); [discriminate|].
    destruct (Z.eqb_spec (h_version h) 1) as [E1|E1];
      [|destruct (Z.eqb_spec (h_version h) 2) as [E2|E2]]; cbn [negb andb] in Hload;
      try discriminate.
    all: pose proof (load_regions_spec d (h_version h) (h_stringPoolSize h)
                       (h_lemmaCount h) (h_wordCount h) (h_entryCount h)
                       (h_bigramCount h)) as Hspec;
         cbv zeta in Hspec;
         specialize (Hspec ltac:(lia) ltac:(lia) Hs Hl Hw He Hb);
         rewrite Hload in Hspec; destruct Hspec as (_ & Hlo & Hd);
         split; [exact Hlo|]; split; [exact Hd|];
         rewrite (lo_size _ Hlo), Hd; reflexivity.
Qed.

(** A file of one to three bytes: the magic is read past its end. *)
Lemma load_binary_magic_unchecked (d : list byte) :
  0 < Z.of_nat (length d) < 4 -> lemma_is_load_binary d = OutOfBoundsRead 0.
Proof.
  intros H. unfold lemma_is_load_binary, header32.
  destruct (Z.of_nat (length d) <=? 0) eqn:E; [lia|].
  rewrite load32_None by lia. reflexivity.
Qed.

(** A file of 8 to 27 bytes with the right magic and a supported version:
    one of the five counts is read past its end. *)
Lemma load_binary_counts_unchecked (d : list byte) :
  8 <= Z.of_nat (length d) < 28 ->
  load32 d 0 = Some MAGIC -> load32 d 4 = Some 1 \/ load32 d 4 = Some 2 ->
  exists off, 8 <= off <= 24 /\ Z.of_nat (length d) < off + 4
              /\ lemma_is_load_binary d = OutOfBoundsRead off.
Proof.
  intros Hlen Hmagic Hversion. unfold lemma_is_load_binary, header32.
  destruct (Z.of_nat (length d) <=? 0) eqn:E; [lia|].
  rewrite Hmagic, Z.eqb_refl. cbn [negb].
  assert (exists v, load32 d 4 = Some v
                    /\ negb (v =? 1) && negb (v =? 2) = false) as (v & -> & ->).
  { destruct Hversion as [H|H]; rewrite H; eexists; split; reflexivity. }
  destruct (load32 d 8) eqn:E8;
    [apply load32_bounds in E8|exists 8; repeat split; try lia;
                               destruct (Z.lt_ge_cases (Z.of_nat (length d)) 12); [lia|];
                               destruct (load32_Some d 8) as (? & ? & _); [lia|lia|congruence]].
  destruct (load32 d 12) eqn:E12;
    [apply load32_bounds in E12|exists 12; repeat split; try lia;
                                destruct (Z.lt_ge_cases (Z.of_nat (length d)) 16); [lia|];
                                destruct (load32_Some d 12) as (? & ? & _); [lia|lia|congruence]].
  destruct (load32 d 16) eqn:E16;
    [apply load32_bounds in E16|exists 16; repeat split; try lia;
                                destruct (Z.lt_ge_cases (Z.of_nat (length d)) 20); [lia|];
                                destruct (load32_Some d 16) as (? & ? & _); [lia|lia|congruence]].
  destruct (load32 d 20) eqn:E20;
    [apply load32_bounds in E20|exists 20; repeat split; try lia;
                                destruct (Z.lt_ge_cases (Z.of_nat (length d)) 24); [lia|];
                                destruct (load32_Some d 20) as (? & ? & _); [lia|lia|congruence]].
  destruct (load32 d 24) eqn:E24; [apply load32_bounds in E24; lia|].
  exists 24. repeat split; lia.
Qed.

(** C1: the loader does not check the buffer against the size of the header
    before it reads the header fields: on the eight-byte file that holds the
    magic and version 1 and nothing else, it passes both tests and then
    reads [stringPoolSize] at offsets 8 to 11, outside the buffer, where the
    claim wants an error or reads in bounds only. *)
Theorem load_truncated_header_out_of_bounds :
  length truncated_header = 8%nat
  /\ lemma_is_load_binary truncated_header = OutOfBoundsRead 8.
Proof. split; reflexivity. Qed.

(** C2, as stated, fails on [zero_header]: its version field is neither 1 nor
    2 and the entry ranges it declares end at offset 36, past the end of
    its 32 bytes, and the loader raises the format error, neither the
    version error nor a corruption error. *)
Lemma load_version_error_not_exact :
  read_header zero_header = Some (mkHeader 0 0 0 0 0 0 0)
  /\ Exists (past_end (Z.of_nat (length zero_header)))
            (declared_regions (mkHeader 0 0 0 0 0 0 0))
  /\ load_error zero_header = Some FormatError
  /\ load_error zero_header <> Some UnsupportedVersionError
  /\ load_error zero_header <> Some CorruptionError.
Proof.
  split; [reflexivity|]. split.
  - apply Exists_exists. exists (32, 36). split; [|vm_compute; reflexivity].
    vm_compute. do 5 right. left. reflexivity.
  - repeat split; try reflexivity; discriminate.
Qed.

(** C2, amended: on a buffer that holds the header fields (28 bytes or
    more, and less than 4 GiB) the three tests are made in this order.  The
    loader raises the format error exactly when the magic is wrong; the
    version error exactly when the magic is right and the version is neither
    1 nor 2; a corruption error exactly when magic and version are right and
    a declared region passes the end of the buffer.  Otherwise, and only
    then, it returns a dictionary, whose regions all lie inside the buffer;
    an error never comes with a dictionary. *)
Theorem load_binary_error_classes (d : list byte) :
  28 <= Z.of_nat (length d) < 2 ^ 32 ->
  exists h, read_header d = Some h
    /\ (load_error d = Some FormatError <-> h_magic h <> MAGIC)
    /\ (load_error d = Some UnsupportedVersionError <->
        h_magic h = MAGIC /\ h_version h <> 1 /\ h_version h <> 2)
    /\ (load_error d = Some CorruptionError <->
        h_magic h = MAGIC /\ (h_version h = 1 \/ h_version h = 2)
        /\ Exists (past_end (Z.of_nat (length d))) (declared_regions h))
    /\ ((exists bin, lemma_is_load_binary d = Loaded bin) <-> load_error d = None)
    /\ (forall bin, lemma_is_load_binary d = Loaded bin -> laid_out bin /\ data bin = d).
Proof.
  intros Hlen.
  destruct (read_header_Some d) as (h & Hh & Hm & Hv & Hs & Hl & Hw & He & Hb); [lia|].
  exists h. split; [exact Hh|].
  unfold load_error. rewrite (load_binary_with_header d h) by (lia || exact Hh).
  destruct (Z.eqb_spec (h_magic h) MAGIC) as [Emagic|Emagic]; cbn [negb].
  2:{ repeat split; cbn [classify]; try congruence; try tauto; try discriminate;
        try (intros [bin Hbin]; discriminate). }
  destruct (Z.eqb_spec (h_version h) 1) as [E1|E1];
    [|destruct (Z.eqb_spec (h_version h) 2) as [E2|E2]]; cbn [negb andb].
  3:{ repeat split; cbn [classify]; try congruence; try tauto; try discriminate;
        try (intros [bin Hbin]; discriminate). }
  all: pose proof (load_regions_spec d (h_version h) (h_stringPoolSize h)
                     (h_lemmaCount h) (h_wordCount h) (h_entryCount h)
                     (h_bigramCount h)) as Hspec;
       cbv zeta in Hspec;
       specialize (Hspec ltac:(lia) ltac:(lia) Hs Hl Hw He Hb);
       replace (mkHeader MAGIC (h_version h) (h_stringPoolSize h) (h_lemmaCount h)
                  (h_wordCount h) (h_entryCount h) (h_bigramCount h)) with h in Hspec
         by (destruct h; cbn in *; congruence);
       destruct (lemma_is_load_regions d (Z.of_nat (length d)) (h_version h)
                   (h_stringPoolSize h) (h_lemmaCount h) (h_wordCount h)
                   (h_entryCount h) (h_bigramCount h)) as [bin|e|o];
       [ destruct Hspec as (Hall & Hlo & Hd)
       | destruct Hspec as (Hc & Hex)
       | contradiction ].
  all: refine (conj _ (conj _ (conj _ (conj _ _)))).
  all: try (intros bin' [= <-]; split; assumption).
  all: try (intros bin' Hbin; discriminate Hbin).
  all: split; try congruence; try tauto; try discriminate; eauto.
  all: try (rewrite Hc; discriminate).
  all: try (intros (_ & _ & Hex); exfalso;
            apply Exists_exists in Hex; destruct Hex as (r & Hr & Hp);
            rewrite Forall_forall in Hall; specialize (Hall r Hr);
            unfold past_end in Hp; lia).
  all: try (intros [bin' Hbin]; discriminate).
  all: try (rewrite Hc; intros _; repeat split; auto).
Qed.

Lemma load_binary_error_classes_witness :
  28 <= Z.of_nat (length sample_image) < 2 ^ 32
  /\ load_error sample_image = None
  /\ exists bin, lemma_is_load_binary sample_image = Loaded bin /\ laid_out bin.
Proof.
  assert (H : 28 <= Z.of_nat (length sample_image) < 2 ^ 32) by (vm_compute; split; [discriminate|reflexivity]).
  split; [exact H|]. split; [reflexivity|].
  destruct (load_binary_error_classes sample_image H) as (h & _ & _ & _ & _ & Hiff & Hlo).
  destruct (proj2 Hiff eq_refl) as [bin Hbin].
  exists bin. split; [exact Hbin|]. exact (proj1 (Hlo bin Hbin)).
Defined.

(** ** The entry codec *)

Lemma u8_small (z : Z) : 0 <= z < 2 ^ 8 -> u8 z = z.
Proof. intros H. unfold u8. apply Z.mod_small. exact H. Qed.

Lemma field_value (x : Z) (shift width : Z) :
  0 <= shift -> 0 <= width <= 8 ->
  u8 (Z.land (Z.shiftr x shift) (Z.ones width)) = Z.land (Z.shiftr x shift) (Z.ones width)
  /\ Z.land (Z.shiftr x shift) (Z.ones width) = (x / 2 ^ shift) mod 2 ^ width.
Proof.
  intros Hs Hw.
  rewrite Z.land_ones by lia. rewrite Z.shiftr_div_pow2 by lia.
  split; [|reflexivity].
  apply u8_small.
  assert (0 < 2 ^ width) by (apply Z.pow_pos_nonneg; lia).
  assert (2 ^ width <= 2 ^ 8) by (apply Z.pow_le_mono_r; lia).
  pose proof (Z.mod_pos_bound (x / 2 ^ shift) (2 ^ width)). lia.
Qed.

Lemma pos_from_code_table (code : Z) :
  0 <= code <= 9 ->
  nth_error pos_table (Z.to_nat code) = Some (lemma_is_pos_from_code code).
Proof.
  intros H.
  assert (code = 0 \/ code = 1 \/ code = 2 \/ code = 3 \/ code = 4 \/ code = 5
          \/ code = 6 \/ code = 7 \/ code = 8 \/ code = 9) as Hc by lia.
  repeat (destruct Hc as [->|Hc]; [reflexivity|]). subst. reflexivity.
Qed.

Lemma pos_from_code_default (code : Z) :
  ~ 0 <= code <= 9 -> lemma_is_pos_from_code code = POS_NO.
Proof.
  intros H. destruct code as [|p|p]; [lia| |reflexivity].
  do 4 (destruct p as [p|p|]; try reflexivity; try lia).
Qed.

(** C6: the decoder is total and follows the layout of the version.  Under
    version 1 the lemma id is [packed >> 4], the code [packed & 0xF], and
    case, gender and number are zero; under version 2 the lemma id is
    [packed >> 10] and the code, case, gender and number are the bit fields
    at 0, 4, 7 and 9, of widths 4, 3, 2 and 1, which together with the lemma
    id give [packed] back; the codes 0 to 9 go through the table of the ten
    tags and every other code gives the noun tag. *)
Theorem unpack_entry_layout (bin : LemmaIsBinary) (packed : Z) :
  0 <= packed < 2 ^ 32 ->
  let e := lemma_is_unpack_entry bin packed in
  (version bin = 1 ->
     lemmaIdx e = Z.shiftr packed 4 /\ posCode e = Z.land packed 0xF
     /\ caseCode e = 0 /\ genderCode e = 0 /\ numberCode e = 0
     /\ packed = lemmaIdx e * 2 ^ 4 + posCode e)
  /\ (version bin = 2 ->
     lemmaIdx e = Z.shiftr packed 10 /\ posCode e = Z.land packed 0xF
     /\ caseCode e = Z.land (Z.shiftr packed 4) 0x7
     /\ genderCode e = Z.land (Z.shiftr packed 7) 0x3
     /\ numberCode e = Z.land (Z.shiftr packed 9) 0x1
     /\ packed = pack2 (lemmaIdx e) (numberCode e) (genderCode e) (caseCode e) (posCode e))
  /\ (forall code, 0 <= code <= 9 ->
        nth_error pos_table (Z.to_nat code) = Some (lemma_is_pos_from_code code))
  /\ (forall code, ~ 0 <= code <= 9 -> lemma_is_pos_from_code code = POS_NO)
  /\ 0 <= posCode e < 16.
Proof.
  intros Hp e.
  destruct (field_value packed 0 4) as [T0 V0]; [lia|lia|].
  destruct (field_value packed 4 3) as [T4 V4]; [lia|lia|].
  destruct (field_value packed 7 2) as [T7 V7]; [lia|lia|].
  destruct (field_value packed 9 1) as [T9 V9]; [lia|lia|].
  rewrite Z.shiftr_0_r in T0, V0.
  change (Z.ones 4) with 0xF in *. change (Z.ones 3) with 0x7 in *.
  change (Z.ones 2) with 0x3 in *. change (Z.ones 1) with 0x1 in *.
  assert (Hpos : posCode e = Z.land packed 0xF).
  { subst e. unfold lemma_is_unpack_entry. destruct (version bin =? 1); exact T0. }
  split; [|split; [|split; [|split]]].
  - intros Hv. subst e. unfold lemma_is_unpack_entry in *.
    rewrite Hv in *. cbn [Z.eqb Pos.eqb lemmaIdx posCode caseCode genderCode numberCode] in *.
    repeat split; try reflexivity; try exact T0.
    rewrite T0, V0, Z.shiftr_div_pow2 by lia.
    change (2 ^ 0) with 1. rewrite Z.div_1_r. Z.div_mod_to_equations. lia.
  - intros Hv. subst e. unfold lemma_is_unpack_entry in *.
    rewrite Hv in *. cbn [Z.eqb Pos.eqb lemmaIdx posCode caseCode genderCode numberCode] in *.
    repeat split; try reflexivity; try assumption.
    unfold pack2. rewrite T0, T4, T7, T9, V0, V4, V7, V9, Z.shiftr_div_pow2 by lia.
    change (2 ^ 0) with 1. rewrite Z.div_1_r. Z.div_mod_to_equations. lia.
  - apply pos_from_code_table.
  - apply pos_from_code_default.
  - rewrite Hpos, V0. change (2 ^ 0) with 1. rewrite Z.div_1_r.
    Z.div_mod_to_equations. lia.
Qed.

Lemma unpack_entry_layout_witness :
  0 <= pack2 1 0 2 1 0 < 2 ^ 32
  /\ lemmaIdx (lemma_is_unpack_entry version2_bin (pack2 1 0 2 1 0)) = 1
  /\ caseCode (lemma_is_unpack_entry version2_bin (pack2 1 0 2 1 0)) = 1
  /\ genderCode (lemma_is_unpack_entry version2_bin (pack2 1 0 2 1 0)) = 2.
Proof.
  assert (H : 0 <= pack2 1 0 2 1 0 < 2 ^ 32)
    by (vm_compute; split; [discriminate|reflexivity]).
  split; [exact H|].
  destruct (unpack_entry_layout version2_bin _ H) as (_ & L2 & _).
  destruct (L2 eq_refl) as (Hid & _ & Hcase & Hgender & _).
  rewrite Hid, Hcase, Hgender. repeat split.
Defined.

(** ** The order of the indices *)

Lemma byte_val_inj (x y : byte) : byte_val x = byte_val y -> x = y.
Proof.
  unfold byte_val. intros H. apply N2Z.inj in H.
  pose proof (Byte.of_to_N x) as Hx. rewrite H, Byte.of_to_N in Hx.
  congruence.
Qed.

Lemma lex_refl (a : list byte) : lex a a = Eq.
Proof.
  induction a as [|x a IH]; [reflexivity|].
  cbn. rewrite Z.compare_refl. exact IH.
Qed.

Lemma lex_eq (a b : list byte) : lex a b = Eq -> a = b.
Proof.
  revert b. induction a as [|x a IH]; intros [|y b] H; cbn in H;
    try discriminate; [reflexivity|].
  destruct (Z.compare_spec (byte_val x) (byte_val y)) as [E|E|E]; try discriminate.
  apply byte_val_inj in E. subst y. f_equal. apply IH. exact H.
Qed.

Lemma lex_le_lt (a b c : list byte) :
  lex a b <> Gt -> lex b c = Lt -> lex a c = Lt.
Proof.
  revert b c. induction a as [|x a IH]; intros [|y b] [|z c] Hab Hbc; cbn in *;
    try discriminate; try congruence.
  destruct (Z.compare_spec (byte_val x) (byte_val y)) as [E1|E1|E1];
    destruct (Z.compare_spec (byte_val y) (byte_val z)) as [E2|E2|E2];
    destruct (Z.compare_spec (byte_val x) (byte_val z)) as [E3|E3|E3];
    try discriminate; try congruence; try lia.
  eapply IH; eauto.
Qed.

Lemma lex_gt_le (a b c : list byte) :
  lex a c = Gt -> lex a b <> Gt -> lex b c = Gt.
Proof.
  revert b c. induction a as [|x a IH]; intros [|y b] [|z c] Hac Hab; cbn in *;
    try discriminate; try congruence.
  destruct (Z.compare_spec (byte_val x) (byte_val y)) as [E1|E1|E1];
    destruct (Z.compare_spec (byte_val y) (byte_val z)) as [E2|E2|E2];
    destruct (Z.compare_spec (byte_val x) (byte_val z)) as [E3|E3|E3];
    try discriminate; try congruence; try lia.
  eapply IH; eauto.
Qed.

(** The sign of the comparator is the order [lex]. *)
Lemma view_compare_lex (a b : list byte) :
  match lex a b with
  | Lt => view_compare a b < 0
  | Eq => view_compare a b = 0
  | Gt => view_compare a b > 0
  end.
Proof.
  revert b. induction a as [|x a IH]; intros [|y b].
  - reflexivity.
  - unfold view_compare. cbn. lia.
  - unfold view_compare. cbn [length Nat.min firstn memcmp lex Z.eqb]. lia.
  - specialize (IH b). unfold view_compare in *.
    cbn [length Nat.min firstn memcmp lex].
    pose proof (byte_val_range x). pose proof (byte_val_range y).
    destruct (Z.compare_spec (byte_val x) (byte_val y)) as [E|E|E].
    + rewrite E, Z.eqb_refl.
      replace (Z.of_nat (S (length a)) - Z.of_nat (S (length b)))
        with (Z.of_nat (length a) - Z.of_nat (length b)) by lia.
      exact IH.
    + destruct (byte_val x =? byte_val y) eqn:Eb; [lia|].
      destruct (byte_val x - byte_val y =? 0) eqn:E0; lia.
    + destruct (byte_val x =? byte_val y) eqn:Eb; [lia|].
      destruct (byte_val x - byte_val y =? 0) eqn:E0; lia.
Qed.

Lemma view_compare_zero (a b : list byte) : view_compare a b = 0 <-> a = b.
Proof.
  pose proof (view_compare_lex a b) as H. split.
  - intros Hz. apply lex_eq. destruct (lex a b); [reflexivity|lia|lia].
  - intros ->. rewrite lex_refl in H. exact H.
Qed.

Lemma view_compare_le_lt (a b q : list byte) :
  view_compare a b <= 0 -> view_compare b q < 0 -> view_compare a q < 0.
Proof.
  pose proof (view_compare_lex a b). pose proof (view_compare_lex b q).
  pose proof (view_compare_lex a q). intros Hab Hbq.
  assert (lex a q = Lt) as E.
  { apply (lex_le_lt a b q).
    - destruct (lex a b); [discriminate|discriminate|lia].
    - destruct (lex b q); [lia|reflexivity|lia]. }
  rewrite E in *. assumption.
Qed.

Lemma view_compare_gt_le (a b q : list byte) :
  view_compare a q > 0 -> view_compare a b <= 0 -> view_compare b q > 0.
Proof.
  pose proof (view_compare_lex a b). pose proof (view_compare_lex b q).
  pose proof (view_compare_lex a q). intros Haq Hab.
  assert (lex b q = Gt) as E.
  { apply (lex_gt_le a b q).
    - destruct (lex a q); [lia|lia|reflexivity].
    - destruct (lex a b); [discriminate|discriminate|lia]. }
  rewrite E in *. assumption.
Qed.

Lemma pair_compare_zero (a b : list byte * list byte) : pair_compare a b = 0 <-> a = b.
Proof.
  destruct a as [a1 a2], b as [b1 b2]. unfold pair_compare. cbn [fst snd].
  destruct (view_compare a1 b1 =? 0) eqn:E.
  - apply Z.eqb_eq, view_compare_zero in E. subst b1.
    rewrite view_compare_zero. split; [intros ->; reflexivity|intros [= ->]; reflexivity].
  - apply Z.eqb_neq in E. split; [intros H; contradiction|].
    intros [= -> ->]. exfalso. apply E. apply view_compare_zero. reflexivity.
Qed.

Lemma view_compare_refl (a : list byte) : view_compare a a = 0.
Proof. apply view_compare_zero. reflexivity. Qed.

Ltac view_cases x y :=
  let E := fresh "E" in
  destruct (Z.eqb_spec (view_compare x y) 0) as [E|E];
  [apply view_compare_zero in E|].

Lemma pair_compare_le_lt (a b q : list byte * list byte) :
  pair_compare a b <= 0 -> pair_compare b q < 0 -> pair_compare a q < 0.
Proof.
  destruct a as [a1 a2], b as [b1 b2], q as [q1 q2]. unfold pair_compare. cbn [fst snd].
  view_cases a1 b1; view_cases b1 q1; view_cases a1 q1;
    subst; rewrite ?view_compare_refl in *; intros H1 H2;
    try (exfalso; congruence); try lia;
    try (eapply view_compare_le_lt; eauto; lia).
  exfalso.
  match goal with
  | Ha : view_compare ?x ?y <= 0, Hb : view_compare ?y ?x < 0 |- _ =>
      pose proof (view_compare_le_lt x y x Ha Hb) as H;
      rewrite view_compare_refl in H; lia
  end.
Qed.

Lemma pair_compare_gt_le (a b q : list byte * list byte) :
  pair_compare a q > 0 -> pair_compare a b <= 0 -> pair_compare b q > 0.
Proof.
  destruct a as [a1 a2], b as [b1 b2], q as [q1 q2]. unfold pair_compare. cbn [fst snd].
  view_cases a1 b1; view_cases b1 q1; view_cases a1 q1;
    subst; rewrite ?view_compare_refl in *; intros H1 H2;
    try (exfalso; congruence); try lia;
    try (eapply view_compare_gt_le; eauto; lia).
  destruct (Z.le_gt_cases (view_compare b1 q1) 0) as [Hle|Hgt]; [exfalso|lia].
  assert (view_compare q1 b1 < 0) as Hlt by lia.
  pose proof (view_compare_le_lt b1 q1 b1 Hle Hlt) as H.
  rewrite view_compare_refl in H. lia.
Qed.

(** ** The binary search *)

Lemma int32_id (z : Z) : - 2 ^ 31 <= z < 2 ^ 31 -> int32 z = z.
Proof.
  intros H. unfold int32.
  destruct (Z.le_gt_cases 0 z) as [Hpos|Hneg].
  - rewrite Z.mod_small by lia. destruct (z <? 2 ^ 31) eqn:E; lia.
  - replace (z mod 2 ^ 32) with (z + 2 ^ 32).
    + destruct (z + 2 ^ 32 <? 2 ^ 31) eqn:E; lia.
    + apply (Z.mod_unique_pos _ _ (-1)); lia.
Qed.

Section Search.

Variable cmp : Z -> option Z.
Variable c : Z -> Z.
Variable n : Z.

Hypothesis n_range : 0 <= n < 2 ^ 30.
Hypothesis cmp_total : forall i, 0 <= i < n -> cmp i = Some (c i).
Hypothesis below : forall i j, 0 <= i < j -> j < n -> c j < 0 -> c i < 0.
Hypothesis above : forall i j, 0 <= i < j -> j < n -> c i > 0 -> c j > 0.

(** The loop returns an index at which the comparison is zero, or -1 when
    there is none. *)
Lemma search_loop_spec (fuel : nat) (left right : Z) :
  0 <= left -> -1 <= right < n ->
  (Z.to_nat (right - left + 1) <= fuel)%nat ->
  (forall i, 0 <= i < left -> c i < 0) ->
  (forall i, right < i < n -> c i > 0) ->
  exists r, search_loop cmp fuel left right = Some r
    /\ ((r = -1 /\ forall i, 0 <= i < n -> c i <> 0) \/ (0 <= r < n /\ c r = 0)).
Proof.
  revert left right. induction fuel as [|fuel IH]; intros left right Hl Hr Hfuel Hlo Hhi.
  - cbn [search_loop]. destruct (right <? left) eqn:E; [|lia].
    exists (-1). split; [reflexivity|]. left. split; [reflexivity|].
    intros i Hi. destruct (Z.lt_ge_cases i left) as [H|H].
    + specialize (Hlo i). lia.
    + specialize (Hhi i). lia.
  - cbn [search_loop]. destruct (right <? left) eqn:E.
    + exists (-1). split; [reflexivity|]. left. split; [reflexivity|].
      intros i Hi. destruct (Z.lt_ge_cases i left) as [H|H].
      * specialize (Hlo i). lia.
      * specialize (Hhi i). lia.
    + rewrite int32_id by lia. rewrite Z.shiftr_div_pow2 by lia.
      change (2 ^ 1) with 2.
      set (mid := (left + right) / 2).
      assert (left <= mid <= right) as Hmid
        by (subst mid; Z.div_mod_to_equations; lia).
      rewrite u32_small by lia. rewrite cmp_total by lia. cbn [bind].
      destruct (Z.eqb_spec (c mid) 0) as [E0|E0].
      * exists mid. split; [reflexivity|]. right. split; [lia|exact E0].
      * destruct (Z.ltb_spec (c mid) 0) as [Elt|Ege].
        -- rewrite int32_id by lia. apply IH; try lia; [|exact Hhi].
           intros i Hi. destruct (Z.eq_dec i mid) as [->|Hne]; [exact Elt|].
           apply (below i mid); lia.
        -- rewrite int32_id by lia. apply IH; try lia; [exact Hlo|].
           intros i Hi. destruct (Z.eq_dec i mid) as [->|Hne]; [lia|].
           apply (above mid i); lia.
Qed.

(** The search with [right = (int) n - 1] and the iterations the callers
    provide. *)
Lemma search_from_zero :
  let right := int32 (int32 n - 1) in
  exists r, search_loop cmp (Z.to_nat (right - 0 + 1)) 0 right = Some r
    /\ ((r = -1 /\ forall i, 0 <= i < n -> c i <> 0) \/ (0 <= r < n /\ c r = 0)).
Proof.
  cbv zeta. rewrite (int32_id n) by lia. rewrite int32_id by lia.
  apply search_loop_spec; try lia.
Qed.

End Search.

(** ** Reading the indices *)

Lemma read_all_spec {A : Type} (f : Z -> option A) (n : nat) (i : Z) (l : list A) :
  read_all f n i = Some l ->
  length l = n /\ forall k, (k < n)%nat -> f (i + Z.of_nat k) = nth_error l k.
Proof.
  revert i l. induction n as [|n IH]; intros i l H; cbn [read_all] in H.
  - injection H as <-. split; [reflexivity|]. intros k Hk. lia.
  - destruct (f i) as [x|] eqn:Ex; [|discriminate]. cbn [bind] in H.
    destruct (read_all f n (i + 1)) as [xs|] eqn:Exs; [|discriminate]. cbn [bind] in H.
    injection H as <-. destruct (IH _ _ Exs) as [Hlen Hnth].
    split; [cbn; congruence|].
    intros [|k] Hk.
    + cbn. rewrite Z.add_0_r. exact Ex.
    + cbn [nth_error]. rewrite <- Hnth by lia. f_equal. lia.
Qed.

Lemma load_bytes_prefix (d : list byte) (a : Z) (n : nat) (w : list byte) :
  load_bytes d a n = Some w ->
  length w = n /\ forall m, (m <= n)%nat -> load_bytes d a m = Some (firstn m w).
Proof.
  revert a w. induction n as [|n IH]; intros a w H; cbn [load_bytes] in H.
  - injection H as <-. split; [reflexivity|]. intros [|m] Hm; [reflexivity|lia].
  - destruct (load_byte d a) as [b|] eqn:Eb; [|discriminate]. cbn [bind] in H.
    destruct (load_bytes d (a + 1) n) as [bs|] eqn:Ebs; [|discriminate]. cbn [bind] in H.
    injection H as <-. destruct (IH _ _ Ebs) as [Hlen Hpre].
    split; [cbn; congruence|].
    intros [|m] Hm; [reflexivity|].
    cbn [load_bytes firstn]. rewrite Eb. cbn [bind]. rewrite Hpre by lia. reflexivity.
Qed.

(** On a view that can be read in full, the comparison of the code is the
    comparator of the format. *)
Lemma compare_view_spec (d : list byte) (p : ptr) (len : Z) (w word : list byte) :
  0 <= len ->
  deref_bytes d p (Z.to_nat len) = Some w ->
  compare_view d p len word (strlen word) = Some (view_compare w word).
Proof.
  intros Hlen Hw. unfold compare_view, deref_bytes, strlen in *.
  destruct p as [a|]; [|discriminate].
  destruct (load_bytes_prefix _ _ _ _ Hw) as [Hl Hpre].
  assert (Z.to_nat (if Z.of_nat (length word) <? len then Z.of_nat (length word) else len)
          = Nat.min (length w) (length word)) as Hmin.
  { destruct (Z.ltb_spec (Z.of_nat (length word)) len); lia. }
  rewrite Hmin. rewrite Hpre by lia. cbn [bind].
  unfold view_compare. replace len with (Z.of_nat (length w)) by lia.
  destruct (memcmp _ _ =? 0); reflexivity.
Qed.

Lemma compare_word_spec (bin : LemmaIsBinary) (i : Z) (w word : list byte) :
  stored_word bin i = Some w ->
  lemma_is_compare_word bin i word (strlen word) = Some (view_compare w word).
Proof.
  unfold stored_word, view_bytes, lemma_is_compare_word.
  destruct (lemma_is_u32 (data bin) (wordOffsets bin) i) as [offset|]; [|discriminate].
  cbn [bind].
  destruct (deref8 (data bin) (ptr_add (wordLengths bin) i)) as [len|] eqn:El; [|discriminate].
  cbn [bind]. intros Hw. apply compare_view_spec; [|exact Hw].
  unfold deref8 in El. destruct (ptr_add (wordLengths bin) i); [|discriminate].
  apply load8_bounds in El. lia.
Qed.

Lemma compare_bigram_spec (bin : LemmaIsBinary) (i : Z)
    (s1 s2 w1 w2 : list byte) (f : Z) :
  stored_bigram bin i = Some (s1, s2, f) ->
  lemma_is_compare_bigram bin i w1 (strlen w1) w2 (strlen w2)
  = Some (pair_compare (s1, s2) (w1, w2)).
Proof.
  unfold stored_bigram, view_bytes, lemma_is_compare_bigram.
  destruct (lemma_is_u32 (data bin) (bigramW1Offsets bin) i) as [o1|]; [|discriminate].
  cbn [bind].
  destruct (deref8 (data bin) (ptr_add (bigramW1Lengths bin) i)) as [l1|] eqn:El1;
    [|discriminate].
  cbn [bind].
  destruct (deref_bytes (data bin) (ptr_add (stringPool bin) o1) (Z.to_nat l1))
    as [x1|] eqn:E1; [|discriminate].
  cbn [bind].
  destruct (lemma_is_u32 (data bin) (bigramW2Offsets bin) i) as [o2|]; [|discriminate].
  cbn [bind].
  destruct (deref8 (data bin) (ptr_add (bigramW2Lengths bin) i)) as [l2|] eqn:El2;
    [|discriminate].
  cbn [bind].
  destruct (deref_bytes (data bin) (ptr_add (stringPool bin) o2) (Z.to_nat l2))
    as [x2|] eqn:E2; [|discriminate].
  cbn [bind].
  destruct (lemma_is_u32 (data bin) (bigramFreqs bin) i) as [fr|]; [|discriminate].
  cbn [bind]. intros [= -> -> ->].
  assert (0 <= l1) as Hl1.
  { unfold deref8 in El1. destruct (ptr_add (bigramW1Lengths bin) i); [|discriminate].
    apply load8_bounds in El1. lia. }
  assert (0 <= l2) as Hl2.
  { unfold deref8 in El2. destruct (ptr_add (bigramW2Lengths bin) i); [|discriminate].
    apply load8_bounds in El2. lia. }
  pose proof (compare_view_spec _ _ _ _ w1 Hl1 E1) as C1.
  pose proof (compare_view_spec _ _ _ _ w2 Hl2 E2) as C2.
  unfold compare_view in C1. unfold pair_compare. cbn [fst snd].
  destruct (deref_bytes (data bin) (ptr_add (stringPool bin) o1)
              (Z.to_nat (if strlen w1 <? l1 then strlen w1 else l1))) as [pre|];
    [|discriminate].
  cbn [bind] in *.
  destruct (memcmp pre _ =? 0) eqn:Em.
  - injection C1 as C1. rewrite <- C1.
    destruct (l1 - strlen w1 =? 0); [exact C2|reflexivity].
  - injection C1 as C1. rewrite <- C1. rewrite Em. reflexivity.
Qed.

(** ** The word index and the bigram index *)

Lemma index_entry {A : Type} (f : Z -> option A) (n : Z) (l : list A) (i : Z) :
  read_all f (Z.to_nat n) 0 = Some l -> 0 <= i < n ->
  exists x, f i = Some x /\ nth_error l (Z.to_nat i) = Some x.
Proof.
  intros Hread Hi. destruct (read_all_spec _ _ _ _ Hread) as [Hlen Hnth].
  specialize (Hnth (Z.to_nat i) ltac:(lia)).
  rewrite Z.add_0_l, Z2Nat.id in Hnth by lia.
  destruct (nth_error l (Z.to_nat i)) as [x|] eqn:E.
  - exists x. split; [exact Hnth|reflexivity].
  - apply nth_error_None in E. lia.
Qed.

Lemma sorted_by_entries {A : Type} (cmp : A -> A -> Z) (l : list A) (d : A) (i j : Z) :
  sorted_by cmp l -> 0 <= i < j -> j < Z.of_nat (length l) ->
  cmp (nth (Z.to_nat i) l d) (nth (Z.to_nat j) l d) <= 0.
Proof.
  intros Hs Hi Hj. apply (Hs (Z.to_nat i) (Z.to_nat j)); [lia| |];
    apply nth_error_nth'; lia.
Qed.

(** What the search of the word index returns on a sorted index. *)
Lemma find_word_spec (bin : LemmaIsBinary) (ws : list (list byte)) (word : list byte) :
  0 <= wordCount bin < 2 ^ 30 ->
  word_index bin = Some ws ->
  sorted_by view_compare ws ->
  exists r, lemma_is_find_word bin word = Some r
    /\ ((r = -1 /\ ~ In word ws)
        \/ (0 <= r < wordCount bin /\ nth_error ws (Z.to_nat r) = Some word)).
Proof.
  intros Hn Hread Hsorted. unfold word_index in Hread.
  destruct (read_all_spec _ _ _ _ Hread) as [Hlen _].
  set (c := fun i => view_compare (nth (Z.to_nat i) ws []) word).
  destruct (search_from_zero
              (fun mid => lemma_is_compare_word bin mid word (strlen word)) c
              (wordCount bin) Hn) as (r & Hr & Hcases).
  - intros i Hi. destruct (index_entry _ _ _ i Hread Hi) as (w & Hw & Hnth).
    rewrite (compare_word_spec bin i w word Hw). subst c. cbn beta.
    rewrite (nth_error_nth _ _ _ Hnth). reflexivity.
  - intros i j Hi Hj Hc. subst c. cbn beta in *.
    eapply view_compare_le_lt; [|exact Hc].
    apply sorted_by_entries; [exact Hsorted|lia|lia].
  - intros i j Hi Hj Hc. subst c. cbn beta in *.
    eapply view_compare_gt_le; [exact Hc|].
    apply sorted_by_entries; [exact Hsorted|lia|lia].
  - exists r. split; [exact Hr|].
    destruct Hcases as [[-> Hnone]|[Hrange Hzero]].
    + left. split; [reflexivity|]. intros Hin.
      apply In_nth_error in Hin. destruct Hin as [k Hk].
      assert (k < length ws)%nat by (apply nth_error_Some; congruence).
      apply (Hnone (Z.of_nat k)); [lia|].
      subst c. cbn beta. rewrite Nat2Z.id, (nth_error_nth _ _ _ Hk).
      apply view_compare_refl.
    + right. split; [exact Hrange|]. subst c. cbn beta in Hzero.
      apply view_compare_zero in Hzero. rewrite <- Hzero.
      apply nth_error_nth'. lia.
Qed.

(** The same for the bigram index, which is not searched when it is
    empty. *)
Lemma find_bigram_spec (bin : LemmaIsBinary)
    (bs : list (list byte * list byte * Z)) (w1 w2 : list byte) :
  0 <= bigramCount bin < 2 ^ 30 ->
  bigram_index bin = Some bs ->
  sorted_by pair_compare (map fst bs) ->
  exists r, lemma_is_find_bigram bin w1 w2 = Some r
    /\ ((r = -1 /\ ~ In (w1, w2) (map fst bs))
        \/ (0 <= r < bigramCount bin
            /\ exists f, nth_error bs (Z.to_nat r) = Some (w1, w2, f))).
Proof.
  intros Hn Hread Hsorted. unfold bigram_index in Hread.
  destruct (read_all_spec _ _ _ _ Hread) as [Hlen _].
  unfold lemma_is_find_bigram. cbv zeta.
  destruct (Z.eqb_spec (bigramCount bin) 0) as [E0|E0].
  { exists (-1). split; [reflexivity|]. left. split; [reflexivity|].
    rewrite E0 in Hlen. destruct bs; [intros []|discriminate]. }
  set (c := fun i => pair_compare (fst (nth (Z.to_nat i) bs ([], [], 0))) (w1, w2)).
  destruct (search_from_zero
              (fun mid => lemma_is_compare_bigram bin mid w1 (strlen w1) w2 (strlen w2)) c
              (bigramCount bin) Hn) as (r & Hr & Hcases).
  - intros i Hi. destruct (index_entry _ _ _ i Hread Hi) as ([[s1 s2] f] & Hw & Hnth).
    rewrite (compare_bigram_spec bin i s1 s2 w1 w2 f Hw). subst c. cbn beta.
    rewrite (nth_error_nth _ _ _ Hnth). reflexivity.
  - intros i j Hi Hj Hc. subst c. cbn beta in *.
    eapply pair_compare_le_lt; [|exact Hc].
    rewrite <- !(map_nth fst).
    apply sorted_by_entries; [exact Hsorted|lia|rewrite length_map; lia].
  - intros i j Hi Hj Hc. subst c. cbn beta in *.
    eapply pair_compare_gt_le; [exact Hc|].
    rewrite <- !(map_nth fst).
    apply sorted_by_entries; [exact Hsorted|lia|rewrite length_map; lia].
  - exists r. split; [exact Hr|].
    destruct Hcases as [[-> Hnone]|[Hrange Hzero]].
    + left. split; [reflexivity|]. intros Hin.
      apply In_nth_error in Hin. destruct Hin as [k Hk].
      assert (k < length (map fst bs))%nat by (apply nth_error_Some; congruence).
      rewrite length_map in *.
      apply (Hnone (Z.of_nat k)); [lia|].
      subst c. cbn beta. rewrite Nat2Z.id.
      rewrite <- (map_nth fst). cbn [fst]. rewrite (nth_error_nth _ _ _ Hk).
      apply pair_compare_zero. reflexivity.
    + right. split; [exact Hrange|]. subst c. cbn beta in Hzero.
      apply pair_compare_zero in Hzero.
      destruct (nth (Z.to_nat r) bs ([], [], 0)) as [k f] eqn:En.
      cbn [fst] in Hzero. subst k. exists f. rewrite <- En.
      apply nth_error_nth'. lia.
Qed.

Lemma stored_bigram_freq (bin : LemmaIsBinary) (i : Z) (s1 s2 : list byte) (f : Z) :
  stored_bigram bin i = Some (s1, s2, f) ->
  lemma_is_u32 (data bin) (bigramFreqs bin) i = Some f.
Proof.
  unfold stored_bigram.
  destruct (view_bytes bin (bigramW1Offsets bin) (bigramW1Lengths bin) i); [|discriminate].
  destruct (view_bytes bin (bigramW2Offsets bin) (bigramW2Lengths bin) i); [|discriminate].
  cbn [bind]. destruct (lemma_is_u32 (data bin) (bigramFreqs bin) i); [|discriminate].
  cbn [bind]. congruence.
Qed.

(** The frequency lookup on a sorted bigram index. *)
Lemma bigram_freq_spec (bin : LemmaIsBinary)
    (bs : list (list byte * list byte * Z)) (w1 w2 : list byte) :
  0 <= bigramCount bin < 2 ^ 30 ->
  bigram_index bin = Some bs ->
  sorted_by pair_compare (map fst bs) ->
  (~ In (w1, w2) (map fst bs) /\ lemma_is_bigram_freq bin w1 w2 = Some 0)
  \/ (exists f, In (w1, w2, f) bs /\ lemma_is_bigram_freq bin w1 w2 = Some f).
Proof.
  intros Hn Hread Hsorted.
  destruct (find_bigram_spec bin bs w1 w2 Hn Hread Hsorted) as (r & Hr & Hcases).
  unfold lemma_is_bigram_freq. rewrite Hr. cbn [bind].
  destruct Hcases as [[-> Hnone]|[Hrange [f Hf]]].
  - left. split; [exact Hnone|reflexivity].
  - right. exists f. split; [eapply nth_error_In; exact Hf|].
    destruct (r <? 0) eqn:E; [lia|]. rewrite u32_small by lia.
    destruct (index_entry _ _ _ r Hread Hrange) as (x & Hx & Hnth).
    rewrite Hf in Hnth. injection Hnth as <-.
    eapply stored_bigram_freq. exact Hx.
Qed.

(** C5: on a dictionary whose word index is sorted by the comparator, the
    search returns -1 for a key that is not in the index, in particular for
    one before the first or after the last entry, and the index of the key
    for a key that is there once; the same holds for the bigram index with
    its two-level key.  The frequency of a pair that is not found is 0; with
    no bigrams it is 0 without a single read; and on a sorted bigram index
    the lookup always returns. *)
Theorem index_search_correct (bin : LemmaIsBinary) :
  (forall ws, 0 <= wordCount bin < 2 ^ 30 -> word_index bin = Some ws ->
     sorted_by view_compare ws ->
     forall word,
       (~ In word ws -> lemma_is_find_word bin word = Some (-1))
       /\ (forall i, nth_error ws i = Some word ->
             (forall j, nth_error ws j = Some word -> j = i) ->
             lemma_is_find_word bin word = Some (Z.of_nat i))
       /\ (forall first, nth_error ws 0 = Some first -> view_compare first word > 0 ->
             lemma_is_find_word bin word = Some (-1))
       /\ (forall last, nth_error ws (length ws - 1) = Some last ->
             view_compare last word < 0 ->
             lemma_is_find_word bin word = Some (-1)))
  /\ (forall bs, 0 <= bigramCount bin < 2 ^ 30 -> bigram_index bin = Some bs ->
        sorted_by pair_compare (map fst bs) ->
        forall w1 w2,
          (~ In (w1, w2) (map fst bs) ->
             lemma_is_find_bigram bin w1 w2 = Some (-1)
             /\ lemma_is_bigram_freq bin w1 w2 = Some 0)
          /\ (forall i f, nth_error bs i = Some (w1, w2, f) ->
                (forall j g, nth_error bs j = Some (w1, w2, g) -> j = i) ->
                lemma_is_find_bigram bin w1 w2 = Some (Z.of_nat i)
                /\ lemma_is_bigram_freq bin w1 w2 = Some f)
          /\ (exists f, lemma_is_bigram_freq bin w1 w2 = Some f))
  /\ (bigramCount bin = 0 ->
        forall w1 w2,
          lemma_is_find_bigram bin w1 w2 = Some (-1)
          /\ lemma_is_bigram_freq bin w1 w2 = Some 0).
Proof.
  split; [|split].
  - intros ws Hn Hread Hsorted word.
    assert (Habsent : ~ In word ws -> lemma_is_find_word bin word = Some (-1)).
    { intros Hnot.
      destruct (find_word_spec bin ws word Hn Hread Hsorted) as (r & Hr & [[-> _]|[_ Hnth]]);
        [exact Hr|].
      exfalso. apply Hnot. eapply nth_error_In. exact Hnth. }
    split; [exact Habsent|]. split; [|split].
    + intros i Hi Huniq.
      destruct (find_word_spec bin ws word Hn Hread Hsorted)
        as (r & Hr & [[-> Hnot]|[Hrange Hnth]]).
      * exfalso. apply Hnot. eapply nth_error_In. exact Hi.
      * rewrite Hr. f_equal. specialize (Huniq _ Hnth). lia.
    + intros first Hfirst Hgt. apply Habsent. intros Hin.
      apply In_nth_error in Hin. destruct Hin as [k Hk].
      destruct k as [|k].
      * rewrite Hfirst in Hk. injection Hk as ->. rewrite view_compare_refl in Hgt. lia.
      * pose proof (Hsorted 0%nat (S k) first word ltac:(lia) Hfirst Hk). lia.
    + intros last Hlast Hlt. apply Habsent. intros Hin.
      apply In_nth_error in Hin. destruct Hin as [k Hk].
      assert (k < length ws)%nat by (apply nth_error_Some; congruence).
      destruct (Nat.eq_dec k (length ws - 1)) as [->|Hne].
      * rewrite Hlast in Hk. injection Hk as ->. rewrite view_compare_refl in Hlt. lia.
      * pose proof (Hsorted k (length ws - 1)%nat word last ltac:(lia) Hk Hlast) as Hle.
        pose proof (view_compare_le_lt _ _ _ Hle Hlt) as Hc.
        rewrite view_compare_refl in Hc. lia.
  - intros bs Hn Hread Hsorted w1 w2. split; [|split].
    + intros Hnot. split.
      * destruct (find_bigram_spec bin bs w1 w2 Hn Hread Hsorted)
          as (r & Hr & [[-> _]|[_ [f Hnth]]]); [exact Hr|].
        exfalso. apply Hnot. apply in_map_iff. exists (w1, w2, f).
        split; [reflexivity|]. eapply nth_error_In. exact Hnth.
      * destruct (bigram_freq_spec bin bs w1 w2 Hn Hread Hsorted)
          as [[_ H]|(f & Hin & _)]; [exact H|].
        exfalso. apply Hnot. apply in_map_iff. exists (w1, w2, f). split; [reflexivity|exact Hin].
    + intros i f Hi Huniq.
      destruct (find_bigram_spec bin bs w1 w2 Hn Hread Hsorted)
        as (r & Hr & [[-> Hnot]|[Hrange [g Hnth]]]).
      * exfalso. apply Hnot. apply in_map_iff. exists (w1, w2, f).
        split; [reflexivity|]. eapply nth_error_In. exact Hi.
      * pose proof (Huniq _ _ Hnth) as Heq.
        assert (r = Z.of_nat i) as -> by lia.
        split; [exact Hr|].
        unfold lemma_is_bigram_freq. rewrite Hr. cbn [bind].
        destruct (Z.of_nat i <? 0) eqn:E; [lia|]. rewrite u32_small by lia.
        unfold bigram_index in Hread.
        destruct (index_entry _ _ _ (Z.of_nat i) Hread Hrange) as (x & Hx & Hnx).
        rewrite Nat2Z.id, Hi in Hnx. injection Hnx as <-.
        eapply stored_bigram_freq. exact Hx.
    + destruct (bigram_freq_spec bin bs w1 w2 Hn Hread Hsorted)
        as [[_ H]|(f & _ & H)]; eauto.
  - intros H0 w1 w2. unfold lemma_is_bigram_freq, lemma_is_find_bigram.
    rewrite H0. split; reflexivity.
Qed.

Lemma sortedb_sound {A : Type} (cmp : A -> A -> Z) (l : list A) :
  sortedb cmp l = true -> sorted_by cmp l.
Proof.
  induction l as [|x l IH]; intros H i j a b Hij Hi Hj.
  - destruct i; discriminate.
  - cbn [sortedb] in H. apply andb_prop in H. destruct H as [Hx Hl].
    destruct j as [|j]; [lia|]. cbn [nth_error] in Hj.
    destruct i as [|i].
    + cbn in Hi. injection Hi as <-.
      rewrite forallb_forall in Hx. apply Z.leb_le. apply Hx.
      eapply nth_error_In. exact Hj.
    + cbn [nth_error] in Hi. apply (IH Hl i j); [lia|exact Hi|exact Hj].
Qed.

Lemma index_search_correct_witness :
  (0 <= wordCount sample_bin < 2 ^ 30
   /\ word_index sample_bin = Some sample_words
   /\ sorted_by view_compare sample_words)
  /\ (0 <= bigramCount sample_bin < 2 ^ 30
      /\ bigram_index sample_bin = Some sample_bigrams
      /\ sorted_by pair_compare (map fst sample_bigrams))
  /\ lemma_is_find_word sample_bin (lit "fer") = Some 2
  /\ lemma_is_find_word sample_bin (lit "hross") = Some (-1)
  /\ lemma_is_bigram_freq sample_bin (lit "hestur") (lit "fara") = Some 7
  /\ lemma_is_bigram_freq sample_bin (lit "fara") (lit "hestur") = Some 0.
Proof.
  assert (Hw : 0 <= wordCount sample_bin < 2 ^ 30
               /\ word_index sample_bin = Some sample_words
               /\ sorted_by view_compare sample_words).
  { split; [vm_compute; split; [discriminate|reflexivity]|].
    split; [vm_compute; reflexivity|]. apply sortedb_sound. vm_compute. reflexivity. }
  assert (Hb : 0 <= bigramCount sample_bin < 2 ^ 30
               /\ bigram_index sample_bin = Some sample_bigrams
               /\ sorted_by pair_compare (map fst sample_bigrams)).
  { split; [vm_compute; split; [discriminate|reflexivity]|].
    split; [vm_compute; reflexivity|]. apply sortedb_sound. vm_compute. reflexivity. }
  split; [exact Hw|]. split; [exact Hb|].
  destruct Hw as (Hw1 & Hw2 & Hw3). destruct Hb as (Hb1 & Hb2 & Hb3).
  destruct (index_search_correct sample_bin) as (Hwords & Hbigrams & _).
  pose proof (Hwords sample_words Hw1 Hw2 Hw3) as Hword.
  pose proof (Hbigrams sample_bigrams Hb1 Hb2 Hb3) as Hpair.
  split; [|split; [|split]].
  - destruct (Hword (lit "fer")) as (_ & Hfound & _).
    apply (Hfound 2%nat); [reflexivity|].
    intros j Hj. do 5 (destruct j as [|j]; [first [reflexivity|discriminate Hj]|]).
    destruct j; discriminate Hj.
  - destruct (Hword (lit "hross")) as (Habsent & _).
    apply Habsent. intros Hin. cbn in Hin.
    repeat (destruct Hin as [Hin|Hin]; [discriminate Hin|]). exact Hin.
  - destruct (Hpair (lit "hestur") (lit "fara")) as (_ & Hfound & _).
    apply (Hfound 1%nat 7); [reflexivity|].
    intros j g Hj. do 3 (destruct j as [|j]; [first [reflexivity|discriminate Hj]|]).
    destruct j; discriminate Hj.
  - destruct (Hpair (lit "fara") (lit "hestur")) as (Habsent & _).
    apply Habsent. intros Hin. cbn in Hin.
    repeat (destruct Hin as [Hin|Hin]; [discriminate Hin|]). exact Hin.
Defined.

(** ** Reads inside the regions *)

Lemma region_u32 (d : list byte) (p : ptr) (n i : Z) :
  region_inside d p (4 * n) -> 0 <= i < n ->
  exists v, lemma_is_u32 d p i = Some v /\ 0 <= v < 2 ^ 32.
Proof.
  intros (a & -> & Ha & Hend) Hi. unfold lemma_is_u32, deref32, ptr_add. cbn [option_map].
  apply load32_Some; lia.
Qed.

Lemma region_u8 (d : list byte) (p : ptr) (n i : Z) :
  region_inside d p n -> 0 <= i < n ->
  exists v, deref8 d (ptr_add p i) = Some v /\ 0 <= v < 256.
Proof.
  intros (a & -> & Ha & Hend) Hi. unfold deref8, ptr_add. cbn [option_map].
  apply load8_Some. lia.
Qed.

Lemma load_bytes_Some (d : list byte) (a : Z) (n : nat) :
  0 <= a -> a + Z.of_nat n <= Z.of_nat (length d) ->
  exists w, load_bytes d a n = Some w.
Proof.
  revert a. induction n as [|n IH]; intros a Ha Hend; cbn [load_bytes].
  - eexists. reflexivity.
  - destruct (load_byte_Some d a) as [b ->]; [lia|]. cbn [bind].
    destruct (IH (a + 1)) as [w ->]; [lia|lia|]. cbn [bind]. eexists. reflexivity.
Qed.

Lemma pnstrdup_at_Some (d : list byte) (a : Z) (n : nat) :
  0 <= a -> a + Z.of_nat n <= Z.of_nat (length d) ->
  exists w, pnstrdup_at d a n = Some w.
Proof.
  revert a. induction n as [|n IH]; intros a Ha Hend; cbn [pnstrdup_at].
  - eexists. reflexivity.
  - destruct (load_byte_Some d a) as [b ->]; [lia|]. cbn [bind].
    destruct (byte_val b =? 0); [eexists; reflexivity|].
    destruct (IH (a + 1)) as [w ->]; [lia|lia|]. cbn [bind]. eexists. reflexivity.
Qed.

(** A view inside the string pool can be read. *)
Lemma pool_view_bytes (d : list byte) (pool : ptr) (sps off len : Z) (n : nat) :
  region_inside d pool sps -> 0 <= off -> 0 <= len -> off + len <= sps ->
  (Z.of_nat n <= len) ->
  (exists w, deref_bytes d (ptr_add pool off) n = Some w)
  /\ (exists w, pnstrdup d (ptr_add pool off) (Z.of_nat n) = Some w).
Proof.
  intros (a & -> & Ha & Hend) Hoff Hlen Hin Hn.
  unfold deref_bytes, pnstrdup, ptr_add. cbn [option_map]. split.
  - apply load_bytes_Some; lia.
  - rewrite Nat2Z.id. apply pnstrdup_at_Some; lia.
Qed.

(** The search returns whenever the comparison does. *)
Lemma search_loop_total (cmp : Z -> option Z) (n : Z) (fuel : nat) (left right : Z) :
  0 <= n < 2 ^ 30 ->
  (forall i, 0 <= i < n -> exists c, cmp i = Some c) ->
  0 <= left -> -1 <= right < n ->
  exists r, search_loop cmp fuel left right = Some r /\ (r = -1 \/ 0 <= r < n).
Proof.
  intros Hn Hcmp. revert left right.
  induction fuel as [|fuel IH]; intros left right Hl Hr; cbn [search_loop].
  - destruct (right <? left); exists (-1); split; auto.
  - destruct (right <? left) eqn:E; [exists (-1); split; auto|].
    apply Z.ltb_ge in E.
    rewrite int32_id by lia. rewrite Z.shiftr_div_pow2 by lia. change (2 ^ 1) with 2.
    set (mid := (left + right) / 2).
    assert (left <= mid <= right) as Hmid by (subst mid; Z.div_mod_to_equations; lia).
    rewrite u32_small by lia. destruct (Hcmp mid) as [c ->]; [lia|]. cbn [bind].
    destruct (c =? 0); [exists mid; split; [reflexivity|lia]|].
    destruct (c <? 0); rewrite int32_id by lia; apply IH; lia.
Qed.

(** A dictionary as the loader returns it from a buffer of less than 4 GiB:
    its tables are small enough for the [int] indices of the code. *)
Lemma laid_out_counts (bin : LemmaIsBinary) :
  laid_out bin -> size bin < 2 ^ 32 ->
  0 <= wordCount bin < 2 ^ 30 /\ 0 <= entryCount bin < 2 ^ 30.
Proof.
  intros L Hsize. destruct L.
  destruct lo_wordOffsets0 as (a & _ & Ha & Hend).
  destruct lo_entries0 as (b & _ & Hb & Hendb). lia.
Qed.

Section InBounds.

Variable bin : LemmaIsBinary.
Hypothesis L : laid_out bin.
Hypothesis small : size bin < 2 ^ 32.
Hypothesis V : values_in_bounds bin.

Lemma get_lemma_in_bounds (idx : Z) :
  0 <= idx < lemmaCount bin -> exists l, lemma_is_get_lemma bin idx = Some l.
Proof.
  intros Hi. unfold lemma_is_get_lemma.
  destruct (region_u32 _ _ _ idx (lo_lemmaOffsets _ L) Hi) as (off & Hoff & Ro).
  destruct (region_u8 _ _ _ idx (lo_lemmaLengths _ L) Hi) as (len & Hlen & Rl).
  rewrite Hoff, Hlen. cbn [bind].
  pose proof (vb_lemmas _ V idx off len Hi Hoff Hlen) as Hin.
  destruct (pool_view_bytes (data bin) (stringPool bin) (stringPoolSize bin) off len
              (Z.to_nat len) (lo_stringPool _ L)) as [_ [w Hw]]; try lia.
  rewrite Z2Nat.id in Hw by lia. eauto.
Qed.

Lemma compare_word_in_bounds (i : Z) (word : list byte) :
  0 <= i < wordCount bin ->
  exists c, lemma_is_compare_word bin i word (strlen word) = Some c.
Proof.
  intros Hi. unfold lemma_is_compare_word.
  destruct (region_u32 _ _ _ i (lo_wordOffsets _ L) Hi) as (off & Hoff & Ro).
  destruct (region_u8 _ _ _ i (lo_wordLengths _ L) Hi) as (len & Hlen & Rl).
  rewrite Hoff, Hlen. cbn [bind].
  pose proof (vb_words _ V i off len Hi Hoff Hlen) as Hin.
  unfold compare_view, strlen.
  set (minlen := if Z.of_nat (length word) <? len then Z.of_nat (length word) else len).
  assert (0 <= minlen <= len) as Hmin
    by (subst minlen; destruct (Z.ltb_spec (Z.of_nat (length word)) len); lia).
  destruct (pool_view_bytes (data bin) (stringPool bin) (stringPoolSize bin) off len
              (Z.to_nat minlen) (lo_stringPool _ L)) as [[w Hw] _]; try lia.
  rewrite Hw. cbn [bind]. destruct (memcmp _ _ =? 0); eauto.
Qed.

Lemma find_word_in_bounds (word : list byte) :
  exists idx, lemma_is_find_word bin word = Some idx
    /\ (idx = -1 \/ 0 <= idx < wordCount bin).
Proof.
  destruct (laid_out_counts bin L small) as [Hw _].
  unfold lemma_is_find_word. cbv zeta.
  rewrite (int32_id (wordCount bin)) by lia. rewrite int32_id by lia.
  apply search_loop_total; try lia.
  intros i Hi. apply compare_word_in_bounds. exact Hi.
Qed.

Lemma candidates_loop_in_bounds (n : nat) (i : Z) (acc : list LemmaCandidate) :
  0 <= i -> i + Z.of_nat n <= entryCount bin ->
  exists cs, candidates_loop bin n i acc = Some cs
    /\ (length acc <= length cs)%nat /\ (0 < n -> cs <> [])%nat.
Proof.
  destruct (laid_out_counts bin L small) as [_ He].
  revert i acc. induction n as [|n IH]; intros i acc Hi Hend; cbn [candidates_loop].
  - exists acc. split; [reflexivity|]. split; [lia|lia].
  - rewrite u32_small by lia.
    destruct (region_u32 _ _ _ i (lo_entries _ L)) as (packed & Hp & Rp); [lia|].
    rewrite Hp. cbn [bind].
    destruct (get_lemma_in_bounds (lemmaIdx (lemma_is_unpack_entry bin packed)))
      as [l Hl].
    { split; [|eapply vb_lemma_ids; eauto; lia].
      unfold lemma_is_unpack_entry. destruct (version bin =? 1); cbn [lemmaIdx];
        apply Z.shiftr_nonneg; lia. }
    rewrite Hl. cbn [bind].
    match goal with
    | |- context [candidates_loop bin n (i + 1) ?acc'] =>
        destruct (IH (i + 1) acc') as (cs & Hcs & Hlen & _); [lia|lia|];
        assert (length acc <= length acc' /\ (0 < length acc'))%nat as Hacc
    end.
    { destruct (candidate_seen acc _ l) eqn:Es.
      - split; [lia|]. destruct acc; [discriminate|cbn; lia].
      - rewrite length_app. cbn. lia. }
    exists cs. split; [exact Hcs|]. split; [lia|].
    intros _ ->. cbn in Hlen. lia.
Qed.

Lemma lemma_ids_loop_in_bounds (n : nat) (i : Z) (acc : list Z) :
  0 <= i -> i + Z.of_nat n <= entryCount bin ->
  Forall (fun id => 0 <= id < lemmaCount bin) acc ->
  exists ids, lemma_ids_loop bin n i acc = Some ids
    /\ Forall (fun id => 0 <= id < lemmaCount bin) ids
    /\ (length acc <= length ids)%nat /\ (0 < n -> ids <> [])%nat.
Proof.
  destruct (laid_out_counts bin L small) as [_ He].
  revert i acc. induction n as [|n IH]; intros i acc Hi Hend Hacc; cbn [lemma_ids_loop].
  - exists acc. repeat split; auto; lia.
  - rewrite u32_small by lia.
    destruct (region_u32 _ _ _ i (lo_entries _ L)) as (packed & Hp & Rp); [lia|].
    rewrite Hp. cbn [bind].
    assert (0 <= lemmaIdx (lemma_is_unpack_entry bin packed) < lemmaCount bin) as Hid.
    { split; [|eapply vb_lemma_ids; eauto; lia].
      unfold lemma_is_unpack_entry. destruct (version bin =? 1); cbn [lemmaIdx];
        apply Z.shiftr_nonneg; lia. }
    match goal with
    | |- context [lemma_ids_loop bin n (i + 1) ?acc'] =>
        assert (Forall (fun id => 0 <= id < lemmaCount bin) acc'
                /\ (length acc <= length acc')%nat /\ (0 < length acc')%nat)
          as (Hf & Hl1 & Hl2);
        [|destruct (IH (i + 1) acc') as (ids & Hids & Hfi & Hlen & _); [lia|lia|exact Hf|]]
    end.
    { destruct (existsb _ acc) eqn:Es.
      - split; [exact Hacc|]. split; [lia|]. destruct acc; [discriminate|cbn; lia].
      - split; [apply Forall_app; split; [exact Hacc|constructor; [exact Hid|constructor]]|].
        rewrite length_app. cbn. lia. }
    exists ids. split; [exact Hids|]. split; [exact Hfi|]. split; [lia|].
    intros _ ->. cbn in Hlen. lia.
Qed.

Lemma lemmas_of_ids_in_bounds (ids : list Z) :
  Forall (fun id => 0 <= id < lemmaCount bin) ids ->
  exists ls, lemmas_of_ids bin ids = Some ls /\ length ls = length ids.
Proof.
  induction 1 as [|id ids Hid _ IH]; cbn [lemmas_of_ids].
  - exists []. split; reflexivity.
  - destruct (get_lemma_in_bounds id Hid) as [l ->]. cbn [bind].
    destruct IH as (ls & -> & Hlen). cbn [bind].
    exists (l :: ls). split; [reflexivity|cbn; congruence].
Qed.

End InBounds.

(** ** The candidate resolver *)

Section ResolverProps.

Variable lowerstr : list byte -> list byte.
Variable bin : LemmaIsBinary.

(** On a dictionary whose stored values are in bounds, resolution
    returns. *)
Lemma resolver_in_bounds (word : list byte) :
  laid_out bin -> size bin < 2 ^ 32 -> values_in_bounds bin ->
  (exists cs, lemma_is_get_candidates lowerstr bin word = Some cs)
  /\ (exists r, icelandic_lexize lowerstr bin word = Some r).
Proof.
  intros L Hsmall V.
  destruct (laid_out_counts bin L Hsmall) as [Hw He].
  unfold lemma_is_get_candidates, icelandic_lexize. cbv zeta.
  destruct (find_word_in_bounds bin L Hsmall V (lowerstr word)) as (idx & -> & Hidx).
  cbn [bind]. destruct (idx <? 0) eqn:E; [split; eauto|].
  assert (0 <= idx < wordCount bin) as Hi by lia.
  rewrite (u32_small idx) by lia. rewrite u32_small by lia.
  destruct (region_u32 _ _ _ idx (lo_entryOffsets _ L)) as (s & Hs & Rs); [lia|].
  destruct (region_u32 _ _ _ (idx + 1) (lo_entryOffsets _ L)) as (e & He' & Re); [lia|].
  rewrite Hs, He'. cbn [bind].
  destruct (Z.ltb_spec e s) as [Hlt|Hge]; [split; eauto|].
  pose proof (vb_ranges _ V idx s ltac:(lia) Hs).
  pose proof (vb_ranges _ V (idx + 1) e ltac:(lia) He').
  rewrite (int32_id s), (int32_id e) by lia.
  split.
  - destruct (candidates_loop_in_bounds bin L Hsmall V (Z.to_nat (e - s)) s [])
      as (cs & -> & _); [lia|lia|]. cbn [bind].
    destruct (Z.of_nat (length cs) =? 0); eauto.
  - destruct (lemma_ids_loop_in_bounds bin L Hsmall V (Z.to_nat (e - s)) s [])
      as (ids & -> & Hids & _); [lia|lia|constructor|]. cbn [bind].
    destruct (Z.of_nat (length ids) =? 0); [eauto|].
    destruct (lemmas_of_ids_in_bounds bin L V ids Hids) as (ls & -> & _).
    cbn [bind]. eauto.
Qed.

(** The word is not in the index. *)
Lemma resolver_not_found (word : list byte) (idx : Z) :
  lemma_is_find_word bin (lowerstr word) = Some idx -> idx < 0 ->
  lemma_is_get_candidates lowerstr bin word = Some [fallback_candidate (lowerstr word)]
  /\ icelandic_lexize lowerstr bin word = Some (Some [lowerstr word]).
Proof.
  intros Hfind Hneg. unfold lemma_is_get_candidates, icelandic_lexize. cbv zeta.
  rewrite Hfind. cbn [bind]. destruct (Z.ltb_spec idx 0); [|lia]. split; reflexivity.
Qed.

(** The word is in the index, with the range [start .. end_). *)
Lemma resolver_found (word : list byte) (idx start end_ : Z) :
  lemma_is_find_word bin (lowerstr word) = Some idx -> 0 <= idx ->
  lemma_is_u32 (data bin) (entryOffsets bin) (u32 idx) = Some start ->
  lemma_is_u32 (data bin) (entryOffsets bin) (u32 (u32 idx + 1)) = Some end_ ->
  (start = end_ ->
     lemma_is_get_candidates lowerstr bin word = Some [fallback_candidate (lowerstr word)]
     /\ icelandic_lexize lowerstr bin word = Some (Some [lowerstr word]))
  /\ (end_ < start ->
        lemma_is_get_candidates lowerstr bin word = Some []
        /\ icelandic_lexize lowerstr bin word = Some None)
  /\ (start <= end_ ->
        (candidates_loop bin (Z.to_nat (int32 end_ - int32 start)) (int32 start) []
         = Some [] ->
         lemma_is_get_candidates lowerstr bin word
         = Some [fallback_candidate (lowerstr word)])
        /\ (lemma_ids_loop bin (Z.to_nat (int32 end_ - int32 start)) (int32 start) []
            = Some [] ->
            icelandic_lexize lowerstr bin word = Some (Some [lowerstr word]))
        /\ (forall cs, lemma_is_get_candidates lowerstr bin word = Some cs -> cs <> [])
        /\ (forall r, icelandic_lexize lowerstr bin word = Some r ->
              exists ls, r = Some ls /\ ls <> [])).
Proof.
  intros Hfind Hpos Hs He.
  unfold lemma_is_get_candidates, icelandic_lexize. cbv zeta.
  rewrite Hfind. cbn [bind]. destruct (Z.ltb_spec idx 0); [lia|].
  rewrite Hs, He. cbn [bind].
  split; [|split].
  - intros <-. rewrite Z.ltb_irrefl, Z.sub_diag. cbn. split; reflexivity.
  - intros Hlt. destruct (Z.ltb_spec end_ start); [|lia]. split; reflexivity.
  - intros Hle. destruct (Z.ltb_spec end_ start); [lia|].
    split; [|split; [|split]].
    + intros ->. reflexivity.
    + intros ->. reflexivity.
    + intros cs.
      destruct (candidates_loop bin _ _ []) as [cs'|]; [|discriminate]. cbn [bind].
      destruct (Z.eqb_spec (Z.of_nat (length cs')) 0) as [E|E].
      * intros [= <-]. discriminate.
      * intros [= <-] ->. apply E. reflexivity.
    + intros r.
      destruct (lemma_ids_loop bin _ _ []) as [ids|]; [|discriminate]. cbn [bind].
      destruct (Z.eqb_spec (Z.of_nat (length ids)) 0) as [E|E].
      * intros [= <-]. eexists. split; [reflexivity|discriminate].
      * destruct (lemmas_of_ids bin ids) as [ls|] eqn:El; [|discriminate].
        cbn [bind]. intros [= <-]. exists ls. split; [reflexivity|].
        intros ->. apply E. destruct ids; [reflexivity|].
        cbn [lemmas_of_ids] in El.
        destruct (lemma_is_get_lemma bin z); [|discriminate]. cbn [bind] in El.
        destruct (lemmas_of_ids bin ids); discriminate.
Qed.

End ResolverProps.

(** The dictionary of [reversed_range_image]. *)
Lemma reversed_range_loaded :
  exists bin, loaded reversed_range_image = Some bin
    /\ lemma_is_find_word bin (lit "a") = Some 0
    /\ lemma_is_u32 (data bin) (entryOffsets bin) 0 = Some 1
    /\ lemma_is_u32 (data bin) (entryOffsets bin) 1 = Some 0.
Proof. eexists. split; [reflexivity|]. repeat split. Qed.

(** C3, as stated, fails on the dictionary of [reversed_range_image], which
    the loader accepts: the word ["a"] is in its index with the range from 1
    to 0, and resolution returns no candidate at all, [icelandic_lexize] the
    SQL NULL. *)
Lemma resolver_returns_empty :
  exists bin, loaded reversed_range_image = Some bin
    /\ lemma_is_get_candidates (fun w => w) bin (lit "a") = Some []
    /\ icelandic_lexize (fun w => w) bin (lit "a") = Some None.
Proof. eexists. split; [reflexivity|]. split; reflexivity. Qed.

(** C3, amended: on a loaded dictionary whose stored values are in bounds,
    resolution and [icelandic_lexize] return for every word.  When the
    lower-cased word is not in the index, when it is found with an empty
    range, and when the loop keeps no candidate, the result is the single
    candidate made of the lower-cased word, the noun tag and zero
    morphology ([icelandic_lexize]: the lower-cased word alone).  When the
    stored range ends before it starts, the result is empty
    ([icelandic_lexize]: NULL).  In every other case the result is not
    empty. *)
Theorem resolver_fallback (lowerstr : list byte -> list byte)
    (bin : LemmaIsBinary) (word : list byte) :
  (laid_out bin -> size bin < 2 ^ 32 -> values_in_bounds bin ->
     (exists cs, lemma_is_get_candidates lowerstr bin word = Some cs)
     /\ (exists r, icelandic_lexize lowerstr bin word = Some r))
  /\ (forall idx,
        lemma_is_find_word bin (lowerstr word) = Some idx -> idx < 0 ->
        lemma_is_get_candidates lowerstr bin word
        = Some [mkCandidate (lowerstr word) POS_NO 0 0 0]
        /\ icelandic_lexize lowerstr bin word = Some (Some [lowerstr word]))
  /\ (forall idx start end_,
        lemma_is_find_word bin (lowerstr word) = Some idx -> 0 <= idx ->
        lemma_is_u32 (data bin) (entryOffsets bin) (u32 idx) = Some start ->
        lemma_is_u32 (data bin) (entryOffsets bin) (u32 (u32 idx + 1)) = Some end_ ->
        (start = end_ ->
           lemma_is_get_candidates lowerstr bin word
           = Some [mkCandidate (lowerstr word) POS_NO 0 0 0]
           /\ icelandic_lexize lowerstr bin word = Some (Some [lowerstr word]))
        /\ (end_ < start ->
              lemma_is_get_candidates lowerstr bin word = Some []
              /\ icelandic_lexize lowerstr bin word = Some None)
        /\ (start <= end_ ->
              (candidates_loop bin (Z.to_nat (int32 end_ - int32 start)) (int32 start) []
               = Some [] ->
               lemma_is_get_candidates lowerstr bin word
               = Some [mkCandidate (lowerstr word) POS_NO 0 0 0])
              /\ (lemma_ids_loop bin (Z.to_nat (int32 end_ - int32 start)) (int32 start) []
                  = Some [] ->
                  icelandic_lexize lowerstr bin word = Some (Some [lowerstr word]))
              /\ (forall cs, lemma_is_get_candidates lowerstr bin word = Some cs ->
                    cs <> [])
              /\ (forall r, icelandic_lexize lowerstr bin word = Some r ->
                    exists ls, r = Some ls /\ ls <> []))).
Proof.
  split; [|split].
  - apply resolver_in_bounds.
  - apply resolver_not_found.
  - apply resolver_found.
Qed.

(** ** The sample dictionary *)

Lemma below_cases (P : Z -> Prop) (n : nat) :
  Forall (fun k => P (Z.of_nat k)) (seq 0 n) ->
  forall i, 0 <= i < Z.of_nat n -> P i.
Proof.
  intros H i Hi. rewrite Forall_forall in H.
  replace i with (Z.of_nat (Z.to_nat i)) by lia.
  apply H. apply in_seq. lia.
Qed.

Ltac read_value H := vm_compute in H; injection H as H; subst.

Ltac by_computation := apply Z.leb_le || apply Z.ltb_lt; vm_compute; reflexivity.

Lemma sample_bin_loaded : lemma_is_load_binary sample_image = Loaded sample_bin.
Proof. vm_compute. reflexivity. Qed.

Lemma sample_bin_laid_out : laid_out sample_bin /\ size sample_bin < 2 ^ 32.
Proof.
  destruct (load_binary_laid_out sample_image sample_bin) as (L & _ & Hs).
  - by_computation.
  - exact sample_bin_loaded.
  - split; [exact L|]. rewrite Hs. by_computation.
Qed.

Lemma sample_values_in_bounds : values_in_bounds sample_bin.
Proof.
  constructor.
  - intros i off len Hi. revert off len.
    pattern i. apply below_cases with (n := 5%nat); [|exact Hi].
    repeat constructor; intros off len Ho Hl; read_value Ho; read_value Hl; by_computation.
  - intros i off len Hi. revert off len.
    pattern i. apply below_cases with (n := 4%nat); [|exact Hi].
    repeat constructor; intros off len Ho Hl; read_value Ho; read_value Hl; by_computation.
  - intros i v Hi. revert v.
    pattern i. apply below_cases with (n := 6%nat);
      [|change (wordCount sample_bin) with 5 in Hi; lia].
    repeat constructor; intros v Hv; read_value Hv; by_computation.
  - intros k packed Hk. revert packed.
    pattern k. apply below_cases with (n := 8%nat); [|exact Hk].
    repeat constructor; intros packed Hp; read_value Hp; by_computation.
Qed.

Lemma resolver_fallback_witness :
  (laid_out sample_bin /\ size sample_bin < 2 ^ 32 /\ values_in_bounds sample_bin)
  /\ (lemma_is_find_word sample_bin (lit "hross") = Some (-1) /\ -1 < 0)
  /\ lemma_is_get_candidates (fun w => w) sample_bin (lit "hross")
     = Some [mkCandidate (lit "hross") POS_NO 0 0 0]
  /\ exists cs, lemma_is_get_candidates (fun w => w) sample_bin (lit "fer") = Some cs.
Proof.
  destruct sample_bin_laid_out as [L Hs]. pose proof sample_values_in_bounds as V.
  split; [auto|].
  assert (Hfind : lemma_is_find_word sample_bin (lit "hross") = Some (-1))
    by (vm_compute; reflexivity).
  split; [split; [exact Hfind|lia]|].
  split.
  - destruct (resolver_fallback (fun w => w) sample_bin (lit "hross")) as (_ & Hnot & _).
    exact (proj1 (Hnot (-1) Hfind ltac:(lia))).
  - destruct (resolver_fallback (fun w => w) sample_bin (lit "fer")) as (Hret & _).
    exact (proj1 (Hret L Hs V)).
Defined.

(** ** Stored values are not validated *)

(** C10: the loader checks the regions and nothing inside them.  It accepts
    a dictionary whose word view lies outside the string pool, one whose entry
    names a lemma id beyond the lemma table, and one whose entry range runs
    past the entry table; on each of them the lookup of the word reads
    outside the buffer.  Under the precondition that every stored offset,
    length, lemma id and entry-range value is in bounds, the reads of
    [lemma_is_get_lemma], of the resolver and of [icelandic_lexize] all stay
    inside the buffer on every loaded dictionary. *)
Theorem stored_values_unchecked :
  (exists bin, lemma_is_load_binary stray_view_image = Loaded bin
     /\ lemma_is_find_word bin (lit "a") = None
     /\ lemma_is_get_candidates (fun w => w) bin (lit "a") = None)
  /\ (exists bin, lemma_is_load_binary stray_lemma_image = Loaded bin
        /\ lemma_is_find_word bin (lit "a") = Some 0
        /\ lemma_is_get_lemma bin 5 = None
        /\ lemma_is_get_candidates (fun w => w) bin (lit "a") = None)
  /\ (exists bin, lemma_is_load_binary stray_range_image = Loaded bin
        /\ lemma_is_find_word bin (lit "a") = Some 0
        /\ lemma_is_u32 (data bin) (entries bin) 1 = None
        /\ lemma_is_get_candidates (fun w => w) bin (lit "a") = None)
  /\ (forall (d : list byte) (bin : LemmaIsBinary),
        Z.of_nat (length d) < 2 ^ 32 ->
        lemma_is_load_binary d = Loaded bin ->
        values_in_bounds bin ->
        (forall idx, 0 <= idx < lemmaCount bin ->
           exists l, lemma_is_get_lemma bin idx = Some l)
        /\ (forall lowerstr word,
              (exists cs, lemma_is_get_candidates lowerstr bin word = Some cs)
              /\ (exists r, icelandic_lexize lowerstr bin word = Some r))).
Proof.
  split; [|split; [|split]].
  - eexists. split; [vm_compute; reflexivity|]. split; vm_compute; reflexivity.
  - eexists. split; [vm_compute; reflexivity|]. repeat split; vm_compute; reflexivity.
  - eexists. split; [vm_compute; reflexivity|]. repeat split; vm_compute; reflexivity.
  - intros d bin Hsize Hload V.
    destruct (load_binary_laid_out d bin Hsize Hload) as (L & _ & Hs).
    assert (size bin < 2 ^ 32) as Hsmall by lia.
    split.
    + intros idx Hidx. apply get_lemma_in_bounds; assumption.
    + intros lowerstr word. apply resolver_in_bounds; assumption.
Qed.

Lemma stored_values_unchecked_witness :
  (Z.of_nat (length sample_image) < 2 ^ 32
   /\ lemma_is_load_binary sample_image = Loaded sample_bin
   /\ values_in_bounds sample_bin)
  /\ (exists l, lemma_is_get_lemma sample_bin 2 = Some l)
  /\ (exists cs, lemma_is_get_candidates (fun w => w) sample_bin (lit "hestur") = Some cs).
Proof.
  assert (Hsize : Z.of_nat (length sample_image) < 2 ^ 32) by by_computation.
  pose proof sample_bin_loaded as Hload. pose proof sample_values_in_bounds as V.
  split; [auto|].
  destruct stored_values_unchecked as (_ & _ & _ & Hin).
  destruct (Hin sample_image sample_bin Hsize Hload V) as [Hlemma Hres].
  split.
  - apply Hlemma. split; [lia|by_computation].
  - exact (proj1 (Hres (fun w => w) (lit "hestur"))).
Defined.

(** ** The bigram disambiguator *)

Section DisambiguatorProps.

Context {D : DoubleOps} {O : DoubleOrder D}.

Variable bin : LemmaIsBinary.
Variables prev next : list LemmaCandidate.

Lemma add_freq_zero (score : double) : add_freq score 0 = score.
Proof. reflexivity. Qed.

Lemma score_prev_no_match (c : LemmaCandidate) (ps : list LemmaCandidate) (score : double) :
  (forall p, In p ps -> lemma_is_bigram_freq bin (lemma p) (lemma c) = Some 0) ->
  score_prev bin ps c score = Some score.
Proof.
  induction ps as [|p ps IH]; intros H; cbn [score_prev]; [reflexivity|].
  rewrite (H p) by (left; reflexivity). cbn [bind]. rewrite add_freq_zero.
  apply IH. intros q Hq. apply H. right. exact Hq.
Qed.

Lemma score_next_no_match (c : LemmaCandidate) (ns : list LemmaCandidate) (score : double) :
  (forall n, In n ns -> lemma_is_bigram_freq bin (lemma c) (lemma n) = Some 0) ->
  score_next bin ns c score = Some score.
Proof.
  induction ns as [|n ns IH]; intros H; cbn [score_next]; [reflexivity|].
  rewrite (H n) by (left; reflexivity). cbn [bind]. rewrite add_freq_zero.
  apply IH. intros q Hq. apply H. right. exact Hq.
Qed.

Lemma candidate_score_no_match (c : LemmaCandidate) :
  (forall p, In p prev -> lemma_is_bigram_freq bin (lemma p) (lemma c) = Some 0) ->
  (forall n, In n next -> lemma_is_bigram_freq bin (lemma c) (lemma n) = Some 0) ->
  candidate_score bin prev next c = Some d_zero.
Proof.
  intros Hp Hn. unfold candidate_score.
  rewrite score_prev_no_match by exact Hp. cbn [bind].
  apply score_next_no_match. exact Hn.
Qed.

(** The loop of the code scores the candidates one by one and selects
    among the scores. *)
Lemma score_loop_select (cs : list LemmaCandidate) (i : nat) (st st' : ScoreState) :
  score_loop bin prev next cs i st = Some st' ->
  exists ss, Forall2 (fun c s => candidate_score bin prev next c = Some s) cs ss
             /\ st' = select_loop ss i st.
Proof.
  revert i st. induction cs as [|c cs IH]; intros i st H; cbn [score_loop] in H.
  - injection H as <-. exists []. split; [constructor|reflexivity].
  - destruct (candidate_score bin prev next c) as [s|] eqn:Es; [|discriminate].
    cbn [bind] in H. destruct (IH _ _ H) as (ss & Hss & ->).
    exists (s :: ss). split; [constructor; assumption|reflexivity].
Qed.

Lemma select_loop_scores (ss : list double) (i : nat) (st : ScoreState) :
  scores (select_loop ss i st) = scores st ++ ss.
Proof.
  revert i st. induction ss as [|s ss IH]; intros i st; cbn [select_loop].
  - rewrite app_nil_r. reflexivity.
  - rewrite IH. unfold score_step. destruct (d_gt s (best_score st)); cbn [scores];
      rewrite <- app_assoc; reflexivity.
Qed.

Lemma score_step_selected (st : ScoreState) (s : double) :
  selected st -> selected (score_step st (length (scores st)) s).
Proof.
  intros [Hmax Hfirst]. unfold score_step.
  destruct (d_gt s (best_score st)) eqn:Egt; constructor; cbn [scores best_score best_idx].
  - intros k x Hk. destruct (Nat.lt_ge_cases k (length (scores st))) as [Hlt|Hge].
    + rewrite nth_error_app1 in Hk by exact Hlt.
      destruct (d_gt x s) eqn:Ex; [|reflexivity].
      pose proof (Hmax k x Hk) as Hx. rewrite (d_gt_trans _ _ _ Ex Egt) in Hx.
      discriminate.
    + rewrite nth_error_app2 in Hk by exact Hge.
      destruct (k - length (scores st))%nat as [|m]; cbn in Hk;
        [injection Hk as <-; apply d_gt_irrefl|destruct m; discriminate].
  - right. split; [|split].
    + rewrite nth_error_app2, Nat.sub_diag by lia. reflexivity.
    + destruct Hfirst as [[Hz _]|(_ & Hpos & _)].
      * rewrite <- Hz. exact Egt.
      * exact (d_gt_trans _ _ _ Egt Hpos).
    + intros k x Hk Hx Heq. rewrite nth_error_app1 in Hx by exact Hk.
      subst x. rewrite (Hmax k s Hx) in Egt. discriminate Egt.
  - intros k x Hk. destruct (Nat.lt_ge_cases k (length (scores st))) as [Hlt|Hge].
    + rewrite nth_error_app1 in Hk by exact Hlt. exact (Hmax k x Hk).
    + rewrite nth_error_app2 in Hk by exact Hge.
      destruct (k - length (scores st))%nat as [|m]; cbn in Hk;
        [injection Hk as <-; exact Egt|destruct m; discriminate].
  - destruct Hfirst as [Hz|(Hnth & Hpos & Hbefore)]; [left; exact Hz|right].
    assert (best_idx st < length (scores st))%nat as Hb
      by (apply nth_error_Some; congruence).
    split; [|split].
    + rewrite nth_error_app1 by exact Hb. exact Hnth.
    + exact Hpos.
    + intros k x Hk Hx. rewrite nth_error_app1 in Hx by lia. exact (Hbefore k x Hk Hx).
Qed.

Lemma select_loop_selected (ss : list double) (st : ScoreState) :
  selected st -> selected (select_loop ss (length (scores st)) st).
Proof.
  revert st. induction ss as [|s ss IH]; intros st Hst; cbn [select_loop]; [exact Hst|].
  pose proof (score_step_selected st s Hst) as Hstep.
  replace (S (length (scores st)))
    with (length (scores (score_step st (length (scores st)) s))).
  - apply IH. exact Hstep.
  - unfold score_step. destruct (d_gt s (best_score st)); cbn [scores];
      rewrite length_app; cbn; lia.
Qed.

Lemma select_loop_zero (ss : list double) (i : nat) (st : ScoreState) :
  Forall (fun s => s = d_zero) ss -> best_score st = d_zero ->
  best_score (select_loop ss i st) = d_zero
  /\ best_idx (select_loop ss i st) = best_idx st.
Proof.
  intros Hall. revert i st. induction Hall as [|s ss -> _ IH]; intros i st Hz;
    cbn [select_loop]; [split; [exact Hz|reflexivity]|].
  unfold score_step. rewrite Hz, d_gt_irrefl.
  apply (IH (S i) (mkScoreState (scores st ++ [d_zero]) d_zero (best_idx st))).
  reflexivity.
Qed.

Lemma initial_selected : selected initial_state.
Proof.
  constructor; cbn.
  - intros [|k] s H; discriminate.
  - left. split; reflexivity.
Qed.

(** The outputs in terms of the final state of the loop. *)
Lemma disambiguate_outputs (c : LemmaCandidate) (cs : list LemmaCandidate)
    (st : ScoreState) :
  score_loop bin prev next (c :: cs) 0%nat initial_state = Some st ->
  exists r, lemma_is_disambiguate_bigram bin (c :: cs) prev next = Some (Some r)
    /\ out_lemma r = lemma (nth (best_idx st) (c :: cs) c)
    /\ out_pos r = pos (nth (best_idx st) (c :: cs) c)
    /\ out_by_bigram r = d_gt (best_score st) d_zero
    /\ (d_gt (best_score st) d_zero = false -> out_confidence r = d_zero).
Proof.
  intros H. unfold lemma_is_disambiguate_bigram. fold initial_state. rewrite H.
  cbn [bind]. destruct (d_gt (best_score st) d_zero) eqn:E; eexists;
    (split; [reflexivity|]); cbn; repeat split; congruence.
Qed.

(** Without bigram evidence the first candidate is returned. *)
Lemma disambiguate_no_evidence (c : LemmaCandidate) (cs : list LemmaCandidate) :
  (forall x, In x (c :: cs) -> candidate_score bin prev next x = Some d_zero) ->
  lemma_is_disambiguate_bigram bin (c :: cs) prev next
  = Some (Some (mkDisambiguation (lemma c) (pos c) d_zero false)).
Proof.
  intros Hzero.
  assert (forall xs i st, (forall x, In x xs -> candidate_score bin prev next x = Some d_zero) ->
            score_loop bin prev next xs i st
            = Some (select_loop (map (fun _ => d_zero) xs) i st)) as Hnone.
  { induction xs as [|x xs IH]; intros i st Hx; cbn [score_loop map select_loop];
      [reflexivity|].
    rewrite (Hx x) by (left; reflexivity). cbn [bind].
    apply IH. intros y Hy. apply Hx. right. exact Hy. }
  unfold lemma_is_disambiguate_bigram. rewrite (Hnone _ _ _ Hzero). cbn [bind].
  destruct (select_loop_zero (map (fun _ => d_zero) (c :: cs)) 0%nat
              (mkScoreState [] d_zero 0%nat)) as [Hbs Hbi]; [|reflexivity|].
  { apply Forall_forall. intros s Hs. apply in_map_iff in Hs.
    destruct Hs as (_ & <- & _). reflexivity. }
  rewrite Hbs, Hbi, d_gt_irrefl. reflexivity.
Qed.

(** A single candidate is returned whatever its score, and bigrams count
    as used when the score is above zero. *)
Lemma disambiguate_single (c : LemmaCandidate) (s : double) :
  candidate_score bin prev next c = Some s ->
  exists confidence,
    lemma_is_disambiguate_bigram bin [c] prev next
    = Some (Some (mkDisambiguation (lemma c) (pos c) confidence (d_gt s d_zero))).
Proof.
  intros Hs. unfold lemma_is_disambiguate_bigram. cbn [score_loop]. rewrite Hs.
  cbn [bind]. unfold score_step. cbn [best_score scores best_idx].
  destruct (d_gt s d_zero) eqn:E; cbn [best_score scores best_idx nth].
  - rewrite E. eexists. reflexivity.
  - rewrite d_gt_irrefl. eexists. reflexivity.
Qed.

End DisambiguatorProps.

(** C4: a candidate none of whose bigrams with the neighbours is in the
    index scores exactly 0.0.  After the loop no score is above the best
    score; the best score is the initial 0.0 with the first candidate, or it
    is above 0.0 and belongs to the candidate the function returns, before
    which no candidate has the same score: a later candidate replaces the
    best one only with a strictly greater score, so that the first of equal
    candidates is kept.  When every score is 0.0, as it is when both
    neighbour lists are empty, the function returns the first candidate,
    confidence 0.0 and [false] for the use of bigrams. *)
Theorem disambiguate_strict_max {D : DoubleOps} {O : DoubleOrder D}
    (bin : LemmaIsBinary) (c : LemmaCandidate) (cs prev next : list LemmaCandidate) :
  (forall x,
     (forall p, In p prev -> lemma_is_bigram_freq bin (lemma p) (lemma x) = Some 0) ->
     (forall n, In n next -> lemma_is_bigram_freq bin (lemma x) (lemma n) = Some 0) ->
     candidate_score bin prev next x = Some d_zero)
  /\ (forall st,
        score_loop bin prev next (c :: cs) 0%nat (mkScoreState [] d_zero 0%nat) = Some st ->
        Forall2 (fun x s => candidate_score bin prev next x = Some s) (c :: cs) (scores st)
        /\ (forall k s, nth_error (scores st) k = Some s -> d_gt s (best_score st) = false)
        /\ ((best_score st = d_zero /\ best_idx st = 0%nat)
            \/ (nth_error (scores st) (best_idx st) = Some (best_score st)
                /\ d_gt (best_score st) d_zero = true
                /\ forall k s, (k < best_idx st)%nat ->
                     nth_error (scores st) k = Some s -> s <> best_score st))
        /\ (exists r, lemma_is_disambiguate_bigram bin (c :: cs) prev next = Some (Some r)
              /\ out_lemma r = lemma (nth (best_idx st) (c :: cs) c)
              /\ out_pos r = pos (nth (best_idx st) (c :: cs) c)
              /\ out_by_bigram r = d_gt (best_score st) d_zero)
        /\ (Forall (fun s => s = d_zero) (scores st) ->
            lemma_is_disambiguate_bigram bin (c :: cs) prev next
            = Some (Some (mkDisambiguation (lemma c) (pos c) d_zero false))))
  /\ lemma_is_disambiguate_bigram bin (c :: cs) [] []
     = Some (Some (mkDisambiguation (lemma c) (pos c) d_zero false)).
Proof.
  split; [|split].
  - intros x. apply candidate_score_no_match.
  - intros st Hloop. fold (@initial_state D) in Hloop.
    destruct (score_loop_select bin prev next _ _ _ _ Hloop) as (ss & Hss & Hst).
    assert (scores st = ss) as Hscores
      by (rewrite Hst, select_loop_scores; reflexivity).
    pose proof (select_loop_selected ss initial_state initial_selected) as Hsel.
    cbn [initial_state scores length] in Hsel. fold (@initial_state D) in Hsel.
    rewrite <- Hst in Hsel. destruct Hsel as [Hmax Hfirst].
    destruct (disambiguate_outputs bin prev next c cs st Hloop)
      as (r & Hr & Hl & Hp & Hb & Hc).
    split; [rewrite Hscores; exact Hss|]. split; [exact Hmax|]. split; [exact Hfirst|].
    split; [exists r; auto|].
    intros Hzero. rewrite Hscores in Hzero.
    destruct (select_loop_zero ss 0%nat initial_state Hzero eq_refl) as [Hbs Hbi].
    rewrite <- Hst in Hbs, Hbi. cbn [initial_state best_idx] in Hbi.
    rewrite Hr. do 2 f_equal.
    rewrite Hbs, d_gt_irrefl in Hb, Hc. rewrite Hbi in Hl, Hp. cbn [nth] in Hl, Hp.
    destruct r as [rl rp rc rb]. cbn in *. rewrite Hl, Hp, Hb, (Hc eq_refl). reflexivity.
  - apply disambiguate_no_evidence. intros x _. reflexivity.
Qed.

(** *** Over the real numbers *)

#[local] Instance real_double_order : DoubleOrder real_double.
Proof.
  constructor; cbn.
  - intros x. destruct (Rgt_dec x x) as [H|H]; [lra|reflexivity].
  - intros x y z. destruct (Rgt_dec x y), (Rgt_dec y z), (Rgt_dec x z);
      intros; try reflexivity; try discriminate; lra.
Qed.

Lemma real_log_positive (freq : Z) :
  0 < freq -> @d_gt real_double (add_freq d_zero freq) d_zero = true.
Proof.
  intros H. unfold add_freq. destruct (Z.gtb_spec freq 0) as [_|]; [|lia]. cbn.
  destruct (Rgt_dec (0 + ln (IZR freq + 1)) 0) as [_|Hn]; [reflexivity|].
  exfalso. apply Hn. rewrite Rplus_0_l, <- ln_1. apply ln_increasing; [lra|].
  assert (0 < IZR freq)%R by (apply IZR_lt; exact H). lra.
Qed.

Lemma score_after_hestur :
  @candidate_score real_double sample_bin [cand_hestur] [] cand_far = Some d_zero
  /\ @candidate_score real_double sample_bin [cand_hestur] [] cand_fara
     = Some (@add_freq real_double d_zero 7).
Proof.
  assert (Hfar : lemma_is_bigram_freq sample_bin (lit "hestur") (lit "far") = Some 0)
    by (vm_compute; reflexivity).
  assert (Hfara : lemma_is_bigram_freq sample_bin (lit "hestur") (lit "fara") = Some 7)
    by (vm_compute; reflexivity).
  unfold candidate_score, score_prev, score_next, cand_far, cand_fara, cand_hestur.
  cbn [lemma]. rewrite Hfar, Hfara. split; reflexivity.
Qed.

(** After [hestur], the word [fer] is read as the verb [fara]: the bigram
    [(hestur, fara)] is in the index and [(hestur, far)] is not. *)
Example disambiguate_by_bigram :
  exists confidence,
    @lemma_is_disambiguate_bigram real_double sample_bin
      [cand_far; cand_fara] [cand_hestur] []
    = Some (Some (mkDisambiguation (lit "fara") POS_SO confidence true)).
Proof.
  destruct score_after_hestur as [Hfar Hfara].
  pose proof (real_log_positive 7 ltac:(lia)) as Hpos.
  unfold lemma_is_disambiguate_bigram. cbn [score_loop].
  rewrite Hfar, Hfara. cbn [bind].
  unfold score_step. cbn [best_score scores best_idx].
  rewrite d_gt_irrefl. cbn [best_score scores best_idx].
  rewrite Hpos. cbn [best_score scores best_idx app nth].
  rewrite Hpos. eexists. reflexivity.
Qed.

(** Two readings with the same lemma have the same score, and the first one
    is returned. *)
Example disambiguate_tie_keeps_first :
  exists confidence,
    @lemma_is_disambiguate_bigram real_double sample_bin
      [cand_fara; mkCandidate (lit "fara") POS_NO 0 0 0] [cand_hestur] []
    = Some (Some (mkDisambiguation (lit "fara") POS_SO confidence true)).
Proof.
  destruct score_after_hestur as [_ Hfara].
  pose proof (real_log_positive 7 ltac:(lia)) as Hpos.
  unfold lemma_is_disambiguate_bigram. cbn [score_loop].
  change (@candidate_score real_double sample_bin [cand_hestur] []
            (mkCandidate (lit "fara") POS_NO 0 0 0))
    with (@candidate_score real_double sample_bin [cand_hestur] [] cand_fara).
  rewrite Hfara. cbn [bind].
  unfold score_step. cbn [best_score scores best_idx].
  rewrite Hpos. cbn [best_score scores best_idx].
  rewrite d_gt_irrefl. cbn [best_score scores best_idx app nth].
  rewrite Hpos. eexists. reflexivity.
Qed.

Lemma disambiguate_strict_max_witness :
  ((forall p, In p [cand_hestur] ->
      lemma_is_bigram_freq sample_bin (lemma p) (lemma cand_far) = Some 0)
   /\ (forall n, In n [] ->
         lemma_is_bigram_freq sample_bin (lemma cand_far) (lemma n) = Some 0))
  /\ @candidate_score real_double sample_bin [cand_hestur] [] cand_far = Some d_zero
  /\ (@score_loop real_double sample_bin [] [] [cand_fara; cand_far] 0%nat
        (mkScoreState [] d_zero 0%nat)
      = Some (mkScoreState [d_zero; d_zero] d_zero 0%nat)
      /\ Forall (fun s => s = @d_zero real_double) [d_zero; d_zero])
  /\ @lemma_is_disambiguate_bigram real_double sample_bin [cand_fara; cand_far] [] []
     = Some (Some (mkDisambiguation (lit "fara") POS_SO d_zero false)).
Proof.
  assert (Hp : forall p, In p [cand_hestur] ->
             lemma_is_bigram_freq sample_bin (lemma p) (lemma cand_far) = Some 0).
  { intros p [<-|[]]. vm_compute. reflexivity. }
  assert (Hn : forall n, In n [] ->
             lemma_is_bigram_freq sample_bin (lemma cand_far) (lemma n) = Some 0).
  { intros n []. }
  assert (Hloop : @score_loop real_double sample_bin [] [] [cand_fara; cand_far] 0%nat
                    (mkScoreState [] d_zero 0%nat)
                  = Some (mkScoreState [d_zero; d_zero] d_zero 0%nat)).
  { cbn [score_loop candidate_score score_prev score_next bind]. unfold score_step.
    cbn [best_score scores best_idx]. rewrite d_gt_irrefl.
    cbn [best_score scores best_idx]. rewrite d_gt_irrefl. reflexivity. }
  assert (Hzero : Forall (fun s => s = @d_zero real_double) [d_zero; d_zero])
    by (repeat constructor).
  split; [split; assumption|].
  destruct (@disambiguate_strict_max real_double _ sample_bin cand_fara [cand_far]
              [cand_hestur] []) as (Hscore & _ & _).
  destruct (@disambiguate_strict_max real_double _ sample_bin cand_fara [cand_far]
              [] []) as (_ & Hst & _).
  split; [exact (Hscore cand_far Hp Hn)|]. split; [split; assumption|].
  destruct (Hst _ Hloop) as (_ & _ & _ & _ & Hall).
  exact (Hall Hzero).
Defined.

(** ** The stopword filter *)

Lemma strcmp_lex (a b : list byte) :
  match lex a b with
  | Lt => strcmp a b < 0
  | Eq => strcmp a b = 0
  | Gt => strcmp a b > 0
  end.
Proof.
  revert b. induction a as [|x a IH]; intros [|y b]; cbn [lex strcmp]; try lia.
  specialize (IH b).
  pose proof (byte_val_range x). pose proof (byte_val_range y).
  destruct (Z.compare_spec (byte_val x) (byte_val y)) as [E|E|E].
  - rewrite E, Z.eqb_refl. exact IH.
  - destruct (byte_val x =? byte_val y) eqn:Eb; lia.
  - destruct (byte_val x =? byte_val y) eqn:Eb; lia.
Qed.

Lemma strcmp_zero (a b : list byte) : strcmp a b = 0 <-> a = b.
Proof.
  pose proof (strcmp_lex a b) as H. split.
  - intros Hz. apply lex_eq. destruct (lex a b); [reflexivity|lia|lia].
  - intros ->. rewrite lex_refl in H. exact H.
Qed.

Lemma strcmp_lt_trans (a b c : list byte) :
  strcmp a b < 0 -> strcmp b c < 0 -> strcmp a c < 0.
Proof.
  pose proof (strcmp_lex a b). pose proof (strcmp_lex b c). pose proof (strcmp_lex a c).
  intros Hab Hbc.
  assert (lex a c = Lt) as E.
  { apply (lex_le_lt a b c).
    - destruct (lex a b); [discriminate|discriminate|lia].
    - destruct (lex b c); [lia|reflexivity|lia]. }
  rewrite E in *. assumption.
Qed.

Lemma strcmp_gt_lt (a b c : list byte) :
  strcmp a b > 0 -> strcmp c b < 0 -> strcmp a c > 0.
Proof.
  pose proof (strcmp_lex a b). pose proof (strcmp_lex c b). pose proof (strcmp_lex a c).
  intros Hab Hcb.
  destruct (lex a c) eqn:E; [| |assumption]; exfalso.
  - apply lex_eq in E. subst c. lia.
  - assert (lex a b = Lt) as E'.
    { apply (lex_le_lt a c b); [congruence|]. destruct (lex c b); [lia|reflexivity|lia]. }
    rewrite E' in *. lia.
Qed.

Section Bsearch.

Variable compar : nat -> Z.
Variable n : nat.

Hypothesis before : forall i j, (i < j < n)%nat -> compar i < 0 -> compar j < 0.
Hypothesis after : forall i j, (i < j < n)%nat -> compar j > 0 -> compar i > 0.

Lemma bsearch_loop_spec (fuel l u : nat) :
  (u <= n)%nat -> (u - l < fuel)%nat ->
  (forall i, (i < l)%nat -> compar i > 0) ->
  (forall i, (u <= i < n)%nat -> compar i < 0) ->
  match bsearch_loop compar fuel l u with
  | Some idx => (idx < n)%nat /\ compar idx = 0
  | None => forall i, (i < n)%nat -> compar i <> 0
  end.
Proof.
  revert l u. induction fuel as [|fuel IH]; intros l u Hu Hfuel Hlo Hhi; [lia|].
  cbn [bsearch_loop]. destruct (Nat.ltb_spec l u) as [Hlt|Hge].
  - set (idx := ((l + u) / 2)%nat).
    assert (l <= idx < u)%nat as Hidx.
    { subst idx. split.
      - apply Nat.div_le_lower_bound; lia.
      - apply Nat.Div0.div_lt_upper_bound; lia. }
    destruct (Z.ltb_spec (compar idx) 0) as [Hneg|Hnn].
    + apply IH; try lia; [exact Hlo|].
      intros i Hi. destruct (Nat.eq_dec i idx) as [->|Hne]; [exact Hneg|].
      apply (before idx i); [lia|exact Hneg].
    + destruct (Z.gtb_spec (compar idx) 0) as [Hpos|Hz].
      * apply IH; try lia; [|exact Hhi].
        intros i Hi. destruct (Nat.eq_dec i idx) as [->|Hne]; [lia|].
        apply (after i idx); [lia|lia].
      * split; lia.
  - intros i Hi. destruct (Nat.lt_ge_cases i l) as [H|H].
    + specialize (Hlo i H). lia.
    + specialize (Hhi i ltac:(lia)). lia.
Qed.

End Bsearch.

(** [bsearch] over a table sorted on its keys finds the entry of a key that
    is there, and nothing for a key that is not. *)
Lemma bsearch_sorted {E : Type} (key_of : E -> list byte) (key : list byte) (base : list E) :
  strictly_sorted (map key_of base) ->
  match bsearch (fun k e => strcmp k (key_of e)) key base with
  | Some e => In e base /\ key_of e = key
  | None => ~ In key (map key_of base)
  end.
Proof.
  intros Hsorted. unfold bsearch. destruct base as [|e0 rest] eqn:Ebase; [intros []|].
  rewrite <- Ebase in *. clear Ebase rest.
  set (compar := fun i => strcmp key (key_of (nth i base e0))).
  assert (Hkey : forall i, (i < length base)%nat ->
            nth_error (map key_of base) i = Some (key_of (nth i base e0))).
  { intros i Hi. rewrite nth_error_map, (nth_error_nth' base e0 Hi). reflexivity. }
  pose proof (bsearch_loop_spec compar (length base)) as Hspec.
  specialize (Hspec
    ltac:(intros i j Hij Hc; subst compar; cbn beta in *;
          pose proof (Hsorted i j _ _ ltac:(lia) (Hkey i ltac:(lia)) (Hkey j ltac:(lia)));
          eapply strcmp_lt_trans; eassumption)
    ltac:(intros i j Hij Hc; subst compar; cbn beta in *;
          pose proof (Hsorted i j _ _ ltac:(lia) (Hkey i ltac:(lia)) (Hkey j ltac:(lia)));
          eapply strcmp_gt_lt; eassumption)
    (S (length base)) 0%nat (length base) ltac:(lia) ltac:(lia)
    ltac:(intros i Hi; lia) ltac:(intros i Hi; lia)).
  fold compar.
  destruct (bsearch_loop compar (S (length base)) 0 (length base)) as [idx|].
  - destruct Hspec as [Hidx Hz]. rewrite (nth_error_nth' base e0 Hidx).
    subst compar. cbn beta in Hz. apply strcmp_zero in Hz.
    split; [apply nth_In; exact Hidx|congruence].
  - intros Hin. apply In_nth_error in Hin. destruct Hin as [i Hi].
    assert (i < length base)%nat as Hlt.
    { rewrite <- (length_map key_of). apply nth_error_Some. congruence. }
    apply (Hspec i Hlt). subst compar. cbn beta.
    rewrite (Hkey i Hlt) in Hi. injection Hi as ->. apply strcmp_zero. reflexivity.
Qed.

Lemma strictly_sorted_unique (keys : list (list byte)) (i j : nat) (k : list byte) :
  strictly_sorted keys -> nth_error keys i = Some k -> nth_error keys j = Some k -> i = j.
Proof.
  intros Hs Hi Hj.
  destruct (Nat.lt_trichotomy i j) as [H|[H|H]]; [exfalso|exact H|exfalso].
  - pose proof (Hs i j k k H Hi Hj) as Hc.
    rewrite (proj2 (strcmp_zero k k) eq_refl) in Hc. lia.
  - pose proof (Hs j i k k H Hj Hi) as Hc.
    rewrite (proj2 (strcmp_zero k k) eq_refl) in Hc. lia.
Qed.

Lemma strictly_sortedb_sound (keys : list (list byte)) :
  strictly_sortedb keys = true -> strictly_sorted keys.
Proof.
  induction keys as [|x l IH]; intros H i j a b Hij Hi Hj.
  - destruct i; discriminate.
  - cbn [strictly_sortedb] in H. apply andb_prop in H. destruct H as [Hx Hl].
    destruct j as [|j]; [lia|]. cbn [nth_error] in Hj.
    destruct i as [|i].
    + cbn in Hi. injection Hi as <-.
      rewrite forallb_forall in Hx. apply Z.ltb_lt. apply Hx.
      eapply nth_error_In. exact Hj.
    + cbn [nth_error] in Hi. apply (IH Hl i j); [lia|exact Hi|exact Hj].
Qed.

(** The test [(pos_mask & (1 << pos)) != 0] is the bit [pos] of the mask. *)
Lemma mask_test (mask n : Z) :
  0 <= n < 16 -> negb (Z.land (u16 mask) (Z.shiftl 1 n) =? 0) = Z.testbit mask n.
Proof.
  intros Hn. rewrite Z.shiftl_1_l.
  assert (Z.testbit (Z.land (u16 mask) (2 ^ n)) n = Z.testbit mask n) as Hbit.
  { rewrite Z.land_spec, Z.pow2_bits_true, andb_true_r by lia.
    unfold u16. apply Z.mod_pow2_bits_low. lia. }
  destruct (Z.eqb_spec (Z.land (u16 mask) (2 ^ n)) 0) as [E|E]; cbn [negb].
  - rewrite E, Z.bits_0 in Hbit. exact Hbit.
  - destruct (Z.testbit mask n) eqn:Et; [reflexivity|]. exfalso. apply E.
    apply Z.bits_inj'. intros k Hk. rewrite Z.land_spec, Z.bits_0.
    destruct (Z.eq_dec k n) as [->|Hne]; [rewrite <- Z.land_spec; exact Hbit|].
    rewrite Z.pow2_bits_false by lia. apply andb_false_r.
Qed.

Lemma existsb_strcmp (acc : list (list byte)) (x : list byte) :
  existsb (fun t => strcmp t x =? 0) acc = true <-> In x acc.
Proof.
  rewrite existsb_exists. split.
  - intros (t & Ht & Hz). apply Z.eqb_eq, strcmp_zero in Hz. subst t. exact Ht.
  - intros H. exists x. split; [exact H|]. apply Z.eqb_eq, strcmp_zero. reflexivity.
Qed.

(** The lemmas a token keeps: those of its candidates, without the
    disambiguated one when it is filtered. *)
Lemma token_lemmas_fold_in (f : bool) (dl : option (list byte))
    (cands : list LemmaCandidate) (acc : list (list byte)) (x : list byte) :
  In x (fold_left (token_lemmas_step f dl) cands acc) <->
  In x acc \/ (In x (map lemma cands) /\ ~ (f = true /\ dl = Some x)).
Proof.
  revert acc. induction cands as [|c cands IH]; intros acc; cbn [fold_left map].
  - cbn. tauto.
  - rewrite IH. unfold token_lemmas_step.
    destruct (existsb (fun t => strcmp t (lemma c) =? 0) acc) eqn:Eseen.
    + apply existsb_strcmp in Eseen. cbn [In]. split.
      * intros [H|[H Hn]]; [left; exact H|right; split; [right; exact H|exact Hn]].
      * intros [H|[[H|H] Hn]]; [left; exact H|left; subst x; exact Eseen|right; tauto].
    + assert (~ In (lemma c) acc) as Hnot
        by (intros H; apply existsb_strcmp in H; congruence).
      destruct f; cbn [andb].
      * destruct dl as [d|].
        -- destruct (Z.eqb_spec (strcmp (lemma c) d) 0) as [E|E].
           ++ apply strcmp_zero in E. subst d. cbn [In]. split.
              ** intros [H|[H Hn]]; [left; exact H|right; split; [right; exact H|exact Hn]].
              ** intros [H|[[H|H] Hn]]; [left; exact H| |right; tauto].
                 exfalso. apply Hn. subst x. split; reflexivity.
           ++ rewrite in_app_iff. cbn [In]. split.
              ** intros [[H|[H|[]]]|[H Hn]];
                   [left; exact H| |right; split; [right; exact H|exact Hn]].
                 right. split; [left; exact H|]. intros [_ [= Hd]]. subst.
                 apply E. apply strcmp_zero. reflexivity.
              ** intros [H|[[H|H] Hn]];
                   [left; left; exact H|left; right; left; exact H|right; tauto].
        -- rewrite in_app_iff. cbn [In]. split.
           ++ intros [[H|[H|[]]]|[H Hn]];
                [left; exact H| |right; split; [right; exact H|exact Hn]].
              right. split; [left; exact H|]. intros [_ Hd]. discriminate.
           ++ intros [H|[[H|H] Hn]];
                [left; left; exact H|left; right; left; exact H|right; tauto].
      * rewrite in_app_iff. cbn [In]. split.
        -- intros [[H|[H|[]]]|[H Hn]];
             [left; exact H| |right; split; [right; exact H|exact Hn]].
           right. split; [left; exact H|]. intros [Hf _]. discriminate.
        -- intros [H|[[H|H] Hn]];
             [left; left; exact H|left; right; left; exact H|right; tauto].
Qed.

Lemma token_lemmas_in (f : bool) (dl : option (list byte))
    (cands : list LemmaCandidate) (x : list byte) :
  In x (token_lemmas_of f dl cands) <->
  In x (map lemma cands) /\ ~ (f = true /\ dl = Some x).
Proof.
  unfold token_lemmas_of. rewrite token_lemmas_fold_in. cbn [In]. tauto.
Qed.

Section StopwordProps.

Variable stop : list (list byte).
Variable ctx : list (list byte * Z).
Variable pos_value : IcelandicPos -> Z.

Hypothesis stop_sorted : strictly_sorted stop.
Hypothesis ctx_sorted : strictly_sorted (map fst ctx).
Hypothesis pos_value_range : forall p, 0 <= pos_value p < 16.

Lemma stopword_simple_spec (l : list byte) :
  lemma_is_stopword_simple stop l = true <-> In l stop.
Proof.
  unfold lemma_is_stopword_simple.
  destruct (Z.eqb_spec (Z.of_nat (length stop)) 0) as [E|E].
  - destruct stop; [|discriminate]. cbn. split; [discriminate|tauto].
  - pose proof (bsearch_sorted (fun e => e) l stop) as H.
    rewrite map_id in H. specialize (H stop_sorted).
    unfold compare_stopword.
    change (fun (key elem : list byte) => strcmp key elem)
      with (fun (k e : list byte) => strcmp k ((fun e => e) e)).
    destruct (bsearch _ l stop) as [e|].
    + destruct H as [Hin ->]. tauto.
    + split; [discriminate|tauto].
Qed.

Lemma contextual_found (l : list byte) (p : IcelandicPos) (mask : Z) :
  In (l, mask) ctx ->
  lemma_is_contextual_stopword stop ctx pos_value l p = Z.testbit mask (pos_value p).
Proof.
  intros Hin. unfold lemma_is_contextual_stopword.
  destruct (Z.eqb_spec (Z.of_nat (length ctx)) 0) as [E|E];
    [destruct ctx; [destruct Hin|discriminate]|].
  pose proof (bsearch_sorted fst l ctx ctx_sorted) as H.
  unfold compare_contextual_stopword.
  destruct (bsearch _ l ctx) as [[k m]|].
  - destruct H as [Hk Hkey]. cbn [fst snd] in *. subst k.
    apply In_nth_error in Hin, Hk. destruct Hin as [i Hi], Hk as [j Hj].
    assert (i = j) as ->.
    { apply (strictly_sorted_unique (map fst ctx) i j l ctx_sorted);
        rewrite nth_error_map; [rewrite Hi|rewrite Hj]; reflexivity. }
    rewrite Hi in Hj. injection Hj as <-. apply mask_test. apply pos_value_range.
  - exfalso. apply H. apply in_map_iff. exists (l, mask). split; [reflexivity|exact Hin].
Qed.

Lemma contextual_absent (l : list byte) (p : IcelandicPos) :
  ~ In l (map fst ctx) ->
  lemma_is_contextual_stopword stop ctx pos_value l p = lemma_is_stopword_simple stop l.
Proof.
  intros Hnot. unfold lemma_is_contextual_stopword.
  destruct (Z.of_nat (length ctx) =? 0); [reflexivity|].
  pose proof (bsearch_sorted fst l ctx ctx_sorted) as H.
  unfold compare_contextual_stopword.
  destruct (bsearch _ l ctx) as [[k m]|]; [|reflexivity].
  destruct H as [Hk Hkey]. cbn [fst] in Hkey. subst k.
  exfalso. apply Hnot. apply in_map_iff. exists (l, m). split; [reflexivity|exact Hk].
Qed.

End StopwordProps.

(** C9: the filter is asked only about the lemma and tag the disambiguator
    returned, and only when it used bigrams; a token it did not disambiguate
    by bigrams keeps the lemma of every candidate, and a filtered token
    loses the disambiguated lemma alone.  With sorted tables: a lemma that is
    in the contextual table is a stopword exactly when the bit of the tag is
    set in its mask; a lemma that is not in the contextual table, and every
    lemma when that table is empty, is a stopword exactly when it is in the
    plain list. *)
Theorem stopword_filter_cases {D : DoubleOps} (stop : list (list byte))
    (ctx : list (list byte * Z)) (pos_value : IcelandicPos -> Z) :
  strictly_sorted stop -> strictly_sorted (map fst ctx) ->
  (forall p, 0 <= pos_value p < 16) ->
  (forall l p mask, In (l, mask) ctx ->
     lemma_is_contextual_stopword stop ctx pos_value l p = Z.testbit mask (pos_value p))
  /\ (forall l p, ~ In l (map fst ctx) ->
        lemma_is_contextual_stopword stop ctx pos_value l p = lemma_is_stopword_simple stop l
        /\ (lemma_is_contextual_stopword stop ctx pos_value l p = true <-> In l stop))
  /\ (forall l p,
        lemma_is_contextual_stopword stop [] pos_value l p = lemma_is_stopword_simple stop l
        /\ (lemma_is_contextual_stopword stop [] pos_value l p = true <-> In l stop))
  /\ (forall bin prev cands next r,
        lemma_is_disambiguate_bigram bin cands prev next = Some r ->
        surviving_lemmas stop ctx pos_value bin prev cands next
        = Some match r with
               | Some o =>
                   if out_by_bigram o
                   then token_lemmas_of
                          (lemma_is_contextual_stopword stop ctx pos_value
                             (out_lemma o) (out_pos o))
                          (Some (out_lemma o)) cands
                   else token_lemmas_of false (Some (out_lemma o)) cands
               | None => token_lemmas_of false None cands
               end)
  /\ (forall dl cands x,
        In x (token_lemmas_of false dl cands) <-> In x (map lemma cands))
  /\ (forall dl cands x,
        In x (token_lemmas_of true (Some dl) cands) <-> In x (map lemma cands) /\ x <> dl).
Proof.
  intros Hstop Hctx Hpos. split; [|split; [|split; [|split; [|split]]]].
  - intros l p mask. apply contextual_found; assumption.
  - intros l p Hnot. rewrite (contextual_absent stop ctx pos_value Hctx l p Hnot).
    split; [reflexivity|]. apply stopword_simple_spec. exact Hstop.
  - intros l p. split; [reflexivity|].
    change (lemma_is_contextual_stopword stop [] pos_value l p)
      with (lemma_is_stopword_simple stop l).
    apply stopword_simple_spec. exact Hstop.
  - intros bin prev cands next r Hr. unfold surviving_lemmas. rewrite Hr. cbn [bind].
    destruct r as [o|]; cbn [option_map]; [|reflexivity].
    destruct (out_by_bigram o); reflexivity.
  - intros dl cands x. rewrite token_lemmas_in. split; [tauto|].
    intros H. split; [exact H|]. intros [Hf _]. discriminate.
  - intros dl cands x. rewrite token_lemmas_in. split.
    + intros [H Hn]. split; [exact H|]. intros ->. apply Hn. split; reflexivity.
    + intros [H Hn]. split; [exact H|]. intros [_ [= ->]]. apply Hn. reflexivity.
Qed.

Lemma stopword_filter_cases_witness :
  (strictly_sorted sample_stopwords /\ strictly_sorted (map fst sample_contextual)
   /\ (forall p, 0 <= pos_ordinal p < 16))
  /\ lemma_is_contextual_stopword sample_stopwords sample_contextual pos_ordinal
       (lit "vera") POS_SO = true
  /\ lemma_is_contextual_stopword sample_stopwords sample_contextual pos_ordinal
       (lit "vera") POS_NO = false
  /\ (lemma_is_contextual_stopword sample_stopwords sample_contextual pos_ordinal
        (lit "og") POS_ST = true <-> In (lit "og") sample_stopwords).
Proof.
  assert (H1 : strictly_sorted sample_stopwords)
    by (apply strictly_sortedb_sound; vm_compute; reflexivity).
  assert (H2 : strictly_sorted (map fst sample_contextual))
    by (apply strictly_sortedb_sound; vm_compute; reflexivity).
  assert (H3 : forall p, 0 <= pos_ordinal p < 16) by (intros []; cbn; lia).
  split; [auto|].
  destruct (@stopword_filter_cases real_double sample_stopwords sample_contextual
              pos_ordinal H1 H2 H3) as (Hfound & Habsent & _).
  split; [|split].
  - rewrite (Hfound (lit "vera") POS_SO 2); [reflexivity|]. right. left. reflexivity.
  - rewrite (Hfound (lit "vera") POS_NO 2); [reflexivity|]. right. left. reflexivity.
  - apply Habsent. cbn. intros [H|[H|[]]]; discriminate H.
Defined.

(** ** The tokenizer *)

Lemma pg_mblen_pos (input : list byte) (off : nat) : (1 <= pg_mblen input off)%nat.
Proof.
  unfold pg_mblen.
  repeat match goal with |- context [if ?c then _ else _] => destruct c end; lia.
Qed.

(** The code points from an offset do not depend on the iterations granted,
    once there are enough of them. *)
Lemma code_points_from_fuel (input : list byte) (len f1 f2 off : nat) :
  (len - off <= f1)%nat -> (len - off <= f2)%nat ->
  code_points_from input len f1 off = code_points_from input len f2 off.
Proof.
  revert f2 off. induction f1 as [|f1 IH]; intros f2 off H1 H2.
  - destruct f2 as [|f2]; [reflexivity|]. cbn [code_points_from].
    destruct (Nat.ltb_spec off len); [lia|reflexivity].
  - destruct f2 as [|f2]; cbn [code_points_from];
      destruct (Nat.ltb_spec off len) as [Hlt|Hge]; try reflexivity; try lia.
    f_equal. pose proof (pg_mblen_pos input off). apply IH; lia.
Qed.

Section TokenizerProps.

Variable alpha : Z -> bool.
Variable input : list byte.

Let len : nat := length input.

Lemma rest_from_end (off : nat) : (len <= off)%nat -> rest_from input off = [].
Proof.
  intros H. unfold rest_from. fold len. replace (len - off)%nat with 0%nat by lia. reflexivity.
Qed.

Lemma rest_from_step (off : nat) :
  (off < len)%nat ->
  rest_from input off
  = (utf8_to_unicode input off, pg_mblen input off)
    :: rest_from input (off + pg_mblen input off).
Proof.
  intros H. unfold rest_from. fold len.
  destruct (len - off)%nat as [|f] eqn:E; [lia|]. cbn [code_points_from].
  destruct (Nat.ltb_spec off len); [|lia]. f_equal.
  pose proof (pg_mblen_pos input off). apply code_points_from_fuel; lia.
Qed.

Lemma scan_skip (off : nat) :
  (off < len)%nat -> alpha (utf8_to_unicode input off) = false ->
  scan alpha (rest_from input off) off None
  = scan alpha (rest_from input (off + pg_mblen input off)) (off + pg_mblen input off) None.
Proof.
  intros Hlt Hna. rewrite (rest_from_step off Hlt). cbn [scan]. rewrite Hna. reflexivity.
Qed.

(** The inner loop closes the token where the one-pass scan does. *)
Lemma token_end_scan (fuel off start : nat) :
  (len - off <= fuel)%nat ->
  let e := token_end alpha input len fuel off in
  (off <= e)%nat
  /\ scan alpha (rest_from input off) off (Some start)
     = (start, e - start)%nat :: scan alpha (rest_from input e) e None.
Proof.
  revert off. induction fuel as [|fuel IH]; intros off Hfuel; cbn [token_end].
  - cbv zeta. split; [lia|]. rewrite rest_from_end by lia. reflexivity.
  - destruct (Nat.ltb_spec off len) as [Hlt|Hge].
    2:{ cbv zeta. split; [lia|]. rewrite rest_from_end by lia. reflexivity. }
    pose proof (pg_mblen_pos input off) as Hmb.
    unfold icelandic_is_alpha.
    rewrite (rest_from_step off Hlt). cbn [scan].
    destruct (alpha (utf8_to_unicode input off)) eqn:Ea.
    + destruct (IH (off + pg_mblen input off)%nat ltac:(lia)) as [Hle Hscan].
      cbv zeta. split; [lia|exact Hscan].
    + destruct (icelandic_is_word_joiner (utf8_to_unicode input off)) eqn:Ej;
        cbn [andb].
      * destruct (Nat.ltb_spec (off + pg_mblen input off) len) as [Hafter|Hafter].
        -- rewrite (rest_from_step _ Hafter). cbn [next_is_alpha].
           destruct (alpha (utf8_to_unicode input (off + pg_mblen input off))) eqn:Ea'.
           ++ rewrite <- (rest_from_step _ Hafter).
              destruct (IH (off + pg_mblen input off)%nat ltac:(lia)) as [Hle Hscan].
              cbv zeta. split; [lia|exact Hscan].
           ++ rewrite <- (rest_from_step _ Hafter).
              cbv zeta. split; [lia|]. rewrite (scan_skip off Hlt Ea). reflexivity.
        -- rewrite (rest_from_end _ Hafter). cbn [next_is_alpha].
           cbv zeta. split; [lia|].
           rewrite (scan_skip off Hlt Ea), (rest_from_end _ Hafter). reflexivity.
      * cbv zeta. split; [lia|]. rewrite (scan_skip off Hlt Ea). reflexivity.
Qed.

(** The outer loop emits the tokens of the scan. *)
Lemma tokenize_loop_scan (fuel off : nat) (tokens : list (list byte)) :
  (len - off <= fuel)%nat ->
  tokenize_loop alpha input len fuel off tokens
  = tokens ++ map (span_text input) (scan alpha (rest_from input off) off None).
Proof.
  revert off tokens. induction fuel as [|fuel IH]; intros off tokens Hfuel;
    cbn [tokenize_loop].
  - rewrite rest_from_end by lia. cbn. rewrite app_nil_r. reflexivity.
  - destruct (Nat.ltb_spec off len) as [Hlt|Hge].
    2:{ rewrite rest_from_end by lia. cbn. rewrite app_nil_r. reflexivity. }
    pose proof (pg_mblen_pos input off) as Hmb.
    unfold icelandic_is_alpha.
    destruct (alpha (utf8_to_unicode input off)) eqn:Ea.
    + destruct (token_end_scan len (off + pg_mblen input off) off ltac:(lia))
        as [Hle Hscan].
      rewrite IH by lia.
      rewrite (rest_from_step off Hlt). cbn [scan]. rewrite Ea, Hscan.
      cbn [map]. rewrite <- app_assoc. reflexivity.
    + rewrite IH by lia. rewrite (scan_skip off Hlt Ea). reflexivity.
Qed.

End TokenizerProps.

(** The tokens are the texts of the spans of the scan. *)
Lemma tokenize_scan (alpha : Z -> bool) (input : list byte) :
  icelandic_tokenize_words alpha input
  = map (span_text input) (scan alpha (code_points input) 0 None).
Proof.
  unfold icelandic_tokenize_words. rewrite tokenize_loop_scan by lia.
  unfold rest_from, code_points. rewrite Nat.sub_0_r. reflexivity.
Qed.

(** The scan looks at the letters of the text only. *)
Lemma scan_ext (f g : Z -> bool) (cps : list (Z * nat)) (off : nat) (open : option nat) :
  Forall (fun cp => f (fst cp) = g (fst cp)) cps ->
  scan f cps off open = scan g cps off open.
Proof.
  intros H. revert off open. induction H as [|[c n] rest Hc Hrest IH]; intros off open;
    cbn [scan]; [reflexivity|].
  cbn [fst] in Hc. rewrite Hc.
  assert (next_is_alpha f rest = next_is_alpha g rest) as ->.
  { destruct Hrest as [|[c' n'] ? Hc' ?]; [reflexivity|exact Hc']. }
  destruct open; rewrite !IH; reflexivity.
Qed.

Lemma tokenize_latin1 (alpha : Z -> bool) (input : list byte) :
  (forall c, 0 <= c < 256 -> alpha c = latin1_alpha c) ->
  forallb (fun cp => (0 <=? fst cp) && (fst cp <? 256)) (code_points input) = true ->
  icelandic_tokenize_words alpha input = icelandic_tokenize_words latin1_alpha input.
Proof.
  intros Hagree Hlatin. rewrite !tokenize_scan. f_equal. apply scan_ext.
  rewrite forallb_forall in Hlatin. apply Forall_forall. intros cp Hcp.
  apply Hagree. specialize (Hlatin cp Hcp). lia.
Qed.

(** C7: a token starts at a letter and runs through letters, and through a
    joiner when a letter comes right after it; a joiner that no letter
    follows ends the token and is left out.  The tokens of a text are the
    spans of the one-pass scan of its code points, in order.  With the
    letters of Latin-1 as they are in Unicode, ["Þetta er gott"] gives
    [Þetta], [er] and [gott], ["o'fáanlegt"] gives the one token
    [o'fáanlegt], and ["orð-"] gives the one token [orð]. *)
Theorem tokenizer_rules (u_isalpha : Z -> bool) :
  (forall input,
     icelandic_tokenize_words u_isalpha input
     = map (span_text input) (scan u_isalpha (code_points input) 0 None))
  /\ (forall c, icelandic_is_word_joiner c = true <->
                  c = 0x27 \/ c = 0x2019 \/ c = 0x2D \/ c = 0x2013 \/ c = 0x2014)
  /\ ((forall c, 0 <= c < 256 -> u_isalpha c = latin1_alpha c) ->
      icelandic_tokenize_words u_isalpha (lit "Þetta er gott")
      = [lit "Þetta"; lit "er"; lit "gott"]
      /\ icelandic_tokenize_words u_isalpha (lit "o'fáanlegt") = [lit "o'fáanlegt"]
      /\ icelandic_tokenize_words u_isalpha (lit "orð-") = [lit "orð"]).
Proof.
  split; [|split].
  - intros input. apply tokenize_scan.
  - intros c. unfold icelandic_is_word_joiner. rewrite !orb_true_iff, !Z.eqb_eq. tauto.
  - intros Hagree.
    repeat split; (rewrite (tokenize_latin1 u_isalpha _ Hagree);
                   [vm_compute; reflexivity|vm_compute; reflexivity]).
Qed.

Lemma tokenizer_rules_witness :
  (forall c, 0 <= c < 256 -> latin1_alpha c = latin1_alpha c)
  /\ icelandic_tokenize_words latin1_alpha (lit "orð-") = [lit "orð"].
Proof.
  assert (H : forall c, 0 <= c < 256 -> latin1_alpha c = latin1_alpha c)
    by (intros c _; reflexivity).
  split; [exact H|].
  destruct (tokenizer_rules latin1_alpha) as (_ & _ & Hex).
  exact (proj2 (proj2 (Hex H))).
Defined.

(** ** The query builder *)

Lemma append_lemmas_text (query : list byte) (j : nat) (ls : list (list byte)) :
  append_lemmas query j ls
  = query ++ (if (0 <? j)%nat then concat (map (fun x => lit " | " ++ x) ls)
              else join (lit " | ") ls).
Proof.
  revert query j. induction ls as [|l ls IH]; intros query j; cbn [append_lemmas].
  - destruct (0 <? j)%nat; cbn; rewrite app_nil_r; reflexivity.
  - rewrite IH. change (0 <? S j)%nat with true. cbv iota.
    destruct (0 <? j)%nat; cbn [map concat join]; rewrite <- ?app_assoc; reflexivity.
Qed.

(** One group is written as its conjunct, after [" & "] when it is not the
    first one. *)
Lemma append_group_text (query : list byte) (first_group : bool)
    (g : list (list byte)) :
  append_group (query, first_group) g
  = match g with
    | [] => (query, first_group)
    | _ :: _ => (query ++ (if first_group then [] else lit " & ") ++ conjunct g, false)
    end.
Proof.
  unfold append_group. destruct g as [|l [|l' g]].
  - reflexivity.
  - cbn [length Nat.eqb Nat.ltb Nat.leb]. rewrite append_lemmas_text.
    cbn [Nat.ltb Nat.leb join map concat conjunct]. rewrite app_nil_r.
    destruct first_group; cbn [negb]; rewrite <- ?app_assoc; reflexivity.
  - cbn [length Nat.eqb Nat.ltb Nat.leb]. rewrite append_lemmas_text.
    cbn [Nat.ltb Nat.leb conjunct].
    destruct first_group; cbn [negb]; rewrite <- ?app_assoc; reflexivity.
Qed.

Lemma fold_append_group (groups : list (list (list byte))) (query : list byte)
    (first_group : bool) :
  fst (fold_left append_group groups (query, first_group))
  = query ++ (if first_group then join (lit " & ") (map conjunct (filter nonempty groups))
              else concat (map (fun c => lit " & " ++ c)
                               (map conjunct (filter nonempty groups)))).
Proof.
  revert query first_group. induction groups as [|g groups IH]; intros query first_group;
    cbn [fold_left].
  - destruct first_group; cbn; rewrite app_nil_r; reflexivity.
  - rewrite append_group_text. destruct g as [|l g].
    + cbn [filter nonempty]. apply IH.
    + rewrite IH. cbn [filter nonempty map].
      destruct first_group; cbn [join concat map]; rewrite <- ?app_assoc; reflexivity.
Qed.

Lemma build_query_text (groups : list (list (list byte))) :
  build_query groups = query_text groups.
Proof. unfold build_query, query_text. rewrite fold_append_group. reflexivity. Qed.

(** C8: the query is the text of the conjuncts of the tokens that have
    lemmas, in token order, joined with [" & "]; a conjunct of two or more
    lemmas is in parentheses with [" | "] between the lemmas and a conjunct
    of one lemma is bare; a token without lemmas contributes nothing; with no
    conjunct the query is the empty string.  [hestur] and [stór] give
    ["hestur & stór"], and the sole token with [fara] and [far] gives
    ["(fara | far)"]. *)
Theorem query_builder_text :
  (forall {D : DoubleOps} lowerstr u_isalpha stop ctx pos_value bin txt q,
     icelandic_fts_query lowerstr u_isalpha stop ctx pos_value bin txt = Some q ->
     exists token_data groups,
       token_candidates lowerstr bin (icelandic_tokenize_words u_isalpha txt)
       = Some token_data
       /\ token_groups stop ctx pos_value bin [] token_data = Some groups
       /\ length groups = length (icelandic_tokenize_words u_isalpha txt)
       /\ q = join (lit " & ") (map conjunct (filter nonempty groups)))
  /\ (forall l, conjunct [l] = l)
  /\ (forall l1 l2 ls,
        conjunct (l1 :: l2 :: ls)
        = lit "(" ++ l1 ++ concat (map (fun x => lit " | " ++ x) (l2 :: ls)) ++ lit ")")
  /\ (forall groups, build_query ([] :: groups) = build_query groups)
  /\ build_query [] = []
  /\ (forall groups, filter nonempty groups = [] -> build_query groups = [])
  /\ build_query [[lit "hestur"]; [lit "stór"]] = lit "hestur & stór"
  /\ build_query [[lit "fara"; lit "far"]] = lit "(fara | far)".
Proof.
  refine (conj _ (conj _ (conj _ (conj _ (conj _ (conj _ (conj _ _))))))).
  - intros D lowerstr u_isalpha stop ctx pos_value bin txt q Hq.
    unfold icelandic_fts_query in Hq.
    destruct (token_candidates lowerstr bin _) as [token_data|] eqn:Etd; [|discriminate].
    cbn [bind] in Hq.
    destruct (token_groups stop ctx pos_value bin [] token_data) as [groups|] eqn:Eg;
      [|discriminate].
    cbn [bind] in Hq. injection Hq as <-.
    exists token_data, groups. split; [reflexivity|]. split; [exact Eg|].
    split; [|apply build_query_text].
    assert (Hlen1 : forall tokens td, token_candidates lowerstr bin tokens = Some td ->
                      length td = length tokens).
    { induction tokens as [|t tokens IH]; intros td H; cbn [token_candidates] in H.
      - injection H as <-. reflexivity.
      - destruct (lemma_is_get_candidates lowerstr bin t); [|discriminate].
        cbn [bind] in H. destruct (token_candidates lowerstr bin tokens); [|discriminate].
        cbn [bind] in H. injection H as <-. cbn. f_equal. apply IH. reflexivity. }
    assert (Hlen2 : forall td prev gs, token_groups stop ctx pos_value bin prev td = Some gs ->
                      length gs = length td).
    { induction td as [|c td IH]; intros prev gs H; cbn [token_groups] in H.
      - injection H as <-. reflexivity.
      - destruct (surviving_lemmas stop ctx pos_value bin prev c _); [|discriminate].
        cbn [bind] in H.
        destruct (token_groups stop ctx pos_value bin c td) eqn:E; [|discriminate].
        cbn [bind] in H. injection H as <-. cbn. f_equal. eapply IH. exact E. }
    rewrite (Hlen2 _ _ _ Eg). apply Hlen1. exact Etd.
  - intros l. reflexivity.
  - intros l1 l2 ls. cbn [conjunct join]. rewrite <- app_assoc. reflexivity.
  - intros groups. reflexivity.
  - reflexivity.
  - intros groups Hnone. rewrite build_query_text. unfold query_text. rewrite Hnone.
    reflexivity.
  - vm_compute. reflexivity.
  - vm_compute. reflexivity.
Qed.

(** ** Whole texts *)

Section Pipeline.

Context {D : DoubleOps} {O : DoubleOrder D}.

Let query (txt : string) : option (list byte) :=
  icelandic_fts_query (fun w => w) latin1_alpha sample_stopwords sample_contextual
                      pos_ordinal sample_bin (lit txt).

(** The word [fer] alone: nothing to disambiguate with, both lemmas
    stay. *)
Example query_of_fer : query "fer" = Some (lit "(fara | far)").
Proof.
  subst query. cbv beta. unfold icelandic_fts_query.
  replace (icelandic_tokenize_words latin1_alpha (lit "fer")) with [lit "fer"]
    by (vm_compute; reflexivity).
  replace (token_candidates (fun w => w) sample_bin [lit "fer"])
    with (Some [[cand_fara; cand_far]]) by (vm_compute; reflexivity).
  cbn [bind token_groups]. unfold surviving_lemmas.
  rewrite disambiguate_no_evidence by (intros x _; reflexivity).
  cbn [bind option_map out_lemma out_pos out_by_bigram].
  vm_compute. reflexivity.
Qed.

(** [stór] is not in the dictionary and stands for itself. *)
Example query_of_hestur_stor : query "hestur stór" = Some (lit "hestur & stór").
Proof.
  subst query. cbv beta. unfold icelandic_fts_query.
  replace (icelandic_tokenize_words latin1_alpha (lit "hestur stór"))
    with [lit "hestur"; lit "stór"] by (vm_compute; reflexivity).
  replace (token_candidates (fun w => w) sample_bin [lit "hestur"; lit "stór"])
    with (Some [[cand_hestur]; [fallback_candidate (lit "stór")]])
    by (vm_compute; reflexivity).
  assert (Hfreq : lemma_is_bigram_freq sample_bin (lit "hestur") (lit "stór") = Some 0)
    by (vm_compute; reflexivity).
  cbn [bind token_groups]. unfold surviving_lemmas.
  rewrite !disambiguate_no_evidence.
  - cbn [bind option_map out_lemma out_pos out_by_bigram]. vm_compute. reflexivity.
  - intros x [<-|[]]. apply candidate_score_no_match.
    + intros p [<-|[]]. exact Hfreq.
    + intros n [].
  - intros x [<-|[]]. apply candidate_score_no_match.
    + intros p [].
    + intros n [<-|[]]. exact Hfreq.
Qed.

End Pipeline.

(** After [hestur] the word [er] is the verb [vera] by the bigram
    [(hestur, vera)]; [vera] is a stopword as a verb, the token is left
    without a lemma and contributes nothing to the query. *)
Example query_of_hestur_er :
  @icelandic_fts_query real_double (fun w => w) latin1_alpha sample_stopwords
    sample_contextual pos_ordinal sample_bin (lit "hestur er")
  = Some (lit "hestur").
Proof.
  unfold icelandic_fts_query.
  replace (icelandic_tokenize_words latin1_alpha (lit "hestur er"))
    with [lit "hestur"; lit "er"] by (vm_compute; reflexivity).
  replace (token_candidates (fun w => w) sample_bin [lit "hestur"; lit "er"])
    with (Some [[cand_hestur]; [mkCandidate (lit "vera") POS_SO 0 0 0]])
    by (vm_compute; reflexivity).
  assert (Hfreq : lemma_is_bigram_freq sample_bin (lit "hestur") (lit "vera") = Some 3)
    by (vm_compute; reflexivity).
  pose proof (real_log_positive 3 ltac:(lia)) as Hpos.
  cbn [bind token_groups]. unfold surviving_lemmas.
  destruct (@disambiguate_single real_double _ sample_bin []
              [mkCandidate (lit "vera") POS_SO 0 0 0] cand_hestur (add_freq d_zero 3))
    as [c1 H1].
  { unfold candidate_score, score_prev, score_next, cand_hestur. cbn [bind lemma].
    rewrite Hfreq. reflexivity. }
  destruct (@disambiguate_single real_double _ sample_bin [cand_hestur] []
              (mkCandidate (lit "vera") POS_SO 0 0 0) (add_freq d_zero 3))
    as [c2 H2].
  { unfold candidate_score, score_prev, score_next, cand_hestur. cbn [bind lemma].
    rewrite Hfreq. reflexivity. }
  rewrite H1, H2, Hpos.
  cbn [bind option_map out_lemma out_pos out_by_bigram].
  vm_compute. reflexivity.
Qed.

Lemma query_builder_text_witness :
  @icelandic_fts_query real_double (fun w => w) latin1_alpha sample_stopwords
    sample_contextual pos_ordinal sample_bin (lit "hestur er")
  = Some (lit "hestur")
  /\ exists groups,
       length groups = 2%nat
       /\ lit "hestur" = join (lit " & ") (map conjunct (filter nonempty groups)).
Proof.
  split; [exact query_of_hestur_er|].
  destruct query_builder_text as (Hq & _).
  destruct (Hq real_double _ _ _ _ _ _ _ _ query_of_hestur_er)
    as (token_data & groups & _ & _ & Hlen & Htext).
  exists groups. split; [|exact Htext].
  rewrite Hlen. vm_compute. reflexivity.
Defined.

(** ** Further properties of the indices *)

Lemma memcmp_zero (a b : list byte) :
  length a = length b -> memcmp a b = 0 -> a = b.
Proof.
  revert b. induction a as [|x a IH]; intros [|y b] Hlen H; try discriminate;
    [reflexivity|].
  cbn [memcmp] in H. destruct (Z.eqb_spec (byte_val x) (byte_val y)) as [E|E]; [|lia].
  apply byte_val_inj in E. subst y. f_equal. apply IH; [|exact H].
  cbn in Hlen. congruence.
Qed.

(** A comparison that comes out as zero has read the key itself. *)
Lemma compare_view_zero (d : list byte) (p : ptr) (len : Z) (word : list byte) :
  0 <= len ->
  compare_view d p len word (strlen word) = Some 0 ->
  deref_bytes d p (Z.to_nat len) = Some word.
Proof.
  intros Hlen. unfold compare_view, strlen.
  set (minlen := if Z.of_nat (length word) <? len then Z.of_nat (length word) else len).
  destruct (deref_bytes d p (Z.to_nat minlen)) as [pre|] eqn:Epre; [|discriminate].
  cbn [bind]. destruct (Z.eqb_spec (memcmp pre (firstn (Z.to_nat minlen) word)) 0) as [E|E].
  - intros [= Hdiff].
    assert (minlen = len) as Hmin
      by (subst minlen; destruct (Z.ltb_spec (Z.of_nat (length word)) len); lia).
    rewrite Hmin in *. rewrite Epre. f_equal.
    unfold deref_bytes in Epre. destruct p as [a|]; [|discriminate].
    destruct (load_bytes_prefix _ _ _ _ Epre) as [Hl _].
    replace (firstn (Z.to_nat len) word) with word in E
      by (symmetry; apply firstn_all2; lia).
    apply memcmp_zero; [lia|exact E].
  - intros [= Hc]. contradiction.
Qed.

Lemma deref8_range (d : list byte) (p : ptr) (v : Z) :
  deref8 d p = Some v -> 0 <= v < 256.
Proof.
  unfold deref8. destruct p; [|discriminate]. intros H. apply load8_bounds in H. lia.
Qed.

Lemma compare_word_zero (bin : LemmaIsBinary) (i : Z) (word : list byte) :
  lemma_is_compare_word bin i word (strlen word) = Some 0 ->
  stored_word bin i = Some word.
Proof.
  unfold lemma_is_compare_word, stored_word, view_bytes.
  destruct (lemma_is_u32 (data bin) (wordOffsets bin) i) as [offset|]; [|discriminate].
  cbn [bind].
  destruct (deref8 (data bin) (ptr_add (wordLengths bin) i)) as [len|] eqn:El;
    [|discriminate].
  cbn [bind]. apply compare_view_zero. apply deref8_range in El. lia.
Qed.


Lemma int32_range (z : Z) : - 2 ^ 31 <= int32 z < 2 ^ 31.
Proof.
  unfold int32. pose proof (Z.mod_pos_bound z (2 ^ 32) ltac:(lia)).
  destruct (z mod 2 ^ 32 <? 2 ^ 31) eqn:E; lia.
Qed.

(** Whatever the comparison is, the loop returns -1 or an index at which it
    was zero. *)
Lemma search_loop_hit (cmp : Z -> option Z) (fuel : nat) (left right r : Z) :
  search_loop cmp fuel left right = Some r ->
  r = -1 \/ (cmp (u32 r) = Some 0 /\ - 2 ^ 30 <= r < 2 ^ 30).
Proof.
  revert left right. induction fuel as [|fuel IH]; intros left right; cbn [search_loop].
  - destruct (right <? left); intros [= <-]; left; reflexivity.
  - destruct (right <? left); [intros [= <-]; left; reflexivity|].
    set (mid := Z.shiftr (int32 (left + right)) 1).
    destruct (cmp (u32 mid)) as [c|] eqn:Ec; [|discriminate]. cbn [bind].
    destruct (Z.eqb_spec c 0) as [E0|E0].
    + intros [= <-]. right. subst c. split; [exact Ec|].
      subst mid. rewrite Z.shiftr_div_pow2 by lia. change (2 ^ 1) with 2.
      pose proof (int32_range (left + right)). Z.div_mod_to_equations. lia.
    + destruct (c <? 0); apply IH.
Qed.

(** The order [lex] is a total order. *)
Lemma lex_antisym (a b : list byte) : lex b a = CompOpp (lex a b).
Proof.
  revert b. induction a as [|x a IH]; intros [|y b]; cbn [lex CompOpp]; try reflexivity.
  rewrite (Z.compare_antisym (byte_val x) (byte_val y)).
  destruct (byte_val x ?= byte_val y); cbn [CompOpp]; [apply IH|reflexivity|reflexivity].
Qed.

(** X1: [lemma_is_compare_word] orders a stored word and a key as byte
    strings: on a stored word that can be read it returns, and the sign of
    its result is the order [lex] of the two strings (unsigned bytes, a
    proper prefix first); the result is zero for the key itself only.  When
    the result is zero the stored word has been read in full and is the
    key. *)
Theorem compare_word_order (bin : LemmaIsBinary) (i : Z) (key : list byte) :
  (forall w, stored_word bin i = Some w ->
     exists c, lemma_is_compare_word bin i key (strlen key) = Some c
       /\ (c = 0 <-> w = key)
       /\ (c < 0 <-> lex w key = Lt)
       /\ (c > 0 <-> lex w key = Gt))
  /\ (lemma_is_compare_word bin i key (strlen key) = Some 0 ->
      stored_word bin i = Some key).
Proof.
  split; [|apply compare_word_zero].
  intros w Hw. exists (view_compare w key).
  split; [apply compare_word_spec; exact Hw|].
  split; [apply view_compare_zero|].
  pose proof (view_compare_lex w key) as H.
  destruct (lex w key); split; split; intros; try discriminate; try reflexivity; lia.
Qed.

Lemma compare_word_order_witness :
  stored_word sample_bin 3 = Some (lit "hest")
  /\ lemma_is_compare_word sample_bin 3 (lit "hestur") (strlen (lit "hestur")) = Some (-2)
  /\ lex (lit "hest") (lit "hestur") = Lt
  /\ stored_word sample_bin 4 = Some (lit "hestur").
Proof.
  destruct (compare_word_order sample_bin 3 (lit "hestur")) as [Hsign _].
  destruct (compare_word_order sample_bin 4 (lit "hestur")) as [_ Hzero].
  assert (stored_word sample_bin 3 = Some (lit "hest")) as Hw by (vm_compute; reflexivity).
  destruct (Hsign _ Hw) as (c & Hc & _ & Hlt & _).
  assert (c = -2) as -> by (vm_compute in Hc; congruence).
  split; [exact Hw|]. split; [exact Hc|]. split; [apply (proj1 Hlt); lia|].
  apply Hzero. vm_compute. reflexivity.
Defined.

(** X2: a hit of [lemma_is_find_word] is a true match, whatever the table
    holds and whether or not it is sorted: the index returned is -1 or lies
    in [-2^30, 2^30), and at an index that is not negative the stored word
    can be read and is the key, byte for byte.  An index that is not sorted
    can make the search miss a word, never find a wrong one. *)
Theorem find_word_hit (bin : LemmaIsBinary) (key : list byte) (idx : Z) :
  lemma_is_find_word bin key = Some idx ->
  - 2 ^ 30 <= idx < 2 ^ 30
  /\ (0 <= idx -> stored_word bin idx = Some key).
Proof.
  unfold lemma_is_find_word. intros H. apply search_loop_hit in H.
  destruct H as [->|[Hc Hr]]; [split; lia|].
  split; [exact Hr|]. intros Hpos.
  rewrite u32_small in Hc by lia. apply compare_word_zero. exact Hc.
Qed.

Lemma find_word_hit_witness :
  lemma_is_find_word sample_bin (lit "fer") = Some 2
  /\ stored_word sample_bin 2 = Some (lit "fer").
Proof.
  assert (lemma_is_find_word sample_bin (lit "fer") = Some 2) as H
    by (vm_compute; reflexivity).
  split; [exact H|].
  destruct (find_word_hit sample_bin (lit "fer") 2 H) as [_ Hw]. apply Hw. lia.
Defined.



(** ** The text of a lemma *)

Lemma byte_val_zero (c : byte) : byte_val c = 0 <-> c = x00.
Proof.
  split; [|intros ->; reflexivity].
  intros H. apply byte_val_inj. rewrite H. reflexivity.
Qed.

Lemma pnstrdup_at_load (d : list byte) (a : Z) (n : nat) (v : list byte) :
  load_bytes d a n = Some v -> pnstrdup_at d a n = Some (pnstrdup_str v n).
Proof.
  revert a v. induction n as [|n IH]; intros a v H; cbn [load_bytes] in H.
  - injection H as <-. reflexivity.
  - destruct (load_byte d a) as [b|] eqn:Eb; [|discriminate]. cbn [bind] in H.
    destruct (load_bytes d (a + 1) n) as [bs|] eqn:Ebs; [|discriminate]. cbn [bind] in H.
    injection H as <-. cbn [pnstrdup_at pnstrdup_str]. rewrite Eb. cbn [bind].
    destruct (byte_val b =? 0); [reflexivity|].
    rewrite (IH _ _ Ebs). reflexivity.
Qed.

Lemma pnstrdup_at_spec (d : list byte) (a : Z) (n : nat) (l : list byte) :
  pnstrdup_at d a n = Some l ->
  (length l <= n)%nat /\ load_bytes d a (length l) = Some l /\ ~ In x00 l.
Proof.
  revert a l. induction n as [|n IH]; intros a l H; cbn [pnstrdup_at] in H.
  - injection H as <-. cbn. split; [lia|]. split; [reflexivity|tauto].
  - destruct (load_byte d a) as [b|] eqn:Eb; [|discriminate]. cbn [bind] in H.
    destruct (Z.eqb_spec (byte_val b) 0) as [E|E].
    + injection H as <-. cbn. split; [lia|]. split; [reflexivity|tauto].
    + destruct (pnstrdup_at d (a + 1) n) as [r|] eqn:Er; [|discriminate]. cbn [bind] in H.
      injection H as <-. destruct (IH _ _ Er) as (Hlen & Hload & Hnul).
      cbn [length load_bytes In]. rewrite Eb. cbn [bind]. rewrite Hload. cbn [bind].
      split; [lia|]. split; [reflexivity|].
      intros [Hb|Hin]; [|exact (Hnul Hin)]. apply E. apply (proj2 (byte_val_zero b)). congruence.
Qed.

(** Without a NUL among them the characters are copied as they are. *)
Lemma pnstrdup_str_firstn (s : list byte) (n : nat) :
  ~ In x00 s -> pnstrdup_str s n = firstn n s.
Proof.
  revert s. induction n as [|n IH]; intros [|c s] H; try reflexivity.
  cbn [pnstrdup_str firstn].
  destruct (Z.eqb_spec (byte_val c) 0) as [E|E].
  - exfalso. apply H. left. apply (proj1 (byte_val_zero c)). exact E.
  - f_equal. apply IH. intros Hin. apply H. right. exact Hin.
Qed.

(** X4: the string [lemma_is_get_lemma] returns is the stored view of the
    lemma cut at its first NUL ([pnstrdup] stops there): it is the view
    itself when the view holds no NUL; in every case it holds no NUL, is at
    most 255 bytes long, and is a prefix of the bytes at the offset of the
    view in the string pool. *)
Theorem get_lemma_text (bin : LemmaIsBinary) (idx : Z) :
  (forall v, view_bytes bin (lemmaOffsets bin) (lemmaLengths bin) idx = Some v ->
     lemma_is_get_lemma bin idx = Some (pnstrdup_str v (length v))
     /\ (~ In x00 v -> lemma_is_get_lemma bin idx = Some v))
  /\ (forall l, lemma_is_get_lemma bin idx = Some l ->
        (length l <= 255)%nat /\ ~ In x00 l
        /\ exists off, lemma_is_u32 (data bin) (lemmaOffsets bin) idx = Some off
             /\ deref_bytes (data bin) (ptr_add (stringPool bin) off) (length l) = Some l).
Proof.
  unfold view_bytes, lemma_is_get_lemma.
  destruct (lemma_is_u32 (data bin) (lemmaOffsets bin) idx) as [off|];
    [|split; intros; discriminate].
  cbn [bind].
  destruct (deref8 (data bin) (ptr_add (lemmaLengths bin) idx)) as [len|] eqn:El;
    [|split; intros; discriminate].
  cbn [bind]. apply deref8_range in El.
  unfold deref_bytes, pnstrdup. destruct (ptr_add (stringPool bin) off) as [a|] eqn:Ea;
    [|split; intros; discriminate].
  split.
  - intros v Hv. destruct (load_bytes_prefix _ _ _ _ Hv) as [Hlen _].
    assert (pnstrdup_at (data bin) a (Z.to_nat len) = Some (pnstrdup_str v (length v)))
      as H by (rewrite Hlen; apply pnstrdup_at_load; exact Hv).
    split; [exact H|]. intros Hnul. rewrite H. f_equal.
    rewrite pnstrdup_str_firstn by exact Hnul. apply firstn_all.
  - intros l Hl. apply pnstrdup_at_spec in Hl. destruct Hl as (Hlen & Hload & Hnul).
    split; [lia|]. split; [exact Hnul|]. exists off. split; [reflexivity|]. rewrite Ea. exact Hload.
Qed.

Lemma get_lemma_text_witness :
  view_bytes sample_bin (lemmaOffsets sample_bin) (lemmaLengths sample_bin) 2
  = Some (lit "hestur")
  /\ lemma_is_get_lemma sample_bin 2 = Some (lit "hestur")
  /\ (length (lit "hestur") <= 255)%nat.
Proof.
  destruct (get_lemma_text sample_bin 2) as [Hview Hany].
  assert (view_bytes sample_bin (lemmaOffsets sample_bin) (lemmaLengths sample_bin) 2
          = Some (lit "hestur")) as Hv by (vm_compute; reflexivity).
  destruct (Hview _ Hv) as [_ Hclean].
  assert (lemma_is_get_lemma sample_bin 2 = Some (lit "hestur")) as Hl.
  { apply Hclean. vm_compute. intros H. repeat (destruct H as [H|H]; [discriminate|]).
    exact H. }
  split; [exact Hv|]. split; [exact Hl|]. exact (proj1 (Hany _ Hl)).
Defined.

(** ** The readings of a word *)

Lemma IcelandicPos_eqb_eq (a b : IcelandicPos) : IcelandicPos_eqb a b = true <-> a = b.
Proof. destruct a, b; cbn; split; intros H; try reflexivity; discriminate. Qed.

Lemma candidate_seen_spec (kept : list LemmaCandidate) (p : IcelandicPos) (l : list byte) :
  candidate_seen kept p l = true <-> exists c, In c kept /\ lemma c = l /\ pos c = p.
Proof.
  unfold candidate_seen. rewrite existsb_exists. split.
  - intros (c & Hin & H). apply andb_true_iff in H. destruct H as [Hp Hl].
    apply IcelandicPos_eqb_eq in Hp. apply Z.eqb_eq, strcmp_zero in Hl.
    exists c. auto.
  - intros (c & Hin & Hl & Hp). exists c. split; [exact Hin|].
    apply andb_true_iff. split; [apply IcelandicPos_eqb_eq; exact Hp|].
    apply Z.eqb_eq, strcmp_zero. exact Hl.
Qed.

(** The loop of [lemma_is_get_candidates] decodes the entries of the range
    and keeps the first of every reading. *)
Lemma candidates_loop_fold (bin : LemmaIsBinary) (n : nat) (i : Z)
    (acc : list LemmaCandidate) :
  candidates_loop bin n i acc
  = (ds <- read_all (fun k => entry_candidate bin (u32 k)) n i ;;
     Some (fold_left keep_candidate ds acc)).
Proof.
  revert i acc. induction n as [|n IH]; intros i acc; [reflexivity|].
  cbn [candidates_loop read_all]. unfold entry_candidate at 1.
  destruct (lemma_is_u32 (data bin) (entries bin) (u32 i)) as [packed|]; [|reflexivity].
  cbn [bind].
  destruct (lemma_is_get_lemma bin (lemmaIdx (lemma_is_unpack_entry bin packed))) as [l|];
    [|reflexivity].
  cbn [bind]. rewrite IH.
  destruct (read_all (fun k => entry_candidate bin (u32 k)) n (i + 1)) as [ds|];
    reflexivity.
Qed.

Lemma nth_error_snoc {A : Type} (l : list A) (x y : A) (k : nat) :
  nth_error (l ++ [x]) k = Some y ->
  ((k < length l)%nat /\ nth_error l k = Some y) \/ (k = length l /\ y = x).
Proof.
  intros H. destruct (Nat.lt_ge_cases k (length l)) as [Hlt|Hge].
  - left. rewrite nth_error_app1 in H by exact Hlt. auto.
  - right. rewrite nth_error_app2 in H by exact Hge.
    destruct (k - length l)%nat as [|m] eqn:E.
    + cbn in H. split; [lia|congruence].
    + cbn in H. destruct m; discriminate.
Qed.

Lemma keep_candidate_fold (ds pre acc : list LemmaCandidate) :
  (forall c, In c acc -> In c pre) ->
  (forall k d, nth_error pre k = Some d ->
     exists c k', In c acc /\ same_reading c d /\ (k' <= k)%nat
                  /\ nth_error pre k' = Some c) ->
  pairwise_unrelated same_reading acc ->
  (length acc <= length pre)%nat ->
  let cs := fold_left keep_candidate ds acc in
  (forall c, In c cs -> In c (pre ++ ds))
  /\ (forall k d, nth_error (pre ++ ds) k = Some d ->
        exists c k', In c cs /\ same_reading c d /\ (k' <= k)%nat
                     /\ nth_error (pre ++ ds) k' = Some c)
  /\ pairwise_unrelated same_reading cs
  /\ (length cs <= length (pre ++ ds))%nat.
Proof.
  revert pre acc. induction ds as [|d ds IH]; intros pre acc Hsub Hcov Hdist Hlen.
  - cbn [fold_left]. rewrite app_nil_r. auto.
  - cbn [fold_left]. cbv zeta.
    replace (pre ++ d :: ds) with ((pre ++ [d]) ++ ds)
      by (rewrite <- app_assoc; reflexivity).
    apply IH; unfold keep_candidate;
      destruct (candidate_seen acc (pos d) (lemma d)) eqn:Eseen.
    + intros c Hc. apply in_or_app. left. auto.
    + intros c Hc. apply in_app_or in Hc. apply in_or_app.
      destruct Hc as [Hc|Hc]; [left; auto|right; exact Hc].
    + intros k x Hk. apply nth_error_snoc in Hk. destruct Hk as [[Hlt Hk]|[-> ->]].
      * destruct (Hcov _ _ Hk) as (c & k' & Hc & Hr & Hle & Hk').
        exists c, k'. repeat split; try assumption; try apply Hr.
        rewrite nth_error_app1 by lia. exact Hk'.
      * apply candidate_seen_spec in Eseen. destruct Eseen as (c & Hc & Hl & Hp).
        destruct (In_nth_error _ _ (Hsub _ Hc)) as [k' Hk'].
        assert (k' < length pre)%nat by (apply nth_error_Some; congruence).
        exists c, k'. split; [exact Hc|]. split; [split; assumption|].
        split; [lia|]. rewrite nth_error_app1 by lia. exact Hk'.
    + intros k x Hk. apply nth_error_snoc in Hk. destruct Hk as [[Hlt Hk]|[-> ->]].
      * destruct (Hcov _ _ Hk) as (c & k' & Hc & Hr & Hle & Hk').
        exists c, k'. split; [apply in_or_app; left; exact Hc|].
        split; [exact Hr|]. split; [exact Hle|].
        rewrite nth_error_app1 by lia. exact Hk'.
      * exists d, (length pre). split; [apply in_or_app; right; left; reflexivity|].
        split; [split; reflexivity|]. split; [lia|].
        rewrite nth_error_app2 by lia. rewrite Nat.sub_diag. reflexivity.
    + exact Hdist.
    + intros i j a b Hij Ha Hb. apply nth_error_snoc in Hb.
      destruct Hb as [[Hlt Hb]|[-> ->]].
      * rewrite nth_error_app1 in Ha by lia. exact (Hdist _ _ _ _ Hij Ha Hb).
      * rewrite nth_error_app1 in Ha by lia. intros [Hl Hp].
        assert (candidate_seen acc (pos d) (lemma d) = true) as Hs; [|congruence].
        apply candidate_seen_spec. exists a. split; [|auto].
        apply nth_error_In with (n := i). exact Ha.
    + rewrite length_app. cbn [length]. lia.
    + rewrite !length_app. cbn [length]. lia.
Qed.




Lemma candidates_loop_kept (bin : LemmaIsBinary) (n : nat) (i : Z)
    (cs : list LemmaCandidate) :
  candidates_loop bin n i [] = Some cs ->
  exists ds,
    read_all (fun k => entry_candidate bin (u32 k)) n i = Some ds
    /\ (forall c, In c cs -> In c ds)
    /\ (forall k d, nth_error ds k = Some d ->
          exists c k', In c cs /\ same_reading c d /\ (k' <= k)%nat
                       /\ nth_error ds k' = Some c)
    /\ pairwise_unrelated same_reading cs
    /\ (length cs <= n)%nat.
Proof.
  rewrite candidates_loop_fold.
  destruct (read_all (fun k => entry_candidate bin (u32 k)) n i) as [ds|] eqn:Eds;
    [|discriminate].
  cbn [bind]. intros [= <-]. exists ds. split; [reflexivity|].
  destruct (read_all_spec _ _ _ _ Eds) as [Hlen _].
  destruct (keep_candidate_fold ds [] []) as (H1 & H2 & H3 & H4).
  - intros c [].
  - intros [|k] d Hk; discriminate.
  - intros [|a] [|b] x y Hlt Hx Hy; discriminate.
  - cbn. lia.
  - cbn [app] in *. rewrite Hlen in H4. auto.
Qed.

(** X5: the loop of [lemma_is_get_candidates] keeps, of the entries of the
    range, the first of every reading (pair of lemma and tag), with the
    morphology of that entry: every candidate is a decoded entry of the
    range; every entry of the range has its reading among the candidates,
    kept from an entry that is not after it; no two candidates have the same
    reading; and there are no more candidates than entries. *)
Theorem candidates_keep_first (bin : LemmaIsBinary) (n : nat) (i : Z)
    (cs : list LemmaCandidate) :
  candidates_loop bin n i [] = Some cs ->
  exists ds,
    read_all (fun k => entry_candidate bin (u32 k)) n i = Some ds
    /\ (forall c, In c cs -> In c ds)
    /\ (forall k d, nth_error ds k = Some d ->
          exists c k', In c cs /\ same_reading c d /\ (k' <= k)%nat
                       /\ nth_error ds k' = Some c)
    /\ pairwise_unrelated same_reading cs
    /\ (length cs <= n)%nat.
Proof.
  rewrite candidates_loop_fold.
  destruct (read_all (fun k => entry_candidate bin (u32 k)) n i) as [ds|] eqn:Eds;
    [|discriminate].
  cbn [bind]. intros [= <-]. exists ds. split; [reflexivity|].
  destruct (read_all_spec _ _ _ _ Eds) as [Hlen _].
  destruct (keep_candidate_fold ds [] []) as (H1 & H2 & H3 & H4).
  - intros c [].
  - intros [|k] d Hk; discriminate.
  - intros [|a] [|b] x y Hlt Hx Hy; discriminate.
  - cbn. lia.
  - cbn [app] in *. rewrite Hlen in H4. auto.
Qed.

Lemma candidates_keep_first_witness :
  candidates_loop sample_bin 3 3 []
  = Some [mkCandidate (lit "fara") POS_SO 0 0 0; mkCandidate (lit "far") POS_NO 2 2 0]
  /\ exists ds,
       read_all (fun k => entry_candidate sample_bin (u32 k)) 3 3 = Some ds
       /\ (length ds = 3)%nat.
Proof.
  assert (candidates_loop sample_bin 3 3 []
          = Some [mkCandidate (lit "fara") POS_SO 0 0 0; mkCandidate (lit "far") POS_NO 2 2 0])
    as H by (vm_compute; reflexivity).
  split; [exact H|].
  destruct (candidates_keep_first sample_bin 3 3 _ H) as (ds & Hds & _).
  exists ds. split; [exact Hds|]. exact (proj1 (read_all_spec _ _ _ _ Hds)).
Defined.




(** ** The lemmas of [icelandic_lexize] *)

Lemma lemma_ids_loop_fold (bin : LemmaIsBinary) (n : nat) (i : Z) (acc : list Z) :
  lemma_ids_loop bin n i acc
  = (ids <- read_all (fun k => entry_lemma_id bin (u32 k)) n i ;;
     Some (fold_left keep_id ids acc)).
Proof.
  revert i acc. induction n as [|n IH]; intros i acc; [reflexivity|].
  cbn [lemma_ids_loop read_all]. unfold entry_lemma_id at 1.
  destruct (lemma_is_u32 (data bin) (entries bin) (u32 i)) as [packed|]; [|reflexivity].
  cbn [bind option_map]. rewrite IH.
  destruct (read_all (fun k => entry_lemma_id bin (u32 k)) n (i + 1)) as [ids|];
    reflexivity.
Qed.

Lemma existsb_eqb (kept : list Z) (id : Z) :
  existsb (fun x => x =? id) kept = true <-> In id kept.
Proof.
  rewrite existsb_exists. split.
  - intros (x & Hin & E). apply Z.eqb_eq in E. subst x. exact Hin.
  - intros H. exists id. split; [exact H|apply Z.eqb_refl].
Qed.

Lemma keep_id_fold (ids acc : list Z) :
  NoDup acc ->
  NoDup (fold_left keep_id ids acc)
  /\ forall x, In x (fold_left keep_id ids acc) <-> In x acc \/ In x ids.
Proof.
  revert acc. induction ids as [|id ids IH]; intros acc Hnd; cbn [fold_left].
  - split; [exact Hnd|]. intros x. cbn. tauto.
  - unfold keep_id at 2 4. destruct (existsb (fun x => x =? id) acc) eqn:E.
    + apply existsb_eqb in E. destruct (IH acc Hnd) as [H1 H2].
      split; [exact H1|]. intros x. rewrite H2. cbn [In].
      split; [tauto|]. intros [H|[H|H]]; [tauto|subst x; tauto|tauto].
    + assert (~ In id acc) as Hnot by (intros H; apply existsb_eqb in H; congruence).
      destruct (IH (acc ++ [id])) as [H1 H2].
      { apply NoDup_app; [exact Hnd|constructor; [intros []|constructor]|].
        intros x Hx [Hy|[]]. subst x. exact (Hnot Hx). }
      split; [exact H1|]. intros x. rewrite H2, in_app_iff. cbn [In]. tauto.
Qed.

Lemma lemmas_of_ids_spec (bin : LemmaIsBinary) (ids : list Z) (ls : list (list byte)) :
  lemmas_of_ids bin ids = Some ls ->
  Forall2 (fun id l => lemma_is_get_lemma bin id = Some l) ids ls.
Proof.
  revert ls. induction ids as [|id ids IH]; intros ls H; cbn [lemmas_of_ids] in H.
  - injection H as <-. constructor.
  - destruct (lemma_is_get_lemma bin id) as [l|] eqn:El; [|discriminate]. cbn [bind] in H.
    destruct (lemmas_of_ids bin ids) as [r|]; [|discriminate]. cbn [bind] in H.
    injection H as <-. constructor; [exact El|]. apply IH. reflexivity.
Qed.

Lemma lemmas_of_ids_Some (bin : LemmaIsBinary) (ids : list Z) :
  (forall id, In id ids -> exists l, lemma_is_get_lemma bin id = Some l) ->
  exists ls, lemmas_of_ids bin ids = Some ls.
Proof.
  induction ids as [|id ids IH]; intros H; cbn [lemmas_of_ids].
  - eexists. reflexivity.
  - destruct (H id) as [l ->]; [left; reflexivity|]. cbn [bind].
    destruct IH as [ls ->]; [intros x Hx; apply H; right; exact Hx|].
    eexists. reflexivity.
Qed.

Lemma Forall2_In_l {A B : Type} (R : A -> B -> Prop) (xs : list A) (ys : list B) (x : A) :
  Forall2 R xs ys -> In x xs -> exists y, In y ys /\ R x y.
Proof.
  induction 1 as [|a b xs ys Hab _ IH]; intros Hin; [destruct Hin|].
  destruct Hin as [->|Hin]; [exists b; split; [left; reflexivity|exact Hab]|].
  destruct (IH Hin) as (y & Hy & Hr). exists y. split; [right; exact Hy|exact Hr].
Qed.

Lemma Forall2_In_r {A B : Type} (R : A -> B -> Prop) (xs : list A) (ys : list B) (y : B) :
  Forall2 R xs ys -> In y ys -> exists x, In x xs /\ R x y.
Proof.
  induction 1 as [|a b xs ys Hab _ IH]; intros Hin; [destruct Hin|].
  destruct Hin as [->|Hin]; [exists a; split; [left; reflexivity|exact Hab]|].
  destruct (IH Hin) as (x & Hx & Hr). exists x. split; [right; exact Hx|exact Hr].
Qed.

(** The lemma ids of a range whose entries decode, one for each entry. *)
Lemma read_all_entry_ids (bin : LemmaIsBinary) (n : nat) (i : Z)
    (ds : list LemmaCandidate) :
  read_all (fun k => entry_candidate bin (u32 k)) n i = Some ds ->
  exists ids,
    read_all (fun k => entry_lemma_id bin (u32 k)) n i = Some ids
    /\ Forall2 (fun id d => lemma_is_get_lemma bin id = Some (lemma d)) ids ds.
Proof.
  revert i ds. induction n as [|n IH]; intros i ds H; cbn [read_all] in *.
  - injection H as <-. exists []. split; [reflexivity|constructor].
  - destruct (entry_candidate bin (u32 i)) as [d|] eqn:Ed; [|discriminate].
    cbn [bind] in H.
    destruct (read_all (fun k => entry_candidate bin (u32 k)) n (i + 1)) as [r|] eqn:Er;
      [|discriminate].
    cbn [bind] in H. injection H as <-.
    destruct (IH _ _ Er) as (ids & -> & Hall).
    unfold entry_candidate in Ed. unfold entry_lemma_id at 1.
    destruct (lemma_is_u32 (data bin) (entries bin) (u32 i)) as [packed|]; [|discriminate].
    cbn [bind option_map] in *.
    destruct (lemma_is_get_lemma bin (lemmaIdx (lemma_is_unpack_entry bin packed)))
      as [l|] eqn:El; [|discriminate].
    cbn [bind] in Ed. injection Ed as <-.
    eexists. split; [reflexivity|]. constructor; [exact El|exact Hall].
Qed.

(** X7: [icelandic_lexize] and [lemma_is_get_candidates] agree on the
    lemmas of a word.  Whenever the candidates of a word are returned, so is
    the result of [icelandic_lexize] for it; that result is NULL exactly
    when there is no candidate, and otherwise the array holds the same
    lemma strings as the candidates do, as a set. *)
Theorem lexize_agrees_with_candidates (lowerstr : list byte -> list byte)
    (bin : LemmaIsBinary) (word : list byte) (cs : list LemmaCandidate) :
  lemma_is_get_candidates lowerstr bin word = Some cs ->
  exists r, icelandic_lexize lowerstr bin word = Some r
    /\ match r with
       | None => cs = []
       | Some ls => cs <> [] /\ forall l, In l ls <-> In l (map lemma cs)
       end.
Proof.
  unfold lemma_is_get_candidates, icelandic_lexize.
  destruct (lemma_is_find_word bin (lowerstr word)) as [idx|]; [|discriminate].
  cbn [bind]. destruct (idx <? 0).
  { intros [= <-]. eexists. split; [reflexivity|]. split; [discriminate|].
    intros l. cbn. split; intros H; exact H. }
  destruct (lemma_is_u32 (data bin) (entryOffsets bin) (u32 idx)) as [start|];
    [|discriminate].
  cbn [bind].
  destruct (lemma_is_u32 (data bin) (entryOffsets bin) (u32 (u32 idx + 1))) as [end_|];
    [|discriminate].
  cbn [bind]. destruct (end_ <? start).
  { intros [= <-]. eexists. split; reflexivity. }
  destruct (candidates_loop bin _ _ []) as [cs0|] eqn:Eloop; [|discriminate].
  cbn [bind]. intros Hcs.
  apply candidates_loop_kept in Eloop.
  destruct Eloop as (ds & Hds & Hsub & Hcov & _ & _).
  destruct (read_all_entry_ids _ _ _ _ Hds) as (ids & Hids & Hall).
  rewrite lemma_ids_loop_fold, Hids. cbn [bind].
  destruct (keep_id_fold ids []) as [_ Hin]; [constructor|].
  set (kept := fold_left keep_id ids []) in *.
  assert (forall l, In l (map lemma cs0) <-> exists id, In id kept
                      /\ lemma_is_get_lemma bin id = Some l) as Hsame.
  { intros l. rewrite in_map_iff. split.
    - intros (c & <- & Hc). destruct (Forall2_In_r _ _ _ _ Hall (Hsub _ Hc)) as (id & Hid & Hl).
      exists id. split; [apply Hin; right; exact Hid|exact Hl].
    - intros (id & Hid & Hl). apply Hin in Hid. destruct Hid as [[]|Hid].
      destruct (Forall2_In_l _ _ _ _ Hall Hid) as (d & Hd & Hld).
      destruct (In_nth_error _ _ Hd) as [k Hk].
      destruct (Hcov _ _ Hk) as (c & _ & Hc & [Hr _] & _).
      exists c. split; [congruence|exact Hc]. }
  destruct cs0 as [|c0 cs0].
  - cbn [length Z.of_nat Z.eqb] in Hcs. injection Hcs as <-.
    assert (kept = []) as ->.
    { destruct kept as [|id kept']; [reflexivity|]. exfalso.
      assert (In id ids) as Hid
        by (destruct (proj1 (Hin id) (or_introl eq_refl)) as [[]|H]; exact H).
      destruct (Forall2_In_l _ _ _ _ Hall Hid) as (d & Hd & _).
      destruct (In_nth_error _ _ Hd) as [k Hk].
      destruct (Hcov _ _ Hk) as (c & _ & [] & _). }
    cbn [length Z.of_nat Z.eqb]. eexists. split; [reflexivity|].
    split; [discriminate|]. intros l. cbn. split; intros H; exact H.
  - replace (Z.of_nat (length (c0 :: cs0)) =? 0) with false in Hcs
      by (symmetry; apply Z.eqb_neq; cbn [length]; lia).
    injection Hcs as <-.
    assert (kept <> []) as Hne.
    { intros E. destruct (proj1 (Hsame (lemma c0))) as (id & Hid & _);
        [left; reflexivity|]. rewrite E in Hid. destruct Hid. }
    replace (Z.of_nat (length kept) =? 0) with false
      by (symmetry; apply Z.eqb_neq; destruct kept; [congruence|cbn [length]; lia]).
    destruct (lemmas_of_ids_Some bin kept) as [ls Hls].
    { intros id Hid. apply Hin in Hid. destruct Hid as [[]|Hid].
      destruct (Forall2_In_l _ _ _ _ Hall Hid) as (d & _ & Hl). eexists. exact Hl. }
    rewrite Hls. cbn [bind]. eexists. split; [reflexivity|].
    split; [discriminate|]. intros l. rewrite Hsame.
    apply lemmas_of_ids_spec in Hls. split.
    + intros Hl. destruct (Forall2_In_r _ _ _ _ Hls Hl) as (id & Hid & Hg). eauto.
    + intros (id & Hid & Hg). destruct (Forall2_In_l _ _ _ _ Hls Hid) as (l' & Hl' & Hg').
      congruence.
Qed.

Lemma lexize_agrees_with_candidates_witness :
  lemma_is_get_candidates (fun w => w) sample_bin (lit "fer")
  = Some [mkCandidate (lit "fara") POS_SO 0 0 0; mkCandidate (lit "far") POS_NO 2 2 0]
  /\ exists r, icelandic_lexize (fun w => w) sample_bin (lit "fer") = Some r.
Proof.
  assert (lemma_is_get_candidates (fun w => w) sample_bin (lit "fer")
          = Some [mkCandidate (lit "fara") POS_SO 0 0 0; mkCandidate (lit "far") POS_NO 2 2 0])
    as H by (vm_compute; reflexivity).
  split; [exact H|].
  destruct (lexize_agrees_with_candidates (fun w => w) sample_bin (lit "fer") _ H)
    as (r & Hr & _).
  exists r. exact Hr.
Defined.

(** ** The lemmas of a text *)

Lemma collect_lemmas_spec (acc g : list (list byte)) :
  NoDup acc ->
  NoDup (collect_lemmas acc g)
  /\ forall x, In x (collect_lemmas acc g) <-> In x acc \/ In x g.
Proof.
  unfold collect_lemmas. revert acc. induction g as [|l g IH]; intros acc Hnd;
    cbn [fold_left].
  - split; [exact Hnd|]. intros x. cbn. tauto.
  - destruct (existsb (fun k => strcmp k l =? 0) acc) eqn:E.
    + apply existsb_strcmp in E. destruct (IH acc Hnd) as [H1 H2].
      split; [exact H1|]. intros x. rewrite H2. cbn [In].
      split; [tauto|]. intros [H|[H|H]]; [tauto|subst x; tauto|tauto].
    + assert (~ In l acc) as Hnot by (intros H; apply existsb_strcmp in H; congruence).
      destruct (IH (acc ++ [l])) as [H1 H2].
      { apply NoDup_app; [exact Hnd|constructor; [intros []|constructor]|].
        intros x Hx [Hy|[]]. subst x. exact (Hnot Hx). }
      split; [exact H1|]. intros x. rewrite H2, in_app_iff. cbn [In]. tauto.
Qed.

Lemma collect_groups_spec (groups : list (list (list byte))) (acc : list (list byte)) :
  NoDup acc ->
  NoDup (fold_left collect_lemmas groups acc)
  /\ forall x, In x (fold_left collect_lemmas groups acc)
               <-> In x acc \/ exists g, In g groups /\ In x g.
Proof.
  revert acc. induction groups as [|g groups IH]; intros acc Hnd; cbn [fold_left].
  - split; [exact Hnd|]. intros x. split; [tauto|]. intros [H|(g & [] & _)]. exact H.
  - destruct (collect_lemmas_spec acc g Hnd) as [Hnd' Hin'].
    destruct (IH _ Hnd') as [H1 H2]. split; [exact H1|].
    intros x. rewrite H2, Hin'. split.
    + intros [[H|H]|(g' & Hg' & Hx)]; [tauto| |].
      * right. exists g. split; [left; reflexivity|exact H].
      * right. exists g'. split; [right; exact Hg'|exact Hx].
    + intros [H|(g' & [<-|Hg'] & Hx)]; [tauto|tauto|].
      right. exists g'. tauto.
Qed.

Lemma token_candidates_In (lowerstr : list byte -> list byte) (bin : LemmaIsBinary)
    (tokens : list (list byte)) (td : list (list LemmaCandidate))
    (cands : list LemmaCandidate) :
  token_candidates lowerstr bin tokens = Some td -> In cands td ->
  exists t, In t tokens /\ lemma_is_get_candidates lowerstr bin t = Some cands.
Proof.
  revert td. induction tokens as [|t tokens IH]; intros td H Hin;
    cbn [token_candidates] in H.
  - injection H as <-. destruct Hin.
  - destruct (lemma_is_get_candidates lowerstr bin t) as [c|] eqn:Ec; [|discriminate].
    cbn [bind] in H.
    destruct (token_candidates lowerstr bin tokens) as [r|]; [|discriminate].
    cbn [bind] in H. injection H as <-. destruct Hin as [<-|Hin].
    + exists t. split; [left; reflexivity|exact Ec].
    + destruct (IH _ eq_refl Hin) as (t' & Ht' & Hc).
      exists t'. split; [right; exact Ht'|exact Hc].
Qed.

Lemma token_groups_In {D : DoubleOps} (stop : list (list byte))
    (ctx : list (list byte * Z)) (pos_value : IcelandicPos -> Z) (bin : LemmaIsBinary)
    (td : list (list LemmaCandidate)) (prev : list LemmaCandidate)
    (gs : list (list (list byte))) (g : list (list byte)) :
  token_groups stop ctx pos_value bin prev td = Some gs -> In g gs ->
  exists cands, In cands td /\ forall x, In x g -> In x (map lemma cands).
Proof.
  revert prev gs. induction td as [|cands td IH]; intros prev gs H Hin;
    cbn [token_groups] in H.
  - injection H as <-. destruct Hin.
  - destruct (surviving_lemmas stop ctx pos_value bin prev cands _) as [g0|] eqn:Eg;
      [|discriminate].
    cbn [bind] in H.
    destruct (token_groups stop ctx pos_value bin cands td) as [r|] eqn:Er;
      [|discriminate].
    cbn [bind] in H. injection H as <-. destruct Hin as [<-|Hin].
    + exists cands. split; [left; reflexivity|].
      unfold surviving_lemmas in Eg.
      destruct (lemma_is_disambiguate_bigram bin cands prev _); [|discriminate].
      cbn [bind] in Eg. injection Eg as <-.
      intros x Hx. apply token_lemmas_in in Hx. tauto.
    + destruct (IH _ _ Er Hin) as (c' & Hc' & Hx).
      exists c'. split; [right; exact Hc'|exact Hx].
Qed.

(** X8: the array [icelandic_fts_lemmas] returns holds no lemma twice and
    is never empty (the result is NULL instead), and each of its lemmas is
    the lemma of a candidate of a token of the text.  When the result is
    NULL, [icelandic_fts_query] returns the empty query for the same
    text. *)
Theorem fts_lemmas_distinct {D : DoubleOps} (lowerstr : list byte -> list byte)
    (u_isalpha : Z -> bool) (stop : list (list byte)) (ctx : list (list byte * Z))
    (pos_value : IcelandicPos -> Z) (bin : LemmaIsBinary) (txt : list byte)
    (r : option (list (list byte))) :
  icelandic_fts_lemmas lowerstr u_isalpha stop ctx pos_value bin txt = Some r ->
  match r with
  | None =>
      icelandic_fts_query lowerstr u_isalpha stop ctx pos_value bin txt = Some []
  | Some ls =>
      ls <> [] /\ NoDup ls
      /\ forall x, In x ls ->
           exists t cands,
             In t (icelandic_tokenize_words u_isalpha txt)
             /\ lemma_is_get_candidates lowerstr bin t = Some cands
             /\ In x (map lemma cands)
  end.
Proof.
  unfold icelandic_fts_lemmas, icelandic_fts_query.
  destruct (token_candidates lowerstr bin (icelandic_tokenize_words u_isalpha txt))
    as [td|] eqn:Etd; [|discriminate].
  cbn [bind].
  destruct (token_groups stop ctx pos_value bin [] td) as [groups|] eqn:Egs;
    [|discriminate].
  cbn [bind].
  destruct (collect_groups_spec groups []) as [Hnd Hin]; [constructor|].
  destruct (fold_left collect_lemmas groups []) as [|l ls] eqn:El.
  - cbn [length Nat.eqb]. intros [= <-]. f_equal.
    rewrite build_query_text. unfold query_text.
    replace (filter nonempty groups) with (@nil (list (list byte))); [reflexivity|].
    symmetry. assert (forall g, In g groups -> g = []) as Hempty.
    { intros [|x g] Hg; [reflexivity|]. exfalso. apply (proj2 (Hin x)).
      right. exists (x :: g). split; [exact Hg|left; reflexivity]. }
    clear - Hempty. induction groups as [|g groups IH]; [reflexivity|].
    rewrite (Hempty g (or_introl eq_refl)). cbn [filter nonempty].
    apply IH. intros g' Hg'. apply Hempty. right. exact Hg'.
  - cbn [length Nat.eqb]. intros [= <-]. split; [discriminate|]. split; [exact Hnd|].
    intros x Hx. apply Hin in Hx. destruct Hx as [[]|(g & Hg & Hx)].
    destruct (token_groups_In stop ctx pos_value bin td [] groups g Egs Hg)
      as (cands & Hc & Hsub).
    destruct (token_candidates_In lowerstr bin _ td cands Etd Hc) as (t & Ht & Hcs).
    exists t, cands. auto.
Qed.

Lemma fts_lemmas_distinct_witness :
  @icelandic_fts_lemmas real_double (fun w => w) latin1_alpha sample_stopwords
    sample_contextual pos_ordinal sample_bin (lit "fer")
  = Some (Some [lit "fara"; lit "far"])
  /\ NoDup [lit "fara"; lit "far"].
Proof.
  assert (@icelandic_fts_lemmas real_double (fun w => w) latin1_alpha sample_stopwords
            sample_contextual pos_ordinal sample_bin (lit "fer")
          = Some (Some [lit "fara"; lit "far"])) as H.
  { unfold icelandic_fts_lemmas.
    replace (icelandic_tokenize_words latin1_alpha (lit "fer")) with [lit "fer"]
      by (vm_compute; reflexivity).
    replace (token_candidates (fun w => w) sample_bin [lit "fer"])
      with (Some [[cand_fara; cand_far]]) by (vm_compute; reflexivity).
    cbn [bind token_groups]. unfold surviving_lemmas.
    rewrite (@disambiguate_no_evidence real_double real_double_order)
      by (intros x _; reflexivity).
    cbn [bind option_map out_lemma out_pos out_by_bigram].
    vm_compute. reflexivity. }
  split; [exact H|].
  exact (proj1 (proj2 (fts_lemmas_distinct _ _ _ _ _ _ _ _ H))).
Defined.

(** *** Tokens without bigram evidence *)

Lemma token_lemmas_unfiltered (dl : option (list byte)) (cands : list LemmaCandidate) :
  token_lemmas_of false dl cands = token_lemmas_of false None cands.
Proof.
  unfold token_lemmas_of. generalize (@nil (list byte)).
  induction cands as [|c cands IH]; intros acc; [reflexivity|].
  cbn [fold_left]. rewrite IH. reflexivity.
Qed.

Section NoEvidence.

Context {D : DoubleOps} {O : DoubleOrder D}.
Variable stop : list (list byte).
Variable ctx : list (list byte * Z).
Variable pos_value : IcelandicPos -> Z.
Variable bin : LemmaIsBinary.

Lemma surviving_no_evidence (prev cands next : list LemmaCandidate) :
  (forall c p, In c cands -> In p prev ->
     lemma_is_bigram_freq bin (lemma p) (lemma c) = Some 0) ->
  (forall c n, In c cands -> In n next ->
     lemma_is_bigram_freq bin (lemma c) (lemma n) = Some 0) ->
  surviving_lemmas stop ctx pos_value bin prev cands next
  = Some (token_lemmas_of false None cands).
Proof.
  intros Hp Hn. unfold surviving_lemmas. destruct cands as [|c cs].
  - reflexivity.
  - rewrite disambiguate_no_evidence.
    + cbn [bind option_map out_lemma out_pos out_by_bigram].
      rewrite token_lemmas_unfiltered. reflexivity.
    + intros x Hx. apply candidate_score_no_match.
      * intros p Hin. apply Hp; assumption.
      * intros n Hin. apply Hn; assumption.
Qed.

Lemma token_groups_no_bigrams (td : list (list LemmaCandidate))
    (prev : list LemmaCandidate) :
  (forall w1 w2, lemma_is_bigram_freq bin w1 w2 = Some 0) ->
  token_groups stop ctx pos_value bin prev td
  = Some (map (token_lemmas_of false None) td).
Proof.
  intros Hz. revert prev. induction td as [|cands td IH]; intros prev;
    cbn [token_groups map]; [reflexivity|].
  rewrite surviving_no_evidence by (intros; apply Hz). cbn [bind].
  rewrite IH. reflexivity.
Qed.

End NoEvidence.

(** X9: the stopword filter acts on bigram evidence only.  With a
    dictionary that has no bigrams, and for any dictionary on a text of a
    single token, no token is filtered, whatever the stopword tables hold:
    the query is built from all the distinct lemmas of the candidates of
    every token, and [icelandic_fts_lemmas] returns all of them. *)
Theorem no_evidence_no_filter {D : DoubleOps} {O : DoubleOrder D}
    (lowerstr : list byte -> list byte) (u_isalpha : Z -> bool)
    (stop : list (list byte)) (ctx : list (list byte * Z))
    (pos_value : IcelandicPos -> Z) (bin : LemmaIsBinary) (txt : list byte)
    (td : list (list LemmaCandidate)) :
  token_candidates lowerstr bin (icelandic_tokenize_words u_isalpha txt) = Some td ->
  bigramCount bin = 0 \/ (length td <= 1)%nat ->
  let groups := map (token_lemmas_of false None) td in
  icelandic_fts_query lowerstr u_isalpha stop ctx pos_value bin txt
  = Some (build_query groups)
  /\ icelandic_fts_lemmas lowerstr u_isalpha stop ctx pos_value bin txt
     = Some match fold_left collect_lemmas groups [] with
            | [] => None
            | ls => Some ls
            end.
Proof.
  intros Htd Hcase groups.
  assert (token_groups stop ctx pos_value bin [] td = Some groups) as Hgs.
  { destruct Hcase as [Hz|Hone].
    - apply token_groups_no_bigrams. intros w1 w2.
      unfold lemma_is_bigram_freq, lemma_is_find_bigram. rewrite Hz. reflexivity.
    - subst groups. destruct td as [|cands [|c2 td]]; [reflexivity| |cbn in Hone; lia].
      cbn [token_groups map]. rewrite surviving_no_evidence.
      + reflexivity.
      + intros c p _ [].
      + intros c n _ []. }
  unfold icelandic_fts_query, icelandic_fts_lemmas. rewrite Htd. cbn [bind].
  rewrite Hgs. cbn [bind]. split; [reflexivity|].
  destruct (fold_left collect_lemmas groups []); reflexivity.
Qed.

Lemma no_evidence_no_filter_witness :
  @icelandic_fts_query real_double (fun w => w) latin1_alpha sample_stopwords
    sample_contextual pos_ordinal plain_bin (lit "hestur er")
  = Some (lit "hestur & vera")
  /\ @icelandic_fts_query real_double (fun w => w) latin1_alpha sample_stopwords
       sample_contextual pos_ordinal sample_bin (lit "er")
     = Some (lit "vera").
Proof.
  split.
  - destruct (@no_evidence_no_filter real_double real_double_order (fun w => w)
                latin1_alpha sample_stopwords sample_contextual pos_ordinal plain_bin
                (lit "hestur er") [[cand_hestur]; [mkCandidate (lit "vera") POS_SO 0 0 0]])
      as [Hq _].
    + vm_compute. reflexivity.
    + left. vm_compute. reflexivity.
    + rewrite Hq. vm_compute. reflexivity.
  - destruct (@no_evidence_no_filter real_double real_double_order (fun w => w)
                latin1_alpha sample_stopwords sample_contextual pos_ordinal sample_bin
                (lit "er") [[mkCandidate (lit "vera") POS_SO 0 0 0]])
      as [Hq _].
    + vm_compute. reflexivity.
    + right. cbn. lia.
    + rewrite Hq. vm_compute. reflexivity.
Defined.

(** ** The tokens as spans of the text *)

Lemma spans_from_weaken (alpha : Z -> bool) (input : list byte) (from from' : nat)
    (spans : list (nat * nat)) :
  (from <= from')%nat -> spans_from alpha input from' spans ->
  spans_from alpha input from spans.
Proof.
  intros Hle. destruct spans as [|[s n] rest]; [trivial|].
  cbn [spans_from]. intros (H1 & H2 & H3 & H4 & H5 & H6).
  split; [lia|]. auto.
Qed.

(** The inner loop stops after a letter: a joiner is taken only when a
    letter follows, and that letter is taken next. *)
Lemma token_end_letter (alpha : Z -> bool) (input : list byte) (start fuel off : nat) :
  (length input - off <= fuel)%nat -> (start <= off)%nat ->
  letter_before alpha input start off
  \/ ((off < length input)%nat /\ alpha (utf8_to_unicode input off) = true) ->
  letter_before alpha input start (token_end alpha input (length input) fuel off).
Proof.
  revert off. induction fuel as [|fuel IH]; intros off Hfuel Hstart HP;
    cbn [token_end].
  - destruct HP as [H|[Hlt _]]; [exact H|lia].
  - destruct (Nat.ltb_spec off (length input)) as [Hlt|Hge].
    2:{ destruct HP as [H|[Hlt _]]; [exact H|lia]. }
    pose proof (pg_mblen_pos input off) as Hmb. unfold icelandic_is_alpha.
    destruct (alpha (utf8_to_unicode input off)) eqn:Ea.
    + apply IH; [lia|lia|]. left. exists off. auto.
    + assert (letter_before alpha input start off) as Hstop
        by (destruct HP as [H|[_ H]]; [exact H|congruence]).
      destruct (icelandic_is_word_joiner (utf8_to_unicode input off)); [|exact Hstop].
      destruct (Nat.ltb_spec (off + pg_mblen input off) (length input)) as [Hin|Hout];
        [|exact Hstop].
      destruct (alpha (utf8_to_unicode input (off + pg_mblen input off))) eqn:Eafter;
        [|exact Hstop].
      apply IH; [lia|lia|]. right. split; [exact Hin|exact Eafter].
Qed.

Lemma scan_spans (alpha : Z -> bool) (input : list byte) (k off : nat) :
  (length input - off <= k)%nat ->
  spans_from alpha input off (scan alpha (rest_from input off) off None).
Proof.
  revert off. induction k as [|k IH]; intros off Hk.
  - rewrite rest_from_end by lia. exact I.
  - destruct (Nat.lt_ge_cases off (length input)) as [Hlt|Hge].
    2:{ rewrite rest_from_end by lia. exact I. }
    pose proof (pg_mblen_pos input off) as Hmb.
    rewrite (rest_from_step input off Hlt). cbn [scan].
    destruct (alpha (utf8_to_unicode input off)) eqn:Ea.
    + destruct (token_end_scan alpha input (length input) (off + pg_mblen input off) off
                  ltac:(lia)) as [Hle Hscan].
      rewrite Hscan. cbn [spans_from].
      split; [lia|]. split; [lia|]. split; [exact Hlt|]. split; [exact Ea|].
      replace (off + (token_end alpha input (length input) (length input)
                        (off + pg_mblen input off) - off))%nat
        with (token_end alpha input (length input) (length input)
                        (off + pg_mblen input off)) by lia.
      split; [|apply IH; lia].
      apply token_end_letter; [lia|lia|]. left. exists off. auto.
    + apply spans_from_weaken with (from' := (off + pg_mblen input off)%nat); [lia|].
      apply IH. lia.
Qed.

Lemma spans_from_count (alpha : Z -> bool) (input : list byte) (from : nat)
    (spans : list (nat * nat)) :
  spans_from alpha input from spans -> (length spans <= length input - from)%nat.
Proof.
  revert from. induction spans as [|[s n] rest IH]; intros from H; cbn [length]; [lia|].
  cbn [spans_from] in H. destruct H as (H1 & H2 & H3 & _ & _ & H5).
  specialize (IH _ H5). lia.
Qed.

Lemma spans_from_In (alpha : Z -> bool) (input : list byte) (from : nat)
    (spans : list (nat * nat)) (s n : nat) :
  spans_from alpha input from spans -> In (s, n) spans ->
  (s < length input)%nat /\ (1 <= n)%nat.
Proof.
  revert from. induction spans as [|[s' n'] rest IH]; intros from Hsp Hin; [destruct Hin|].
  cbn [spans_from] in Hsp. destruct Hsp as (_ & H2 & H3 & _ & _ & H5).
  destruct Hin as [[= -> ->]|Hin]; [split; assumption|].
  exact (IH _ H5 Hin).
Qed.

Lemma skipn_nul_free (s : list byte) (n : nat) : ~ In x00 s -> ~ In x00 (skipn n s).
Proof.
  intros H Hin. apply H. rewrite <- (firstn_skipn n s). apply in_or_app. right. exact Hin.
Qed.

Lemma tokens_spans (alpha : Z -> bool) (input : list byte) :
  exists spans,
    icelandic_tokenize_words alpha input = map (span_text input) spans
    /\ spans_from alpha input 0 spans.
Proof.
  exists (scan alpha (code_points input) 0 None). split; [apply tokenize_scan|].
  pose proof (scan_spans alpha input (length input) 0 ltac:(lia)) as H.
  unfold rest_from in H. rewrite Nat.sub_0_r in H. exact H.
Qed.

(** X10: the tokens of [icelandic_tokenize_words] are spans of the text in
    text order: each span starts at a letter inside the text and ends after
    a letter (a joiner is never the first or the last character of a
    token), is at least one byte long, and starts at or after the end of the
    span before it, so that tokens never overlap and there are at most as
    many tokens as bytes.
    On a text without a NUL byte every token is the bytes of its span, and
    no token is the empty string. *)
Theorem tokens_are_spans (alpha : Z -> bool) (input : list byte) :
  exists spans,
    icelandic_tokenize_words alpha input = map (span_text input) spans
    /\ spans_from alpha input 0 spans
    /\ (length (icelandic_tokenize_words alpha input) <= length input)%nat
    /\ (~ In x00 input ->
        icelandic_tokenize_words alpha input
        = map (fun sp => firstn (snd sp) (skipn (fst sp) input)) spans
        /\ Forall (fun t => t <> []) (icelandic_tokenize_words alpha input)).
Proof.
  destruct (tokens_spans alpha input) as (spans & Htok & Hsp).
  exists spans. split; [exact Htok|]. split; [exact Hsp|]. split.
  - rewrite Htok, length_map. pose proof (spans_from_count _ _ _ _ Hsp). lia.
  - intros Hnul.
    assert (map (span_text input) spans
            = map (fun sp => firstn (snd sp) (skipn (fst sp) input)) spans) as Hmap.
    { apply map_ext. intros [s n]. unfold span_text. cbn [fst snd].
      apply pnstrdup_str_firstn. apply skipn_nul_free. exact Hnul. }
    rewrite Htok, Hmap. split; [reflexivity|].
    apply Forall_forall. intros t Ht. apply in_map_iff in Ht.
    destruct Ht as ([s n] & <- & Hin). cbn [fst snd].
    destruct (spans_from_In _ _ _ _ _ _ Hsp Hin) as [Hs Hn].
    intros E. apply (f_equal (@length byte)) in E.
    rewrite length_firstn, length_skipn in E. cbn [length] in E. lia.
Qed.

Lemma tokens_are_spans_witness :
  ~ In x00 (lit "hestur fer")
  /\ icelandic_tokenize_words latin1_alpha (lit "hestur fer") = [lit "hestur"; lit "fer"]
  /\ Forall (fun t => t <> []) (icelandic_tokenize_words latin1_alpha (lit "hestur fer")).
Proof.
  assert (~ In x00 (lit "hestur fer")) as Hnul.
  { vm_compute. intros H. repeat (destruct H as [H|H]; [discriminate|]). exact H. }
  split; [exact Hnul|]. split; [vm_compute; reflexivity|].
  destruct (tokens_are_spans latin1_alpha (lit "hestur fer")) as (spans & _ & _ & _ & H).
  exact (proj2 (H Hnul)).
Defined.

(** X11: a text without a letter has no tokens, and the dictionary is not
    consulted for it: whatever the dictionary and the stopword tables are,
    [icelandic_fts_query] returns the empty query and
    [icelandic_fts_lemmas] returns NULL.  The empty text is such a text. *)
Theorem text_without_letters {D : DoubleOps} (lowerstr : list byte -> list byte)
    (u_isalpha : Z -> bool) (stop : list (list byte)) (ctx : list (list byte * Z))
    (pos_value : IcelandicPos -> Z) (bin : LemmaIsBinary) (txt : list byte) :
  (forall off, (off < length txt)%nat -> u_isalpha (utf8_to_unicode txt off) = false) ->
  icelandic_tokenize_words u_isalpha txt = []
  /\ icelandic_fts_query lowerstr u_isalpha stop ctx pos_value bin txt = Some []
  /\ icelandic_fts_lemmas lowerstr u_isalpha stop ctx pos_value bin txt = Some None.
Proof.
  intros Hno.
  assert (icelandic_tokenize_words u_isalpha txt = []) as Htok.
  { destruct (tokens_spans u_isalpha txt) as (spans & Htok & Hsp).
    destruct spans as [|[s n] rest]; [exact Htok|].
    cbn [spans_from] in Hsp. destruct Hsp as (_ & _ & Hs & Ha & _).
    rewrite (Hno s Hs) in Ha. discriminate. }
  split; [exact Htok|].
  unfold icelandic_fts_query, icelandic_fts_lemmas. rewrite Htok.
  split; reflexivity.
Qed.

Lemma text_without_letters_witness :
  icelandic_tokenize_words latin1_alpha (lit "12 - 3!") = []
  /\ @icelandic_fts_query real_double (fun w => w) latin1_alpha sample_stopwords
       sample_contextual pos_ordinal version2_bin (lit "12 - 3!") = Some []
  /\ @icelandic_fts_lemmas real_double (fun w => w) latin1_alpha sample_stopwords
       sample_contextual pos_ordinal version2_bin (lit "12 - 3!") = Some None.
Proof.
  apply (@text_without_letters real_double).
  intros off Hoff. change (length (lit "12 - 3!")) with 7%nat in Hoff.
  do 7 (destruct off as [|off]; [vm_compute; reflexivity|]). lia.
Defined.

(** ** The layout of a loaded dictionary *)

Lemma load_regions_layout (d : list byte) (v sps lc wc ec bc : Z) (bin : LemmaIsBinary) :
  let sz := Z.of_nat (length d) in
  let h := mkHeader MAGIC v sps lc wc ec bc in
  sz < 2 ^ 32 ->
  0 <= sps < 2 ^ 32 -> 0 <= lc < 2 ^ 32 -> 0 <= wc < 2 ^ 32 ->
  0 <= ec < 2 ^ 32 -> 0 <= bc < 2 ^ 32 ->
  lemma_is_load_regions d sz v sps lc wc ec bc = Loaded bin ->
  (version bin, stringPoolSize bin, lemmaCount bin, wordCount bin, entryCount bin,
   bigramCount bin) = (v, sps, lc, wc, ec, bc)
  /\ [stringPool bin; lemmaOffsets bin; lemmaLengths bin; wordOffsets bin;
      wordLengths bin; entryOffsets bin; entries bin]
     ++ (if bc >? 0
         then [bigramW1Offsets bin; bigramW1Lengths bin; bigramW2Offsets bin;
               bigramW2Lengths bin; bigramFreqs bin]
         else [])
     = map (fun r => Some (fst r)) (declared_regions h)
  /\ (bc = 0 ->
      bigramW1Offsets bin = None /\ bigramW1Lengths bin = None
      /\ bigramW2Offsets bin = None /\ bigramW2Lengths bin = None
      /\ bigramFreqs bin = None)
  /\ (exists a b c, wordOffsets bin = Some a /\ entryOffsets bin = Some b
                    /\ entries bin = Some c
                    /\ a mod 4 = 0 /\ b mod 4 = 0 /\ c mod 4 = 0)
  /\ 36 + sps + 5 * lc + 5 * wc + 4 * ec + (if bc >? 0 then 13 * bc else 0) <= sz.
Proof.
  intros sz h Hsize Hs Hl Hw He Hb.
  pose proof (Zle_0_nat (length d)) as Hsz0. fold sz in Hsz0. clearbody sz.
  subst h. unfold declared_regions.
  cbn [h_stringPoolSize h_lemmaCount h_wordCount h_entryCount h_bigramCount].
  destruct (Z.eq_dec wc (2 ^ 32 - 1)) as [Hwc|Hwc].
  - unfold lemma_is_load_regions. cbv zeta.
    destruct (SizeT (32 + sps) >? sz) eqn:E1; [discriminate|].
    replace (u32 (wc + 1)) with 0 by (subst wc; reflexivity).
    unwrap_offsets.
    match goal with |- context [if ?c then _ else _] => destruct c eqn:E2 end;
      [discriminate|].
    exfalso. layout_lia.
  - unfold lemma_is_load_regions. cbv zeta. unwrap_offsets.
    destruct (32 + sps >? sz) eqn:E1; [discriminate|].
    match goal with |- context [if ?c then _ else _] => destruct c eqn:E2 end;
      [discriminate|].
    rewrite ?(Z.mul_comm lc 4), ?(Z.mul_comm wc 4), ?(Z.mul_comm ec 4),
      ?(Z.mul_comm bc 4), ?(Z.mul_comm (wc + 1) 4) in *.
    destruct (bc >? 0) eqn:E3.
    + match goal with |- context [if ?c then _ else _] => destruct c eqn:E4 end;
        [discriminate|].
      intros Hbin.
      pose proof (f_equal (fun r => match r with Loaded b => b | _ => bin end) Hbin)
        as Hb'.
      cbv beta iota in Hb'. clear Hbin. subst bin.
      cbn [version stringPoolSize lemmaCount wordCount entryCount bigramCount
           stringPool lemmaOffsets lemmaLengths wordOffsets wordLengths entryOffsets
           entries bigramW1Offsets bigramW1Lengths bigramW2Offsets bigramW2Lengths
           bigramFreqs map app fst].
      split; [reflexivity|]. split; [reflexivity|]. split; [lia|].
      split; [|layout_lia].
      eexists; eexists; eexists.
      split; [reflexivity|]. split; [reflexivity|]. split; [reflexivity|].
      layout_lia.
    + intros Hbin.
      pose proof (f_equal (fun r => match r with Loaded b => b | _ => bin end) Hbin)
        as Hb'.
      cbv beta iota in Hb'. clear Hbin. subst bin.
      cbn [version stringPoolSize lemmaCount wordCount entryCount bigramCount
           stringPool lemmaOffsets lemmaLengths wordOffsets wordLengths entryOffsets
           entries bigramW1Offsets bigramW1Lengths bigramW2Offsets bigramW2Lengths
           bigramFreqs map app fst].
      split; [reflexivity|]. split; [reflexivity|].
      split; [intros _; repeat split|].
      split; [|layout_lia].
      eexists; eexists; eexists.
      split; [reflexivity|]. split; [reflexivity|]. split; [reflexivity|].
      layout_lia.
Qed.

(** X12: what [lemma_is_load_binary] returns from a file of less than
    4 GiB.  The version and the five counts are those of the header; the
    pointers are the starts of the regions the header declares, computed
    without wrap-around: the string pool at byte 32, then the lemma table,
    the word table, the entry ranges and the entries, and the bigram tables
    when there are bigrams; without bigrams the five bigram pointers are
    NULL.  The word table, the entry ranges and the entries start at
    multiples of four.  The file is at least as long as the header counts
    require: 36 bytes, the string pool, five bytes for every lemma and for
    every word, four for every entry and thirteen for every bigram. *)
Theorem loaded_layout (d : list byte) (bin : LemmaIsBinary) :
  Z.of_nat (length d) < 2 ^ 32 ->
  lemma_is_load_binary d = Loaded bin ->
  exists h, read_header d = Some h /\ h_magic h = MAGIC
    /\ (version bin, stringPoolSize bin, lemmaCount bin, wordCount bin, entryCount bin,
        bigramCount bin)
       = (h_version h, h_stringPoolSize h, h_lemmaCount h, h_wordCount h,
          h_entryCount h, h_bigramCount h)
    /\ [stringPool bin; lemmaOffsets bin; lemmaLengths bin; wordOffsets bin;
        wordLengths bin; entryOffsets bin; entries bin]
       ++ (if bigramCount bin >? 0
           then [bigramW1Offsets bin; bigramW1Lengths bin; bigramW2Offsets bin;
                 bigramW2Lengths bin; bigramFreqs bin]
           else [])
       = map (fun r => Some (fst r)) (declared_regions h)
    /\ (bigramCount bin = 0 ->
        bigramW1Offsets bin = None /\ bigramW1Lengths bin = None
        /\ bigramW2Offsets bin = None /\ bigramW2Lengths bin = None
        /\ bigramFreqs bin = None)
    /\ (exists a b c, wordOffsets bin = Some a /\ entryOffsets bin = Some b
                      /\ entries bin = Some c
                      /\ a mod 4 = 0 /\ b mod 4 = 0 /\ c mod 4 = 0)
    /\ 36 + stringPoolSize bin + 5 * lemmaCount bin + 5 * wordCount bin
       + 4 * entryCount bin + (if bigramCount bin >? 0 then 13 * bigramCount bin else 0)
       <= Z.of_nat (length d).
Proof.
  intros Hsize Hload.
  destruct (Z.lt_ge_cases (Z.of_nat (length d)) 28) as [Hshort|Hlong].
  - exfalso. revert Hload. unfold lemma_is_load_binary, header32.
    destruct (Z.of_nat (length d) <=? 0); [discriminate|].
    repeat match goal with
           | |- context [load32 d ?o] =>
               let E := fresh "E" in
               destruct (load32 d o) eqn:E; [apply load32_bounds in E|discriminate]
           | |- context [if ?c then Raised _ else _] => destruct c; [discriminate|]
           end.
    lia.
  - destruct (read_header_Some d) as (h & Hh & Hm & Hv & Hs & Hl & Hw & He & Hb); [lia|].
    rewrite (load_binary_with_header d h) in Hload by (lia || exact Hh).
    destruct (Z.eqb_spec (h_magic h) MAGIC) as [Emagic|Emagic]; cbn [negb] in Hload;
      [|discriminate].
    destruct (negb (h_version h =? 1) && negb (h_version h =? 2)); [discriminate|].
    exists h. split; [exact Hh|]. split; [exact Emagic|].
    pose proof (load_regions_layout d (h_version h) (h_stringPoolSize h)
                  (h_lemmaCount h) (h_wordCount h) (h_entryCount h) (h_bigramCount h)
                  bin Hsize Hs Hl Hw He Hb Hload) as (Hf & Hp & Hn & Ha & Hsz).
    replace (mkHeader MAGIC (h_version h) (h_stringPoolSize h) (h_lemmaCount h)
               (h_wordCount h) (h_entryCount h) (h_bigramCount h)) with h in Hp
      by (destruct h; cbn in *; congruence).
    injection Hf as Hf1 Hf2 Hf3 Hf4 Hf5 Hf6.
    rewrite Hf1, Hf2, Hf3, Hf4, Hf5, Hf6. auto 10.
Qed.

Lemma loaded_layout_witness :
  lemma_is_load_binary sample_image = Loaded sample_bin
  /\ wordOffsets sample_bin = Some 72
  /\ 36 + 17 + 5 * 4 + 5 * 5 + 4 * 8 + 13 * 3 <= Z.of_nat (length sample_image).
Proof.
  assert (Z.of_nat (length sample_image) < 2 ^ 32) as Hsize by by_computation.
  destruct (loaded_layout sample_image sample_bin Hsize sample_bin_loaded)
    as (h & _ & _ & _ & _ & _ & _ & Hlen).
  split; [exact sample_bin_loaded|]. split; [vm_compute; reflexivity|].
  exact Hlen.
Defined.

(** ** The stopword tables without their order *)

Lemma bsearch_loop_hit (compar : nat -> Z) (fuel l u i : nat) :
  bsearch_loop compar fuel l u = Some i -> compar i = 0 /\ (l <= i < u)%nat.
Proof.
  revert l u. induction fuel as [|fuel IH]; intros l u H; cbn [bsearch_loop] in H;
    [discriminate|].
  destruct (Nat.ltb_spec l u) as [Hlt|Hge]; [|discriminate].
  cbv zeta in H. set (idx := ((l + u) / 2)%nat) in *.
  assert (l <= idx < u)%nat as Hidx.
  { subst idx. split.
    - apply Nat.div_le_lower_bound; lia.
    - apply Nat.Div0.div_lt_upper_bound; lia. }
  clearbody idx.
  destruct (Z.ltb_spec (compar idx) 0) as [Hneg|Hnn].
  - apply IH in H. lia.
  - destruct (Z.gtb_spec (compar idx) 0) as [Hpos|Hnp].
    + apply IH in H. lia.
    + injection H as <-. lia.
Qed.

Lemma bsearch_hit {E : Type} (compar : list byte -> E -> Z) (key : list byte)
    (base : list E) (e : E) :
  bsearch compar key base = Some e -> In e base /\ compar key e = 0.
Proof.
  unfold bsearch. destruct base as [|e0 rest]; [discriminate|].
  destruct (bsearch_loop _ _ _ _) as [i|] eqn:Ei; [|discriminate].
  intros He. split; [apply nth_error_In with (n := i); exact He|].
  apply bsearch_loop_hit in Ei. destruct Ei as [Hz _].
  rewrite (nth_error_nth _ _ e0 He) in Hz. exact Hz.
Qed.

(** X13: the stopword tests report nothing that is not in the tables,
    whether or not the tables are sorted: [lemma_is_stopword_simple] is true
    only for a word of the plain list, and [lemma_is_contextual_stopword] is
    true only for a lemma of the contextual table whose mask has the bit of
    the tag, or for a word of the plain list.  A table that is not sorted
    can only make [bsearch] miss an entry.  With both tables empty nothing
    is a stopword. *)
Theorem stopword_hits (stop : list (list byte)) (ctx : list (list byte * Z))
    (pos_value : IcelandicPos -> Z) (l : list byte) (p : IcelandicPos) :
  (lemma_is_stopword_simple stop l = true -> In l stop)
  /\ (lemma_is_contextual_stopword stop ctx pos_value l p = true ->
      In l stop
      \/ exists mask, In (l, mask) ctx
           /\ Z.land (u16 mask) (Z.shiftl 1 (pos_value p)) <> 0)
  /\ lemma_is_contextual_stopword [] [] pos_value l p = false.
Proof.
  assert (lemma_is_stopword_simple stop l = true -> In l stop) as Hsimple.
  { unfold lemma_is_stopword_simple. destruct (Z.of_nat (length stop) =? 0); [discriminate|].
    destruct (bsearch compare_stopword l stop) as [e|] eqn:Ee; [|discriminate].
    intros _. apply bsearch_hit in Ee. destruct Ee as [Hin Hz].
    unfold compare_stopword in Hz. apply strcmp_zero in Hz. subst e. exact Hin. }
  split; [exact Hsimple|]. split; [|reflexivity].
  unfold lemma_is_contextual_stopword.
  destruct (Z.of_nat (length ctx) =? 0); [intros H; left; exact (Hsimple H)|].
  destruct (bsearch compare_contextual_stopword l ctx) as [[k mask]|] eqn:Ee;
    [|intros H; left; exact (Hsimple H)].
  apply bsearch_hit in Ee. destruct Ee as [Hin Hz].
  unfold compare_contextual_stopword in Hz. cbn [fst] in Hz.
  apply strcmp_zero in Hz. subst k. cbn [snd]. intros H. right. exists mask.
  split; [exact Hin|]. intros E. rewrite E in H. discriminate.
Qed.

Lemma stopword_hits_witness :
  lemma_is_contextual_stopword sample_stopwords sample_contextual pos_ordinal
    (lit "vera") POS_SO = true
  /\ (In (lit "vera") sample_stopwords
      \/ exists mask, In (lit "vera", mask) sample_contextual
           /\ Z.land (u16 mask) (Z.shiftl 1 (pos_ordinal POS_SO)) <> 0)
  /\ lemma_is_stopword_simple sample_stopwords (lit "og") = true
  /\ In (lit "og") sample_stopwords.
Proof.
  destruct (stopword_hits sample_stopwords sample_contextual pos_ordinal (lit "vera") POS_SO)
    as (_ & Hctx & _).
  destruct (stopword_hits sample_stopwords sample_contextual pos_ordinal (lit "og") POS_SO)
    as (Hsimple & _ & _).
  assert (lemma_is_contextual_stopword sample_stopwords sample_contextual pos_ordinal
            (lit "vera") POS_SO = true) as H1 by (vm_compute; reflexivity).
  assert (lemma_is_stopword_simple sample_stopwords (lit "og") = true) as H2
    by (vm_compute; reflexivity).
  split; [exact H1|]. split; [exact (Hctx H1)|]. split; [exact H2|exact (Hsimple H2)].
Defined.

(** ** The query of two runs of tokens *)

Lemma join_app (sep : list byte) (a b : list (list byte)) :
  a <> [] -> b <> [] -> join sep (a ++ b) = join sep a ++ sep ++ join sep b.
Proof.
  intros Ha Hb. destruct a as [|p a]; [congruence|]. destruct b as [|q b]; [congruence|].
  cbn [join app]. rewrite map_app, concat_app. cbn [map concat join].
  rewrite <- !app_assoc. reflexivity.
Qed.

(** X14: the query of a sequence of lemma groups is put together from the
    queries of its parts: the query of [gs1 ++ gs2] is the two queries with
    [" & "] between them when both parts have a group with a lemma, and the
    query of the part that has one otherwise.  A group without lemmas can be
    left out anywhere, and the query is empty when no group has a lemma. *)
Theorem build_query_app (gs1 gs2 : list (list (list byte))) :
  build_query (gs1 ++ gs2)
  = (if existsb nonempty gs1
     then if existsb nonempty gs2
          then build_query gs1 ++ lit " & " ++ build_query gs2
          else build_query gs1
     else build_query gs2)
  /\ build_query (gs1 ++ [] :: gs2) = build_query (gs1 ++ gs2)
  /\ (existsb nonempty gs1 = false -> build_query gs1 = []).
Proof.
  assert (forall gs : list (list (list byte)),
            existsb nonempty gs = false -> filter nonempty gs = []) as Hnone.
  { induction gs as [|g gs IH]; [reflexivity|]. cbn [existsb filter].
    destruct (nonempty g); [discriminate|]. exact IH. }
  assert (forall gs : list (list (list byte)),
            existsb nonempty gs = true -> filter nonempty gs <> []) as Hsome.
  { induction gs as [|g gs IH]; [discriminate|]. cbn [existsb filter].
    destruct (nonempty g); [discriminate|]. exact IH. }
  rewrite !build_query_text. unfold query_text. rewrite !filter_app, !map_app.
  split; [|split].
  - destruct (existsb nonempty gs1) eqn:E1.
    + destruct (existsb nonempty gs2) eqn:E2.
      * apply join_app.
        -- intros H. apply map_eq_nil in H. exact (Hsome _ E1 H).
        -- intros H. apply map_eq_nil in H. exact (Hsome _ E2 H).
      * rewrite (Hnone _ E2). cbn [map]. rewrite app_nil_r. reflexivity.
    + rewrite (Hnone _ E1). reflexivity.
  - reflexivity.
  - intros E. rewrite (Hnone _ E). reflexivity.
Qed.

Lemma build_query_app_witness :
  build_query ([[lit "hestur"]] ++ [[lit "fara"; lit "far"]])
  = lit "hestur & (fara | far)"
  /\ build_query [[]; []] = [].
Proof.
  destruct (build_query_app [[lit "hestur"]] [[lit "fara"; lit "far"]]) as (Happ & _ & _).
  destruct (build_query_app [[]; []] []) as (_ & _ & Hnone).
  split; [rewrite Happ; vm_compute; reflexivity|].
  apply Hnone. reflexivity.
Defined.

(** ** Reads of the bigram tables and of the whole pipeline *)

Section BigramsInBounds.

Variable bin : LemmaIsBinary.
Hypothesis L : laid_out bin.
Hypothesis small : size bin < 2 ^ 32.
Hypothesis B : bigrams_in_bounds bin.

Lemma bigram_count_small : 0 <= bigramCount bin < 2 ^ 30.
Proof.
  pose proof (lo_bigramCount _ L) as Hb. pose proof (lo_size _ L) as Hs.
  destruct (Z.eq_dec (bigramCount bin) 0) as [E|E]; [lia|].
  destruct (lo_bigrams _ L ltac:(lia)) as ((a & _ & Ha & Hend) & _). lia.
Qed.

Lemma view_prefix_in_bounds (offsets lengths : ptr) (n i : Z) (word : list byte) :
  region_inside (data bin) offsets (4 * n) -> region_inside (data bin) lengths n ->
  (forall off len, lemma_is_u32 (data bin) offsets i = Some off ->
     deref8 (data bin) (ptr_add lengths i) = Some len ->
     off + len <= stringPoolSize bin) ->
  0 <= i < n ->
  exists off len w,
    lemma_is_u32 (data bin) offsets i = Some off
    /\ deref8 (data bin) (ptr_add lengths i) = Some len
    /\ deref_bytes (data bin) (ptr_add (stringPool bin) off)
         (Z.to_nat (if strlen word <? len then strlen word else len)) = Some w.
Proof.
  intros Ro Rl Hin Hi.
  destruct (region_u32 _ _ _ i Ro Hi) as (off & Hoff & Bo).
  destruct (region_u8 _ _ _ i Rl Hi) as (len & Hlen & Bl).
  specialize (Hin off len Hoff Hlen).
  set (minlen := if strlen word <? len then strlen word else len).
  assert (0 <= minlen <= len) as Hmin
    by (subst minlen; unfold strlen; destruct (Z.ltb_spec (Z.of_nat (length word)) len); lia).
  destruct (pool_view_bytes (data bin) (stringPool bin) (stringPoolSize bin) off len
              (Z.to_nat minlen) (lo_stringPool _ L)) as [[w Hw] _]; try lia.
  exists off, len, w. auto.
Qed.

Lemma compare_bigram_in_bounds (i : Z) (w1 w2 : list byte) :
  0 <= i < bigramCount bin ->
  exists c, lemma_is_compare_bigram bin i w1 (strlen w1) w2 (strlen w2) = Some c.
Proof.
  intros Hi.
  destruct (lo_bigrams _ L ltac:(lia)) as (R1o & R1l & R2o & R2l & _).
  destruct (view_prefix_in_bounds _ _ _ i w1 R1o R1l) as (o1 & l1 & p1 & Ho1 & Hl1 & Hp1);
    [intros off len; apply (bb_first _ B); exact Hi|exact Hi|].
  destruct (view_prefix_in_bounds _ _ _ i w2 R2o R2l) as (o2 & l2 & p2 & Ho2 & Hl2 & Hp2);
    [intros off len; apply (bb_second _ B); exact Hi|exact Hi|].
  unfold lemma_is_compare_bigram. rewrite Ho1, Hl1. cbn [bind]. rewrite Hp1. cbn [bind].
  destruct (memcmp p1 _ =? 0); [|eauto].
  destruct (l1 - strlen w1 =? 0); [|eauto].
  rewrite Ho2, Hl2. cbn [bind]. unfold compare_view. rewrite Hp2. cbn [bind].
  destruct (memcmp p2 _ =? 0); eauto.
Qed.

Lemma bigram_freq_in_bounds (w1 w2 : list byte) :
  exists f, lemma_is_bigram_freq bin w1 w2 = Some f /\ 0 <= f < 2 ^ 32.
Proof.
  pose proof bigram_count_small as Hb.
  unfold lemma_is_bigram_freq, lemma_is_find_bigram. cbv zeta.
  destruct (Z.eqb_spec (bigramCount bin) 0) as [E|E]; [exists 0; split; [reflexivity|lia]|].
  rewrite (int32_id (bigramCount bin)) by lia. rewrite int32_id by lia.
  destruct (search_loop_total
              (fun mid => lemma_is_compare_bigram bin mid w1 (strlen w1) w2 (strlen w2))
              (bigramCount bin) (Z.to_nat (bigramCount bin - 1 - 0 + 1)) 0
              (bigramCount bin - 1)) as (idx & Hidx & Hr); try lia.
  { intros i Hi. apply compare_bigram_in_bounds. exact Hi. }
  rewrite Hidx. cbn [bind].
  destruct (Z.ltb_spec idx 0) as [Hneg|Hpos]; [exists 0; split; [reflexivity|lia]|].
  rewrite u32_small by lia.
  destruct (lo_bigrams _ L ltac:(lia)) as (_ & _ & _ & _ & Rf).
  apply (region_u32 _ _ _ idx Rf). lia.
Qed.

Context {D : DoubleOps}.

Lemma candidate_score_in_bounds (prev next : list LemmaCandidate) (c : LemmaCandidate) :
  exists s, candidate_score bin prev next c = Some s.
Proof.
  unfold candidate_score.
  assert (forall ps score, exists s, score_prev bin ps c score = Some s) as Hprev.
  { induction ps as [|p ps IH]; intros score; cbn [score_prev]; [eauto|].
    destruct (bigram_freq_in_bounds (lemma p) (lemma c)) as (f & -> & _). cbn [bind].
    apply IH. }
  assert (forall ns score, exists s, score_next bin ns c score = Some s) as Hnext.
  { induction ns as [|n ns IH]; intros score; cbn [score_next]; [eauto|].
    destruct (bigram_freq_in_bounds (lemma c) (lemma n)) as (f & -> & _). cbn [bind].
    apply IH. }
  destruct (Hprev prev d_zero) as [s ->]. cbn [bind]. apply Hnext.
Qed.

Lemma disambiguate_in_bounds (cands prev next : list LemmaCandidate) :
  exists r, lemma_is_disambiguate_bigram bin cands prev next = Some r
            /\ (r = None <-> cands = []).
Proof.
  assert (forall cs i st, exists st', score_loop bin prev next cs i st = Some st')
    as Hloop.
  { induction cs as [|c cs IH]; intros i st; cbn [score_loop]; [eauto|].
    destruct (candidate_score_in_bounds prev next c) as [s ->]. cbn [bind]. apply IH. }
  unfold lemma_is_disambiguate_bigram. destruct cands as [|c cs].
  - exists None. split; [reflexivity|tauto].
  - destruct (Hloop (c :: cs) 0%nat (mkScoreState [] d_zero 0%nat)) as [st ->].
    cbn [bind]. destruct (d_gt (best_score st) d_zero); eexists;
      (split; [reflexivity|split; discriminate]).
Qed.

Variable stop : list (list byte).
Variable ctx : list (list byte * Z).
Variable pos_value : IcelandicPos -> Z.

Lemma token_groups_in_bounds (td : list (list LemmaCandidate))
    (prev : list LemmaCandidate) :
  exists gs, token_groups stop ctx pos_value bin prev td = Some gs
             /\ length gs = length td.
Proof.
  revert prev. induction td as [|cands td IH]; intros prev; cbn [token_groups].
  - exists []. split; reflexivity.
  - unfold surviving_lemmas.
    match goal with
    | |- context [lemma_is_disambiguate_bigram bin cands prev ?next] =>
        destruct (disambiguate_in_bounds cands prev next) as (r & -> & _)
    end.
    cbn [bind]. destruct (IH cands) as (gs & -> & Hlen). cbn [bind].
    eexists. split; [reflexivity|]. cbn [length]. congruence.
Qed.

End BigramsInBounds.

Lemma token_candidates_in_bounds (lowerstr : list byte -> list byte)
    (bin : LemmaIsBinary) (tokens : list (list byte)) :
  laid_out bin -> size bin < 2 ^ 32 -> values_in_bounds bin ->
  exists td, token_candidates lowerstr bin tokens = Some td.
Proof.
  intros L Hs V. induction tokens as [|t tokens IH]; cbn [token_candidates]; [eauto|].
  destruct (resolver_in_bounds lowerstr bin t L Hs V) as [[cs ->] _]. cbn [bind].
  destruct IH as [td ->]. cbn [bind]. eauto.
Qed.

(** X15: on a dictionary loaded from a file of less than 4 GiB whose stored
    values are in bounds (the views of the words, of the lemmas and of the
    two words of every bigram lie in the string pool, the entry ranges in
    the entry table and the lemma ids in the lemma table), no function of the
    pipeline reads outside the buffer, and each of them returns:
    [lemma_is_bigram_freq] for every pair of words,
    [lemma_is_disambiguate_bigram] for every three lists of candidates (with
    [false] for an empty list only), and [icelandic_fts_query] and
    [icelandic_fts_lemmas] for every text. *)
Theorem pipeline_in_bounds {D : DoubleOps} (d : list byte) (bin : LemmaIsBinary) :
  Z.of_nat (length d) < 2 ^ 32 ->
  lemma_is_load_binary d = Loaded bin ->
  values_in_bounds bin -> bigrams_in_bounds bin ->
  (forall w1 w2, exists f, lemma_is_bigram_freq bin w1 w2 = Some f /\ 0 <= f < 2 ^ 32)
  /\ (forall cands prev next,
        exists r, lemma_is_disambiguate_bigram bin cands prev next = Some r
                  /\ (r = None <-> cands = []))
  /\ (forall lowerstr u_isalpha stop ctx pos_value txt,
        (exists q, icelandic_fts_query lowerstr u_isalpha stop ctx pos_value bin txt
                   = Some q)
        /\ (exists r, icelandic_fts_lemmas lowerstr u_isalpha stop ctx pos_value bin txt
                      = Some r)).
Proof.
  intros Hsize Hload V B.
  destruct (load_binary_laid_out d bin Hsize Hload) as (L & _ & Hs).
  assert (size bin < 2 ^ 32) as Hsmall by (rewrite Hs; exact Hsize).
  split; [apply bigram_freq_in_bounds; assumption|].
  split; [apply disambiguate_in_bounds; assumption|].
  intros lowerstr u_isalpha stop ctx pos_value txt.
  unfold icelandic_fts_query, icelandic_fts_lemmas.
  destruct (token_candidates_in_bounds lowerstr bin
              (icelandic_tokenize_words u_isalpha txt) L Hsmall V) as [td ->].
  cbn [bind].
  destruct (token_groups_in_bounds bin L Hsmall B stop ctx pos_value td [])
    as (gs & -> & _).
  cbn [bind]. split; [eauto|].
  destruct (length (fold_left collect_lemmas gs []) =? 0)%nat; eauto.
Qed.

Lemma sample_bigrams_in_bounds : bigrams_in_bounds sample_bin.
Proof.
  constructor.
  - intros i off len Hi. revert off len.
    pattern i. apply below_cases with (n := 3%nat); [|exact Hi].
    repeat constructor; intros off len Ho Hl; read_value Ho; read_value Hl; by_computation.
  - intros i off len Hi. revert off len.
    pattern i. apply below_cases with (n := 3%nat); [|exact Hi].
    repeat constructor; intros off len Ho Hl; read_value Ho; read_value Hl; by_computation.
Qed.

Lemma pipeline_in_bounds_witness :
  lemma_is_load_binary sample_image = Loaded sample_bin
  /\ (exists f, lemma_is_bigram_freq sample_bin (lit "hestur") (lit "hross") = Some f
                /\ 0 <= f < 2 ^ 32)
  /\ exists q, @icelandic_fts_query real_double (fun w => w) latin1_alpha sample_stopwords
                 sample_contextual pos_ordinal sample_bin (lit "hestur fer") = Some q.
Proof.
  assert (Z.of_nat (length sample_image) < 2 ^ 32) as Hsize by by_computation.
  destruct (@pipeline_in_bounds real_double sample_image sample_bin Hsize
              sample_bin_loaded sample_values_in_bounds sample_bigrams_in_bounds)
    as (Hfreq & _ & Htext).
  split; [exact sample_bin_loaded|]. split; [apply Hfreq|].
  exact (proj1 (Htext (fun w => w) latin1_alpha sample_stopwords sample_contextual
                  pos_ordinal (lit "hestur fer"))).
Defined.

(** ** The order of the bigram index *)

(** X16: [lemma_is_compare_bigram] orders a stored bigram and a pair of
    words by the first word and then by the second, each in the byte order
    [lex]: on a stored bigram that can be read it returns, its result is
    zero for the pair itself only, negative exactly when the stored pair
    comes first, and positive exactly when it comes last. *)
Theorem compare_bigram_order (bin : LemmaIsBinary) (i : Z) (s1 s2 w1 w2 : list byte)
    (f : Z) :
  stored_bigram bin i = Some (s1, s2, f) ->
  exists c, lemma_is_compare_bigram bin i w1 (strlen w1) w2 (strlen w2) = Some c
    /\ (c = 0 <-> s1 = w1 /\ s2 = w2)
    /\ (c < 0 <-> lex s1 w1 = Lt \/ (s1 = w1 /\ lex s2 w2 = Lt))
    /\ (c > 0 <-> lex s1 w1 = Gt \/ (s1 = w1 /\ lex s2 w2 = Gt)).
Proof.
  intros Hs. exists (pair_compare (s1, s2) (w1, w2)).
  split; [apply compare_bigram_spec with (f := f); exact Hs|].
  unfold pair_compare. cbn [fst snd].
  pose proof (view_compare_lex s1 w1) as H1. pose proof (view_compare_lex s2 w2) as H2.
  destruct (Z.eqb_spec (view_compare s1 w1) 0) as [E|E].
  - apply view_compare_zero in E. subst w1. pose proof (lex_refl s1) as R1.
    split; [rewrite view_compare_zero; split; [intros ->; auto|intros [_ H]; exact H]|].
    split; split.
    + intros Hc. right. split; [reflexivity|]. destruct (lex s2 w2); [lia|reflexivity|lia].
    + intros [Hl|[_ Hl]]; [rewrite R1 in Hl; discriminate|]. rewrite Hl in H2. exact H2.
    + intros Hc. right. split; [reflexivity|]. destruct (lex s2 w2); [lia|lia|reflexivity].
    + intros [Hl|[_ Hl]]; [rewrite R1 in Hl; discriminate|]. rewrite Hl in H2. exact H2.
  - assert (s1 <> w1) as Hne by (intros ->; apply E; apply view_compare_zero; reflexivity).
    split; [split; [intros H; contradiction|intros [H _]; contradiction]|].
    split; split.
    + intros Hc. left. destruct (lex s1 w1); [lia|reflexivity|lia].
    + intros [Hl|[H _]]; [|contradiction]. rewrite Hl in H1. exact H1.
    + intros Hc. left. destruct (lex s1 w1); [lia|lia|reflexivity].
    + intros [Hl|[H _]]; [|contradiction]. rewrite Hl in H1. exact H1.
Qed.

Lemma compare_bigram_order_witness :
  stored_bigram sample_bin 1 = Some (lit "hestur", lit "fara", 7)
  /\ exists c,
       lemma_is_compare_bigram sample_bin 1 (lit "hestur") (strlen (lit "hestur"))
         (lit "vera") (strlen (lit "vera")) = Some c
       /\ c < 0.
Proof.
  assert (stored_bigram sample_bin 1 = Some (lit "hestur", lit "fara", 7)) as Hs
    by (vm_compute; reflexivity).
  split; [exact Hs|].
  destruct (compare_bigram_order sample_bin 1 _ _ (lit "hestur") (lit "vera") _ Hs)
    as (c & Hc & _ & Hneg & _).
  exists c. split; [exact Hc|]. apply (proj2 Hneg). right. split; reflexivity.
Defined.

(** ** Bigram evidence *)

Lemma Forall2_nth_error_r {A B : Type} (R : A -> B -> Prop) (xs : list A) (ys : list B)
    (k : nat) (y : B) :
  Forall2 R xs ys -> nth_error ys k = Some y ->
  exists x, nth_error xs k = Some x /\ R x y.
Proof.
  intros H. revert k. induction H as [|a b xs ys Hab _ IH]; intros [|k] Hk;
    try discriminate.
  - injection Hk as <-. exists a. split; [reflexivity|exact Hab].
  - apply IH. exact Hk.
Qed.

Section Evidence.

Context {D : DoubleOps} {O : DoubleOrder D}.
Variable bin : LemmaIsBinary.

Lemma score_prev_evidence (ps : list LemmaCandidate) (c : LemmaCandidate)
    (s s' : double) :
  score_prev bin ps c s = Some s' ->
  s' = s \/ exists p f, In p ps
              /\ lemma_is_bigram_freq bin (lemma p) (lemma c) = Some f /\ 0 < f.
Proof.
  revert s. induction ps as [|p ps IH]; intros s H; cbn [score_prev] in H.
  - left. congruence.
  - destruct (lemma_is_bigram_freq bin (lemma p) (lemma c)) as [f|] eqn:Ef;
      [|discriminate].
    cbn [bind] in H. destruct (Z.gtb_spec f 0) as [Hf|Hf].
    + right. exists p, f. split; [left; reflexivity|]. split; [exact Ef|lia].
    + destruct (IH _ H) as [->|(q & g & Hq & Hg & Hpos)].
      * left. unfold add_freq. destruct (Z.gtb_spec f 0); [lia|reflexivity].
      * right. exists q, g. split; [right; exact Hq|]. split; assumption.
Qed.

Lemma score_next_evidence (ns : list LemmaCandidate) (c : LemmaCandidate)
    (s s' : double) :
  score_next bin ns c s = Some s' ->
  s' = s \/ exists n f, In n ns
              /\ lemma_is_bigram_freq bin (lemma c) (lemma n) = Some f /\ 0 < f.
Proof.
  revert s. induction ns as [|n ns IH]; intros s H; cbn [score_next] in H.
  - left. congruence.
  - destruct (lemma_is_bigram_freq bin (lemma c) (lemma n)) as [f|] eqn:Ef;
      [|discriminate].
    cbn [bind] in H. destruct (Z.gtb_spec f 0) as [Hf|Hf].
    + right. exists n, f. split; [left; reflexivity|]. split; [exact Ef|lia].
    + destruct (IH _ H) as [->|(q & g & Hq & Hg & Hpos)].
      * left. unfold add_freq. destruct (Z.gtb_spec f 0); [lia|reflexivity].
      * right. exists q, g. split; [right; exact Hq|]. split; assumption.
Qed.

End Evidence.

(** X17: the disambiguator reports the use of bigrams only on evidence:
    when [lemma_is_disambiguate_bigram] sets [by_bigram], the lemma and tag
    it returns are those of one of the candidates, and the bigram table
    holds, with a frequency above zero, a bigram of a lemma of the previous
    token followed by that lemma, or of that lemma followed by a lemma of
    the next token. *)
Theorem by_bigram_has_evidence {D : DoubleOps} {O : DoubleOrder D} (bin : LemmaIsBinary)
    (cands prev next : list LemmaCandidate) (r : Disambiguation) :
  lemma_is_disambiguate_bigram bin cands prev next = Some (Some r) ->
  out_by_bigram r = true ->
  exists c, In c cands /\ out_lemma r = lemma c /\ out_pos r = pos c
    /\ ((exists p f, In p prev
           /\ lemma_is_bigram_freq bin (lemma p) (lemma c) = Some f /\ 0 < f)
        \/ (exists n f, In n next
              /\ lemma_is_bigram_freq bin (lemma c) (lemma n) = Some f /\ 0 < f)).
Proof.
  destruct cands as [|c0 cs]; [discriminate|]. intros Hr Hby.
  destruct (score_loop bin prev next (c0 :: cs) 0%nat initial_state) as [st|] eqn:Eloop.
  2:{ unfold lemma_is_disambiguate_bigram in Hr. fold (@initial_state D) in Hr.
      rewrite Eloop in Hr. discriminate. }
  destruct (disambiguate_outputs bin prev next c0 cs st Eloop)
    as (r' & Hr' & Hl & Hp & Hb & _).
  rewrite Hr in Hr'. injection Hr' as <-. rewrite Hby in Hb. symmetry in Hb.
  destruct (score_loop_select bin prev next _ _ _ _ Eloop) as (ss & Hss & Hst).
  assert (scores st = ss) as Hscores by (rewrite Hst, select_loop_scores; reflexivity).
  pose proof (select_loop_selected ss initial_state initial_selected) as Hsel.
  cbn [initial_state scores length] in Hsel. fold (@initial_state D) in Hsel.
  rewrite <- Hst in Hsel. destruct Hsel as [_ Hfirst].
  destruct Hfirst as [[Hz _]|(Hnth & _ & _)].
  { rewrite Hz, d_gt_irrefl in Hb. discriminate. }
  rewrite Hscores in Hnth.
  destruct (Forall2_nth_error_r _ _ _ _ _ Hss Hnth) as (c & Hc & Hscore).
  rewrite (nth_error_nth _ _ c0 Hc) in Hl, Hp.
  exists c. split; [apply nth_error_In with (n := best_idx st); exact Hc|].
  split; [exact Hl|]. split; [exact Hp|].
  unfold candidate_score in Hscore.
  destruct (score_prev bin prev c d_zero) as [s1|] eqn:E1; [|discriminate].
  cbn [bind] in Hscore.
  destruct (score_prev_evidence bin _ _ _ _ E1) as [->|Hev]; [|left; exact Hev].
  destruct (score_next_evidence bin _ _ _ _ Hscore) as [Hzero|Hev]; [|right; exact Hev].
  rewrite Hzero, d_gt_irrefl in Hb. discriminate.
Qed.

Lemma by_bigram_has_evidence_witness :
  exists c, In c [cand_far; cand_fara] /\ lit "fara" = lemma c /\ POS_SO = pos c
    /\ ((exists p f, In p [cand_hestur]
           /\ lemma_is_bigram_freq sample_bin (lemma p) (lemma c) = Some f /\ 0 < f)
        \/ (exists n f, In n []
              /\ lemma_is_bigram_freq sample_bin (lemma c) (lemma n) = Some f /\ 0 < f)).
Proof.
  destruct disambiguate_by_bigram as [confidence H].
  exact (@by_bigram_has_evidence real_double real_double_order sample_bin
           [cand_far; cand_fara] [cand_hestur] [] _ H eq_refl).
Defined.

(** ** Tokens that leave the query *)

(** X18: a token is left without a lemma only in two cases: it has no
    candidate at all, or all its candidates have one and the same lemma,
    the disambiguator chose it on bigram evidence, and the stopword filter
    says that this lemma with the tag chosen is a stopword.  A token with
    two different lemmas always keeps one. *)
Theorem token_dropped {D : DoubleOps} (stop : list (list byte))
    (ctx : list (list byte * Z)) (pos_value : IcelandicPos -> Z) (bin : LemmaIsBinary)
    (prev cands next : list LemmaCandidate) :
  surviving_lemmas stop ctx pos_value bin prev cands next = Some [] ->
  cands = []
  \/ exists r, lemma_is_disambiguate_bigram bin cands prev next = Some (Some r)
       /\ out_by_bigram r = true
       /\ lemma_is_contextual_stopword stop ctx pos_value (out_lemma r) (out_pos r) = true
       /\ forall c, In c cands -> lemma c = out_lemma r.
Proof.
  unfold surviving_lemmas.
  destruct (lemma_is_disambiguate_bigram bin cands prev next) as [r|] eqn:Er;
    [|discriminate].
  cbn [bind]. intros [= Hg].
  destruct cands as [|c0 cs]; [left; reflexivity|right].
  assert (forall f dl c, token_lemmas_of f dl (c0 :: cs) = [] -> In c (c0 :: cs) ->
            f = true /\ dl = Some (lemma c)) as Hall.
  { intros f dl c Hempty Hc.
    assert (~ In (lemma c) (token_lemmas_of f dl (c0 :: cs))) as Hnot
      by (rewrite Hempty; intros []).
    rewrite token_lemmas_in in Hnot.
    destruct f; [|exfalso; apply Hnot; split; [apply in_map; exact Hc|intros [? _]; discriminate]].
    split; [reflexivity|]. destruct dl as [l|].
    - destruct (Z.eqb_spec (strcmp (lemma c) l) 0) as [E|E].
      + apply strcmp_zero in E. congruence.
      + exfalso. apply Hnot. split; [apply in_map; exact Hc|].
        intros [_ [= Hl]]. apply E. apply strcmp_zero. congruence.
    - exfalso. apply Hnot. split; [apply in_map; exact Hc|]. intros [_ ?]. discriminate. }
  destruct r as [o|].
  - cbn [option_map] in Hg. exists o. split; [reflexivity|].
    destruct (out_by_bigram o) eqn:Eby.
    + destruct (lemma_is_contextual_stopword stop ctx pos_value (out_lemma o) (out_pos o))
        eqn:Estop.
      * split; [reflexivity|]. split; [reflexivity|].
        intros c Hc. destruct (Hall _ _ c Hg Hc) as [_ [= Hl]]. congruence.
      * destruct (Hall _ _ c0 Hg (or_introl eq_refl)) as [Hf _]. discriminate.
    + destruct (Hall _ _ c0 Hg (or_introl eq_refl)) as [Hf _]. discriminate.
  - cbn [option_map] in Hg.
    destruct (Hall _ _ c0 Hg (or_introl eq_refl)) as [Hf _]. discriminate.
Qed.

Lemma token_dropped_witness :
  @surviving_lemmas real_double sample_stopwords sample_contextual pos_ordinal sample_bin
    [cand_hestur] [mkCandidate (lit "vera") POS_SO 0 0 0] [] = Some []
  /\ exists r,
       @lemma_is_disambiguate_bigram real_double sample_bin
         [mkCandidate (lit "vera") POS_SO 0 0 0] [cand_hestur] [] = Some (Some r)
       /\ out_by_bigram r = true.
Proof.
  assert (Hfreq : lemma_is_bigram_freq sample_bin (lit "hestur") (lit "vera") = Some 3)
    by (vm_compute; reflexivity).
  pose proof (real_log_positive 3 ltac:(lia)) as Hpos.
  destruct (@disambiguate_single real_double _ sample_bin [cand_hestur] []
              (mkCandidate (lit "vera") POS_SO 0 0 0) (add_freq d_zero 3))
    as [c2 H2].
  { unfold candidate_score, score_prev, score_next, cand_hestur. cbn [bind lemma].
    rewrite Hfreq. reflexivity. }
  assert (@surviving_lemmas real_double sample_stopwords sample_contextual pos_ordinal
            sample_bin [cand_hestur] [mkCandidate (lit "vera") POS_SO 0 0 0] [] = Some [])
    as Hs.
  { unfold surviving_lemmas. rewrite H2, Hpos.
    cbn [bind option_map out_lemma out_pos out_by_bigram]. vm_compute. reflexivity. }
  split; [exact Hs|].
  destruct (@token_dropped real_double _ _ _ _ _ _ _ Hs) as [Hnil|(r & Hr & Hby & _)];
    [discriminate|].
  exists r. split; [exact Hr|exact Hby].
Defined.

(** ** Texts of unknown words *)

Lemma token_candidates_unknown (lowerstr : list byte -> list byte) (bin : LemmaIsBinary)
    (tokens : list (list byte)) :
  (forall t, In t tokens ->
     exists idx, lemma_is_find_word bin (lowerstr t) = Some idx /\ idx < 0) ->
  token_candidates lowerstr bin tokens
  = Some (map (fun t => [fallback_candidate (lowerstr t)]) tokens).
Proof.
  induction tokens as [|t tokens IH]; intros H; cbn [token_candidates map]; [reflexivity|].
  destruct (H t (or_introl eq_refl)) as (idx & Hidx & Hneg).
  rewrite (proj1 (resolver_not_found lowerstr bin t idx Hidx Hneg)). cbn [bind].
  rewrite IH by (intros x Hx; apply H; right; exact Hx). reflexivity.
Qed.

Lemma query_of_single_lemmas (ls : list (list byte)) :
  build_query (map (fun l => [l]) ls) = join (lit " & ") ls.
Proof.
  rewrite build_query_text. unfold query_text. f_equal.
  induction ls as [|l ls IH]; [reflexivity|].
  cbn [map filter nonempty conjunct]. f_equal. exact IH.
Qed.

Lemma collect_single_lemmas (ls acc : list (list byte)) :
  fold_left collect_lemmas (map (fun l => [l]) ls) acc = collect_lemmas acc ls.
Proof.
  revert acc. induction ls as [|l ls IH]; intros acc; [reflexivity|].
  cbn [map fold_left]. rewrite IH. reflexivity.
Qed.

(** X19: words the dictionary does not know stand for themselves all the
    way to the query.  With a dictionary without bigrams, a text none of
    whose tokens is in the word index gives the query of its lowercased
    tokens joined with [" & "], and [icelandic_fts_lemmas] returns the
    distinct lowercased tokens in text order (NULL when there is none).
    With an empty word index no word is found, and nothing is read to see
    it. *)
Theorem unknown_words_query {D : DoubleOps} {O : DoubleOrder D}
    (lowerstr : list byte -> list byte) (u_isalpha : Z -> bool)
    (stop : list (list byte)) (ctx : list (list byte * Z))
    (pos_value : IcelandicPos -> Z) (bin : LemmaIsBinary) (txt : list byte) :
  (wordCount bin = 0 -> forall w, lemma_is_find_word bin w = Some (-1))
  /\ (bigramCount bin = 0 ->
      (forall t, In t (icelandic_tokenize_words u_isalpha txt) ->
         exists idx, lemma_is_find_word bin (lowerstr t) = Some idx /\ idx < 0) ->
      icelandic_fts_query lowerstr u_isalpha stop ctx pos_value bin txt
      = Some (join (lit " & ") (map lowerstr (icelandic_tokenize_words u_isalpha txt)))
      /\ icelandic_fts_lemmas lowerstr u_isalpha stop ctx pos_value bin txt
         = Some match collect_lemmas []
                        (map lowerstr (icelandic_tokenize_words u_isalpha txt)) with
                | [] => None
                | ls => Some ls
                end).
Proof.
  split.
  - intros Hz w. unfold lemma_is_find_word. rewrite Hz. reflexivity.
  - intros Hb Hunknown. unfold icelandic_fts_query, icelandic_fts_lemmas.
    rewrite (token_candidates_unknown _ _ _ Hunknown). cbn [bind].
    rewrite token_groups_no_bigrams.
    2:{ intros w1 w2. unfold lemma_is_bigram_freq, lemma_is_find_bigram.
        rewrite Hb. reflexivity. }
    cbn [bind]. rewrite map_map.
    replace (map (fun t => token_lemmas_of false None [fallback_candidate (lowerstr t)])
                 (icelandic_tokenize_words u_isalpha txt))
      with (map (fun l => [l]) (map lowerstr (icelandic_tokenize_words u_isalpha txt)))
      by (rewrite map_map; reflexivity).
    rewrite query_of_single_lemmas, collect_single_lemmas. split; [reflexivity|].
    destruct (collect_lemmas [] _); reflexivity.
Qed.

Lemma unknown_words_query_witness :
  @icelandic_fts_query real_double (fun w => w) latin1_alpha sample_stopwords
    sample_contextual pos_ordinal plain_bin (lit "hross og hross")
  = Some (lit "hross & og & hross")
  /\ @icelandic_fts_lemmas real_double (fun w => w) latin1_alpha sample_stopwords
       sample_contextual pos_ordinal plain_bin (lit "hross og hross")
     = Some (Some [lit "hross"; lit "og"])
  /\ lemma_is_find_word version2_bin (lit "hross") = Some (-1).
Proof.
  destruct (@unknown_words_query real_double real_double_order (fun w => w) latin1_alpha
              sample_stopwords sample_contextual pos_ordinal plain_bin
              (lit "hross og hross")) as [_ Htext].
  destruct (@unknown_words_query real_double real_double_order (fun w => w) latin1_alpha
              sample_stopwords sample_contextual pos_ordinal version2_bin
              (lit "hross")) as [Hempty _].
  destruct Htext as [Hq Hl].
  - vm_compute. reflexivity.
  - replace (icelandic_tokenize_words latin1_alpha (lit "hross og hross"))
      with [lit "hross"; lit "og"; lit "hross"] by (vm_compute; reflexivity).
    intros t [<-|[<-|[<-|[]]]]; exists (-1); (split; [vm_compute; reflexivity|lia]).
  - split; [rewrite Hq; vm_compute; reflexivity|].
    split; [rewrite Hl; vm_compute; reflexivity|].
    apply Hempty. reflexivity.
Defined.

(** ** What the disambiguator and the filter look at *)

Section ReadingsOnly.

Context {D : DoubleOps}.
Variable bin : LemmaIsBinary.

Lemma score_prev_lemmas (ps ps' : list LemmaCandidate) (c c' : LemmaCandidate)
    (s : double) :
  map lemma ps = map lemma ps' -> lemma c = lemma c' ->
  score_prev bin ps c s = score_prev bin ps' c' s.
Proof.
  intros Hps Hc. revert ps' s Hps.
  induction ps as [|p ps IH]; intros [|p' ps'] s Hps; try discriminate;
    cbn [score_prev]; [reflexivity|].
  cbn [map] in Hps. injection Hps as Hp Hps. rewrite Hp, Hc.
  destruct (lemma_is_bigram_freq bin (lemma p') (lemma c')) as [f|]; [|reflexivity].
  cbn [bind]. apply IH. exact Hps.
Qed.

Lemma score_next_lemmas (ns ns' : list LemmaCandidate) (c c' : LemmaCandidate)
    (s : double) :
  map lemma ns = map lemma ns' -> lemma c = lemma c' ->
  score_next bin ns c s = score_next bin ns' c' s.
Proof.
  intros Hns Hc. revert ns' s Hns.
  induction ns as [|n ns IH]; intros [|n' ns'] s Hns; try discriminate;
    cbn [score_next]; [reflexivity|].
  cbn [map] in Hns. injection Hns as Hn Hns. rewrite Hn, Hc.
  destruct (lemma_is_bigram_freq bin (lemma c') (lemma n')) as [f|]; [|reflexivity].
  cbn [bind]. apply IH. exact Hns.
Qed.

Lemma score_loop_lemmas (prev prev' next next' cs cs' : list LemmaCandidate)
    (i : nat) (st : ScoreState) :
  map lemma prev = map lemma prev' -> map lemma next = map lemma next' ->
  map lemma cs = map lemma cs' ->
  score_loop bin prev next cs i st = score_loop bin prev' next' cs' i st.
Proof.
  intros Hp Hn. revert cs' i st.
  induction cs as [|c cs IH]; intros [|c' cs'] i st Hcs; try discriminate;
    cbn [score_loop]; [reflexivity|].
  cbn [map] in Hcs. injection Hcs as Hc Hcs. unfold candidate_score.
  rewrite (score_prev_lemmas prev prev' c c' d_zero Hp Hc).
  destruct (score_prev bin prev' c' d_zero) as [s|]; [|reflexivity]. cbn [bind].
  rewrite (score_next_lemmas next next' c c' s Hn Hc).
  destruct (score_next bin next' c' s) as [s'|]; [|reflexivity]. cbn [bind].
  apply IH. exact Hcs.
Qed.

End ReadingsOnly.

Lemma token_lemmas_of_lemmas (f : bool) (dl : option (list byte))
    (cs cs' : list LemmaCandidate) :
  map lemma cs = map lemma cs' -> token_lemmas_of f dl cs = token_lemmas_of f dl cs'.
Proof.
  unfold token_lemmas_of. generalize (@nil (list byte)). revert cs'.
  induction cs as [|c cs IH]; intros [|c' cs'] acc H; try discriminate; [reflexivity|].
  cbn [map] in H. injection H as Hc Hcs. cbn [fold_left].
  unfold token_lemmas_step at 2 4. rewrite Hc. apply IH. exact Hcs.
Qed.

(** X20: the grammatical case, gender and number of the candidates play no
    part after resolution.  [lemma_is_disambiguate_bigram] gives the same
    result for two lists of candidates with the same lemmas and tags in the
    same order, and looks at the lemmas of the neighbours only; the lemmas a
    token keeps after the stopword filter are the same as well. *)
Theorem morphology_unused {D : DoubleOps} (stop : list (list byte))
    (ctx : list (list byte * Z)) (pos_value : IcelandicPos -> Z) (bin : LemmaIsBinary)
    (cs cs' prev prev' next next' : list LemmaCandidate) :
  map lemma cs = map lemma cs' -> map pos cs = map pos cs' ->
  map lemma prev = map lemma prev' -> map lemma next = map lemma next' ->
  lemma_is_disambiguate_bigram bin cs prev next
  = lemma_is_disambiguate_bigram bin cs' prev' next'
  /\ surviving_lemmas stop ctx pos_value bin prev cs next
     = surviving_lemmas stop ctx pos_value bin prev' cs' next'.
Proof.
  intros Hl Hp Hprev Hnext.
  assert (lemma_is_disambiguate_bigram bin cs prev next
          = lemma_is_disambiguate_bigram bin cs' prev' next') as Hsame.
  { unfold lemma_is_disambiguate_bigram.
    destruct cs as [|c cs], cs' as [|c' cs']; try discriminate; [reflexivity|].
    rewrite (score_loop_lemmas bin prev prev' next next' (c :: cs) (c' :: cs') 0%nat
               (mkScoreState [] d_zero 0%nat) Hprev Hnext Hl).
    destruct (score_loop bin prev' next' (c' :: cs') 0%nat _) as [st|]; [|reflexivity].
    cbn [bind].
    assert (lemma (nth (best_idx st) (c :: cs) c) = lemma (nth (best_idx st) (c' :: cs') c'))
      as El.
    { rewrite <- !(map_nth lemma). rewrite Hl. cbn [map] in Hl. injection Hl as -> _.
      reflexivity. }
    assert (pos (nth (best_idx st) (c :: cs) c) = pos (nth (best_idx st) (c' :: cs') c'))
      as Ep.
    { rewrite <- !(map_nth pos). rewrite Hp. cbn [map] in Hp. injection Hp as -> _.
      reflexivity. }
    rewrite El, Ep. reflexivity. }
  split; [exact Hsame|].
  unfold surviving_lemmas. rewrite Hsame.
  destruct (lemma_is_disambiguate_bigram bin cs' prev' next') as [r|]; [|reflexivity].
  cbn [bind]. f_equal. apply token_lemmas_of_lemmas. exact Hl.
Qed.

Lemma morphology_unused_witness :
  @lemma_is_disambiguate_bigram real_double sample_bin
    [cand_far; cand_fara] [cand_hestur] []
  = @lemma_is_disambiguate_bigram real_double sample_bin
      [mkCandidate (lit "far") POS_NO 0 0 0; mkCandidate (lit "fara") POS_SO 3 1 1]
      [mkCandidate (lit "hestur") POS_SO 0 0 0] [].
Proof.
  apply (@morphology_unused real_double sample_stopwords sample_contextual pos_ordinal
           sample_bin); reflexivity.
Defined.

(** ** Bytes after the tables *)

Lemma load_byte_app (d t : list byte) (off : Z) (b : byte) :
  load_byte d off = Some b -> load_byte (d ++ t) off = Some b.
Proof.
  unfold load_byte. destruct (off <? 0); [discriminate|]. intros H.
  rewrite nth_error_app1; [exact H|]. apply nth_error_Some. congruence.
Qed.

Lemma load32_app (d t : list byte) (off v : Z) :
  load32 d off = Some v -> load32 (d ++ t) off = Some v.
Proof.
  assert (forall o x, load8 d o = Some x -> load8 (d ++ t) o = Some x) as H8.
  { intros o x. unfold load8. destruct (load_byte d o) as [b|] eqn:E; [|discriminate].
    rewrite (load_byte_app _ t _ _ E). trivial. }
  unfold load32.
  destruct (load8 d off) as [b0|] eqn:E0; [|discriminate].
  destruct (load8 d (off + 1)) as [b1|] eqn:E1; [|discriminate].
  destruct (load8 d (off + 2)) as [b2|] eqn:E2; [|discriminate].
  destruct (load8 d (off + 3)) as [b3|] eqn:E3; [|discriminate].
  rewrite (H8 _ _ E0), (H8 _ _ E1), (H8 _ _ E2), (H8 _ _ E3). trivial.
Qed.

Ltac frame_bind H lem :=
  match type of H with
  | bind ?m _ = Some _ =>
      let E := fresh "E" in
      let x := fresh "x" in
      assert (exists x, m = Some x) as [x E]
        by (destruct m; [eexists; reflexivity|discriminate H]);
      rewrite E in H; cbn [bind] in H;
      apply lem in E; rewrite E; cbn [bind]
  end.

Ltac binary_fields :=
  cbn [with_data data version stringPoolSize lemmaCount wordCount entryCount bigramCount
       stringPool lemmaOffsets lemmaLengths wordOffsets wordLengths entryOffsets entries
       bigramW1Offsets bigramW1Lengths bigramW2Offsets bigramW2Lengths bigramFreqs].

(** Whatever a function of the dictionary returns without reading outside
    the buffer, it returns over a buffer that holds the same bytes and more
    bytes after them. *)
Section Frame.

Variable bin : LemmaIsBinary.
Variable t : list byte.

Let d' : list byte := data bin ++ t.
Let bin' : LemmaIsBinary := with_data bin d'.

Lemma frame_load8 (off v : Z) : load8 (data bin) off = Some v -> load8 d' off = Some v.
Proof.
  unfold load8. destruct (load_byte (data bin) off) as [b|] eqn:E; [|discriminate].
  subst d'. rewrite (load_byte_app _ t _ _ E). trivial.
Qed.

Lemma frame_load32 (off v : Z) :
  load32 (data bin) off = Some v -> load32 d' off = Some v.
Proof. apply load32_app. Qed.

Lemma frame_load_bytes (n : nat) (off : Z) (l : list byte) :
  load_bytes (data bin) off n = Some l -> load_bytes d' off n = Some l.
Proof.
  revert off l. induction n as [|n IH]; intros off l H; cbn [load_bytes] in *;
    [exact H|].
  destruct (load_byte (data bin) off) as [b|] eqn:E; [|discriminate]. cbn [bind] in H.
  subst d'. rewrite (load_byte_app _ t _ _ E). cbn [bind].
  frame_bind H IH. exact H.
Qed.

Lemma frame_pnstrdup_at (n : nat) (off : Z) (l : list byte) :
  pnstrdup_at (data bin) off n = Some l -> pnstrdup_at d' off n = Some l.
Proof.
  revert off l. induction n as [|n IH]; intros off l H; cbn [pnstrdup_at] in *;
    [exact H|].
  destruct (load_byte (data bin) off) as [b|] eqn:E; [|discriminate]. cbn [bind] in H.
  subst d'. rewrite (load_byte_app _ t _ _ E). cbn [bind].
  destruct (byte_val b =? 0); [exact H|].
  frame_bind H IH. exact H.
Qed.

Lemma frame_u32 (p : ptr) (i v : Z) :
  lemma_is_u32 (data bin) p i = Some v -> lemma_is_u32 d' p i = Some v.
Proof.
  unfold lemma_is_u32, deref32. destruct (ptr_add p (4 * i)); [|discriminate].
  apply frame_load32.
Qed.

Lemma frame_deref8 (p : ptr) (v : Z) :
  deref8 (data bin) p = Some v -> deref8 d' p = Some v.
Proof. unfold deref8. destruct p; [|discriminate]. apply frame_load8. Qed.

Lemma frame_deref_bytes (p : ptr) (n : nat) (l : list byte) :
  deref_bytes (data bin) p n = Some l -> deref_bytes d' p n = Some l.
Proof. unfold deref_bytes. destruct p; [|discriminate]. apply frame_load_bytes. Qed.

Lemma frame_get_lemma (idx : Z) (l : list byte) :
  lemma_is_get_lemma bin idx = Some l -> lemma_is_get_lemma bin' idx = Some l.
Proof.
  unfold lemma_is_get_lemma. subst bin'. binary_fields. intros H.
  frame_bind H frame_u32. frame_bind H frame_deref8.
  unfold pnstrdup in *.
  match goal with |- match ?p with _ => _ end = _ => destruct p; [|discriminate] end.
  apply frame_pnstrdup_at. exact H.
Qed.

Lemma frame_compare_view (p : ptr) (len : Z) (w : list byte) (wl c : Z) :
  compare_view (data bin) p len w wl = Some c -> compare_view d' p len w wl = Some c.
Proof.
  unfold compare_view. intros H. frame_bind H frame_deref_bytes. exact H.
Qed.

Lemma frame_compare_word (i : Z) (w : list byte) (wl c : Z) :
  lemma_is_compare_word bin i w wl = Some c ->
  lemma_is_compare_word bin' i w wl = Some c.
Proof.
  unfold lemma_is_compare_word. subst bin'. binary_fields. intros H.
  frame_bind H frame_u32. frame_bind H frame_deref8.
  apply frame_compare_view. exact H.
Qed.

Lemma frame_compare_bigram (i : Z) (w1 : list byte) (l1 : Z) (w2 : list byte)
    (l2 c : Z) :
  lemma_is_compare_bigram bin i w1 l1 w2 l2 = Some c ->
  lemma_is_compare_bigram bin' i w1 l1 w2 l2 = Some c.
Proof.
  unfold lemma_is_compare_bigram. subst bin'. binary_fields. intros H.
  frame_bind H frame_u32. frame_bind H frame_deref8. frame_bind H frame_deref_bytes.
  destruct (memcmp _ _ =? 0); [|exact H].
  destruct (_ - l1 =? 0); [|exact H].
  frame_bind H frame_u32. frame_bind H frame_deref8.
  apply frame_compare_view. exact H.
Qed.

Lemma search_loop_mono (cmp cmp' : Z -> option Z) (fuel : nat) (left right r : Z) :
  (forall i c, cmp i = Some c -> cmp' i = Some c) ->
  search_loop cmp fuel left right = Some r ->
  search_loop cmp' fuel left right = Some r.
Proof.
  intros Hcmp. revert left right. induction fuel as [|fuel IH]; intros left right H;
    cbn [search_loop] in *; [exact H|].
  destruct (right <? left); [exact H|].
  frame_bind H Hcmp. destruct (_ =? 0); [exact H|].
  destruct (_ <? 0); apply IH; exact H.
Qed.

Lemma frame_find_word (w : list byte) (r : Z) :
  lemma_is_find_word bin w = Some r -> lemma_is_find_word bin' w = Some r.
Proof.
  unfold lemma_is_find_word. cbv zeta.
  change (wordCount bin') with (wordCount bin).
  apply search_loop_mono. intros i c. apply frame_compare_word.
Qed.

Lemma frame_bigram_freq (w1 w2 : list byte) (f : Z) :
  lemma_is_bigram_freq bin w1 w2 = Some f -> lemma_is_bigram_freq bin' w1 w2 = Some f.
Proof.
  unfold lemma_is_bigram_freq, lemma_is_find_bigram. cbv zeta.
  change (bigramCount bin') with (bigramCount bin).
  change (bigramFreqs bin') with (bigramFreqs bin).
  change (data bin') with d'.
  destruct (bigramCount bin =? 0); [trivial|]. intros H.
  match type of H with
  | bind ?m _ = Some _ => destruct m as [idx|] eqn:E; [|discriminate H]
  end.
  cbn [bind] in H.
  apply (search_loop_mono _
           (fun mid => lemma_is_compare_bigram bin' mid w1 (strlen w1) w2 (strlen w2)))
    in E; [|intros i c; apply frame_compare_bigram].
  rewrite E. cbn [bind]. destruct (idx <? 0); [exact H|].
  apply frame_u32. exact H.
Qed.

Lemma frame_candidates_loop (n : nat) (i : Z) (acc cs : list LemmaCandidate) :
  candidates_loop bin n i acc = Some cs -> candidates_loop bin' n i acc = Some cs.
Proof.
  revert i acc. induction n as [|n IH]; intros i acc H; cbn [candidates_loop] in *;
    [exact H|].
  change (data bin') with d'. change (entries bin') with (entries bin).
  frame_bind H frame_u32.
  change (lemma_is_unpack_entry bin') with (lemma_is_unpack_entry bin).
  frame_bind H frame_get_lemma. apply IH. exact H.
Qed.

Lemma frame_lemma_ids_loop (n : nat) (i : Z) (acc ids : list Z) :
  lemma_ids_loop bin n i acc = Some ids -> lemma_ids_loop bin' n i acc = Some ids.
Proof.
  revert i acc. induction n as [|n IH]; intros i acc H; cbn [lemma_ids_loop] in *;
    [exact H|].
  change (data bin') with d'. change (entries bin') with (entries bin).
  frame_bind H frame_u32.
  change (lemma_is_unpack_entry bin') with (lemma_is_unpack_entry bin).
  apply IH. exact H.
Qed.

Lemma frame_lemmas_of_ids (ids : list Z) (ls : list (list byte)) :
  lemmas_of_ids bin ids = Some ls -> lemmas_of_ids bin' ids = Some ls.
Proof.
  revert ls. induction ids as [|id ids IH]; intros ls H; cbn [lemmas_of_ids] in *;
    [exact H|].
  frame_bind H frame_get_lemma. frame_bind H IH. exact H.
Qed.

Variable lowerstr : list byte -> list byte.

Lemma frame_get_candidates (w : list byte) (cs : list LemmaCandidate) :
  lemma_is_get_candidates lowerstr bin w = Some cs ->
  lemma_is_get_candidates lowerstr bin' w = Some cs.
Proof.
  unfold lemma_is_get_candidates. cbv zeta. intros H.
  frame_bind H frame_find_word. destruct (_ <? 0); [exact H|].
  change (data bin') with d'. change (entryOffsets bin') with (entryOffsets bin).
  frame_bind H frame_u32. frame_bind H frame_u32.
  destruct (_ <? _); [exact H|].
  frame_bind H frame_candidates_loop. exact H.
Qed.

Lemma frame_lexize (w : list byte) (r : option (list (list byte))) :
  icelandic_lexize lowerstr bin w = Some r -> icelandic_lexize lowerstr bin' w = Some r.
Proof.
  unfold icelandic_lexize. cbv zeta. intros H.
  frame_bind H frame_find_word. destruct (_ <? 0); [exact H|].
  change (data bin') with d'. change (entryOffsets bin') with (entryOffsets bin).
  frame_bind H frame_u32. frame_bind H frame_u32.
  destruct (_ <? _); [exact H|].
  frame_bind H frame_lemma_ids_loop. destruct (_ =? 0); [exact H|].
  frame_bind H frame_lemmas_of_ids. exact H.
Qed.

Lemma frame_token_candidates (tokens : list (list byte))
    (td : list (list LemmaCandidate)) :
  token_candidates lowerstr bin tokens = Some td ->
  token_candidates lowerstr bin' tokens = Some td.
Proof.
  revert td. induction tokens as [|tk tokens IH]; intros td H;
    cbn [token_candidates] in *; [exact H|].
  frame_bind H frame_get_candidates. frame_bind H IH. exact H.
Qed.

Context {D : DoubleOps}.

Lemma frame_candidate_score (prev next : list LemmaCandidate) (c : LemmaCandidate)
    (s : double) :
  candidate_score bin prev next c = Some s -> candidate_score bin' prev next c = Some s.
Proof.
  assert (forall ps s0 s1, score_prev bin ps c s0 = Some s1 ->
                           score_prev bin' ps c s0 = Some s1) as Hprev.
  { induction ps as [|p ps IH]; intros s0 s1 H; cbn [score_prev] in *; [exact H|].
    frame_bind H frame_bigram_freq. apply IH. exact H. }
  assert (forall ns s0 s1, score_next bin ns c s0 = Some s1 ->
                           score_next bin' ns c s0 = Some s1) as Hnext.
  { induction ns as [|n ns IH]; intros s0 s1 H; cbn [score_next] in *; [exact H|].
    frame_bind H frame_bigram_freq. apply IH. exact H. }
  unfold candidate_score. intros H. frame_bind H Hprev. apply Hnext. exact H.
Qed.

Lemma frame_disambiguate (cs prev next : list LemmaCandidate)
    (r : option Disambiguation) :
  lemma_is_disambiguate_bigram bin cs prev next = Some r ->
  lemma_is_disambiguate_bigram bin' cs prev next = Some r.
Proof.
  assert (forall xs i st st', score_loop bin prev next xs i st = Some st' ->
                              score_loop bin' prev next xs i st = Some st') as Hloop.
  { induction xs as [|x xs IH]; intros i st st' H; cbn [score_loop] in *; [exact H|].
    frame_bind H frame_candidate_score. apply IH. exact H. }
  unfold lemma_is_disambiguate_bigram. destruct cs as [|c cs]; [trivial|].
  intros H. frame_bind H Hloop. exact H.
Qed.

Variable stop : list (list byte).
Variable ctx : list (list byte * Z).
Variable pos_value : IcelandicPos -> Z.

Lemma frame_token_groups (td : list (list LemmaCandidate)) (prev : list LemmaCandidate)
    (gs : list (list (list byte))) :
  token_groups stop ctx pos_value bin prev td = Some gs ->
  token_groups stop ctx pos_value bin' prev td = Some gs.
Proof.
  revert prev gs. induction td as [|cands td IH]; intros prev gs H;
    cbn [token_groups] in *; [exact H|].
  unfold surviving_lemmas in *.
  match type of H with
  | bind (bind ?m _) _ = Some _ => destruct m as [r|] eqn:E; [|discriminate H]
  end.
  apply frame_disambiguate in E. rewrite E. cbn [bind] in *.
  frame_bind H IH. exact H.
Qed.

End Frame.

Lemma load_regions_grow (d d' : list byte) (sz v sps lc wc ec bc : Z)
    (bin : LemmaIsBinary) :
  sz <= Z.of_nat (length d') ->
  lemma_is_load_regions d sz v sps lc wc ec bc = Loaded bin ->
  lemma_is_load_regions d' (Z.of_nat (length d')) v sps lc wc ec bc
  = Loaded (with_data bin d')
  /\ data bin = d.
Proof.
  intros Hle. unfold lemma_is_load_regions. cbv zeta.
  repeat match goal with
         | |- context [?x >? sz] =>
             destruct (Z.gtb_spec x sz); [discriminate|];
             destruct (Z.gtb_spec x (Z.of_nat (length d'))); [lia|]
         end.
  destruct (bc >? 0).
  - repeat match goal with
           | |- context [?x >? sz] =>
               destruct (Z.gtb_spec x sz); [discriminate|];
               destruct (Z.gtb_spec x (Z.of_nat (length d'))); [lia|]
           end.
    intros Hbin.
    pose proof (f_equal (fun r => match r with Loaded b => b | _ => bin end) Hbin) as Hb'.
    cbv beta iota in Hb'. clear Hbin. subst bin. split; reflexivity.
  - intros Hbin.
    pose proof (f_equal (fun r => match r with Loaded b => b | _ => bin end) Hbin) as Hb'.
    cbv beta iota in Hb'. clear Hbin. subst bin. split; reflexivity.
Qed.

(** X21: the loader does not ask the file to end with its last table, and
    the bytes after the tables are never looked at.  A file that loads still
    loads when bytes are appended to it, with the same header values and the
    same table pointers; and whatever the candidate resolver,
    [icelandic_lexize], [icelandic_fts_query] and [icelandic_fts_lemmas]
    return over the first file, they return over the longer one. *)
Theorem trailing_bytes_ignored {D : DoubleOps} (d t : list byte) (bin : LemmaIsBinary) :
  lemma_is_load_binary d = Loaded bin ->
  lemma_is_load_binary (d ++ t) = Loaded (with_data bin (d ++ t))
  /\ (forall lowerstr w cs,
        lemma_is_get_candidates lowerstr bin w = Some cs ->
        lemma_is_get_candidates lowerstr (with_data bin (d ++ t)) w = Some cs)
  /\ (forall lowerstr w r,
        icelandic_lexize lowerstr bin w = Some r ->
        icelandic_lexize lowerstr (with_data bin (d ++ t)) w = Some r)
  /\ (forall lowerstr u_isalpha stop ctx pos_value txt q,
        icelandic_fts_query lowerstr u_isalpha stop ctx pos_value bin txt = Some q ->
        icelandic_fts_query lowerstr u_isalpha stop ctx pos_value
          (with_data bin (d ++ t)) txt = Some q)
  /\ (forall lowerstr u_isalpha stop ctx pos_value txt r,
        icelandic_fts_lemmas lowerstr u_isalpha stop ctx pos_value bin txt = Some r ->
        icelandic_fts_lemmas lowerstr u_isalpha stop ctx pos_value
          (with_data bin (d ++ t)) txt = Some r).
Proof.
  intros Hload.
  assert (lemma_is_load_binary (d ++ t) = Loaded (with_data bin (d ++ t)) /\ data bin = d)
    as [Hlong Hdata].
  { revert Hload. unfold lemma_is_load_binary, header32.
    destruct (Z.leb_spec (Z.of_nat (length d)) 0) as [|Hpos]; [discriminate|].
    destruct (Z.leb_spec (Z.of_nat (length (d ++ t))) 0) as [Hzero|_];
      [rewrite length_app in Hzero; lia|].
    repeat match goal with
           | |- context [load32 d ?o] =>
               let E := fresh "E" in
               destruct (load32 d o) eqn:E; [|discriminate];
               rewrite (load32_app d t o _ E)
           | |- context [if ?c then Raised _ else _] => destruct c; [discriminate|]
           end.
    apply load_regions_grow. rewrite length_app. lia. }
  split; [exact Hlong|]. subst d.
  split; [intros lowerstr w cs; apply frame_get_candidates|].
  split; [intros lowerstr w r; apply frame_lexize|].
  split.
  - intros lowerstr u_isalpha stop ctx pos_value txt q.
    unfold icelandic_fts_query. intros H.
    frame_bind H (frame_token_candidates bin t lowerstr).
    frame_bind H (@frame_token_groups bin t D stop ctx pos_value). exact H.
  - intros lowerstr u_isalpha stop ctx pos_value txt r.
    unfold icelandic_fts_lemmas. intros H.
    frame_bind H (frame_token_candidates bin t lowerstr).
    frame_bind H (@frame_token_groups bin t D stop ctx pos_value). exact H.
Qed.

Lemma trailing_bytes_ignored_witness :
  lemma_is_load_binary (sample_image ++ lit "more")
  = Loaded (with_data sample_bin (sample_image ++ lit "more"))
  /\ lemma_is_get_candidates (fun w => w)
       (with_data sample_bin (sample_image ++ lit "more")) (lit "fer")
     = Some [mkCandidate (lit "fara") POS_SO 0 0 0; mkCandidate (lit "far") POS_NO 2 2 0].
Proof.
  destruct (@trailing_bytes_ignored real_double sample_image (lit "more") sample_bin
              sample_bin_loaded) as (Hload & Hcands & _).
  split; [exact Hload|]. apply Hcands. vm_compute. reflexivity.
Defined.

(** ** What the loader looks at *)

Lemma load32_same_prefix (d d' : list byte) (n : nat) (off : Z) :
  length d = length d' -> firstn n d = firstn n d' ->
  0 <= off -> off + 4 <= Z.of_nat n ->
  load32 d off = load32 d' off.
Proof.
  intros Hlen Hpre H0 H4.
  assert (forall o, 0 <= o < Z.of_nat n -> load8 d o = load8 d' o) as H8.
  { intros o Ho. unfold load8, load_byte. destruct (Z.ltb_spec o 0); [lia|].
    pose proof (nth_error_firstn n d (Z.to_nat o)) as Hd.
    pose proof (nth_error_firstn n d' (Z.to_nat o)) as Hd'.
    destruct (Nat.ltb_spec (Z.to_nat o) n); [|lia].
    rewrite <- Hd, <- Hd', Hpre. reflexivity. }
  unfold load32. rewrite !H8 by lia. reflexivity.
Qed.

Lemma load_regions_data (d d' : list byte) (sz v sps lc wc ec bc : Z) :
  sz = Z.of_nat (length d') ->
  lemma_is_load_regions d' sz v sps lc wc ec bc
  = match lemma_is_load_regions d sz v sps lc wc ec bc with
    | Loaded bin => Loaded (with_data bin d')
    | r => r
    end.
Proof.
  intros Hsz. unfold lemma_is_load_regions. cbv zeta.
  repeat match goal with
         | |- context [if ?c then Raised _ else _] => destruct c; [reflexivity|]
         end.
  destruct (bc >? 0).
  - repeat match goal with
           | |- context [if ?c then Raised _ else _] => destruct c; [reflexivity|]
           end.
    unfold with_data. binary_fields. rewrite <- Hsz. reflexivity.
  - unfold with_data. binary_fields. rewrite <- Hsz. reflexivity.
Qed.

(** X22: the loader looks at the first 28 bytes of the file and at its
    length, and at nothing else: two files of the same length with the same
    first 28 bytes are both loaded, with the same header values and table
    pointers, or both refused with the same error.  Neither the reserved
    word at bytes 28 to 31 nor any byte of a table is examined. *)
Theorem loader_reads_header_only (d d' : list byte) :
  length d = length d' -> firstn 28 d = firstn 28 d' ->
  lemma_is_load_binary d'
  = match lemma_is_load_binary d with
    | Loaded bin => Loaded (with_data bin d')
    | r => r
    end.
Proof.
  intros Hlen Hpre. unfold lemma_is_load_binary, header32. rewrite <- Hlen.
  destruct (Z.of_nat (length d) <=? 0); [reflexivity|].
  repeat match goal with
         | |- context [load32 d' ?o] =>
             rewrite <- (load32_same_prefix d d' 28 o Hlen Hpre) by lia;
             destruct (load32 d o); [|reflexivity]
         | |- context [if ?c then Raised _ else _] => destruct c; [reflexivity|]
         end.
  apply load_regions_data. rewrite Hlen. reflexivity.
Qed.

Lemma loader_reads_header_only_witness :
  lemma_is_load_binary (firstn 28 sample_image ++ repeat xff 172)
  = Loaded (with_data sample_bin (firstn 28 sample_image ++ repeat xff 172)).
Proof.
  rewrite (loader_reads_header_only sample_image
             (firstn 28 sample_image ++ repeat xff 172)).
  - rewrite sample_bin_loaded. reflexivity.
  - vm_compute. reflexivity.
  - vm_compute. reflexivity.
Defined.
